(** * simd-perf: alignment-sweep benchmark harness (simd-copy / simd-mult)

    A shallow embedding of the two benchmark programs of the repository:
    [simd-copy.cpp] (module [SimdCopy]) and [simd-mult.cpp] (module
    [SimdMult]).  Both share the alignment utility [align], the process-wide
    tunables, and the shape of the timed-run executor [Run].

    Modelling conventions.
    - [std::size_t] is a 64-bit unsigned integer: a [Z] in [0, 2^64), every
      increment reduced modulo [2^64].
    - [int] is a 32-bit signed integer; signed overflow is undefined
      behaviour and is modelled as the absence of a result.
    - [float] is IEEE-754 binary32, through the executable [spec_float]
      operations of the core library (round to nearest even).
    - Memory is a flat store of [float] objects, each identified with the
      address of its first byte; the element [p[i]] of a [float*] [p] lives at
      [p + 4 * i].  The store does not relate two floats whose bytes overlap
      (addresses less than 4 apart): what is stated about the memory a kernel
      or a run leaves concerns the floats it addresses and the floats that
      share no byte with what it writes.
    - Loops whose termination depends on their inputs carry fuel. *)

From Stdlib Require Import ZArith List String Ascii Bool Lia.
From Stdlib Require Import SpecFloat.
Import ListNotations.

Local Open Scope Z_scope.

(** Closes a conjunction of closed equations, each one by evaluation. *)
Ltac evaluate :=
  lazymatch goal with
  | |- _ /\ _ => split; [evaluate | evaluate]
  | |- _ = _ => vm_compute; reflexivity
  | |- _ <> _ => vm_compute; discriminate
  | |- _ <= _ => vm_compute; discriminate
  | |- _ < _ => vm_compute; reflexivity
  end.

(* ------------------------------------------------------------------------- *)
(** ** Machine integers *)

(** [std::size_t] arithmetic is performed modulo [size_modulus]. *)
Definition size_modulus : Z := 2 ^ 64.

Definition size_wrap (x : Z) : Z := x mod size_modulus.

(** The largest value of an [int]. *)
Definition INT_MAX : Z := 2 ^ 31 - 1.

(* ------------------------------------------------------------------------- *)
(** ** The alignment utility

<<
    std::size_t address = reinterpret_cast<std::size_t>(p);
    while(address % 256 != aligned_to)
        ++address;
    return reinterpret_cast<T*>(address);
>>

    One unit of fuel pays for one evaluation of the loop condition.  The
    result carries the number of increments that were executed. *)

Fixpoint align_loop (fuel : nat) (address aligned_to : Z) (steps : Z)
  : option (Z * Z) :=
  match fuel with
  | O => None
  | S fuel' =>
      if negb (address mod 256 =? aligned_to)
      then align_loop fuel' (size_wrap (address + 1)) aligned_to (steps + 1)
      else Some (address, steps)
  end.

Definition align_steps (fuel : nat) (p aligned_to : Z) : option (Z * Z) :=
  align_loop fuel p aligned_to 0.

Definition align (fuel : nat) (p aligned_to : Z) : option Z :=
  option_map fst (align_steps fuel p aligned_to).

(* ------------------------------------------------------------------------- *)
(** ** binary32 values *)

Definition float : Type := spec_float.

(** [x * y] on [float]. *)
Definition fmul (x y : float) : float := SFmul 24 128 x y.

(** [x != y] on [float]: true as soon as one side is a NaN. *)
Definition fne (x y : float) : bool := negb (SFeqb x y).

(** The literal [0.f]. *)
Definition fzero : float := S754_zero false.

(* ------------------------------------------------------------------------- *)
(** ** Memory *)

Definition mem : Type := Z -> float.

(** Address of [p[i]] for a [float*] [p]. *)
Definition elem (p i : Z) : Z := p + 4 * i.

Definition load (m : mem) (a : Z) : float := m a.

Definition store (m : mem) (a : Z) (x : float) : mem :=
  fun a' => if a' =? a then x else m a'.

(** The indices [0, 1, ..., n - 1]. *)
Fixpoint count_up (k : nat) (i : Z) : list Z :=
  match k with
  | O => []
  | S k' => i :: count_up k' (i + 1)
  end.

Definition indices (n : Z) : list Z := count_up (Z.to_nat n) 0.

(** [std::fill(p, p + n, v)]. *)
Definition fill (n p : Z) (v : float) (m : mem) : mem :=
  fold_left (fun m i => store m (elem p i) v) (indices n) m.

(** Element-by-element forward copy of [n] floats. *)
Definition copy_forward (n d s : Z) (m : mem) : mem :=
  fold_left (fun m i => store m (elem d i) (load m (elem s i))) (indices n) m.

(** [std::memcpy(d, s, bytes)]: undefined when the two regions overlap. *)
Definition memcpy (d s bytes : Z) (m : mem) : option mem :=
  if (d + bytes <=? s) || (s + bytes <=? d) || (bytes =? 0)
  then Some (copy_forward (bytes / 4) d s m)
  else None.

(** [std::copy(first, last, d)]: undefined when [d] lies in [[first, last)]. *)
Definition std_copy (first last d : Z) (m : mem) : option mem :=
  if (first <=? d) && (d <? last)
  then None
  else Some (copy_forward ((last - first) / 4) d first m).

(* ------------------------------------------------------------------------- *)
(** ** Vector registers and intrinsics

    A [__m128] holds 4 lanes and a [__m256] holds 8; the aligned forms fault
    on an address that is not a multiple of the register size in bytes.  A
    non-temporal store differs from an aligned store only in its effect on
    the cache, which the store does not record. *)

Definition vec : Type := list float.

Definition lanes (w : nat) : list Z := map Z.of_nat (seq 0 w).

Definition load_lanes (w : nat) (m : mem) (a : Z) : vec :=
  map (fun j => load m (elem a j)) (lanes w).

Fixpoint store_lanes (m : mem) (a : Z) (v : vec) : mem :=
  match v with
  | [] => m
  | x :: v' => store_lanes (store m a x) (a + 4) v'
  end.

Fixpoint mul_lanes (v1 v2 : vec) : vec :=
  match v1, v2 with
  | x :: v1', y :: v2' => fmul x y :: mul_lanes v1' v2'
  | _, _ => []
  end.

Definition aligned_to (bytes a : Z) : bool := a mod bytes =? 0.

Definition _mm_loadu_ps (m : mem) (a : Z) : option vec := Some (load_lanes 4 m a).

Definition _mm_load_ps (m : mem) (a : Z) : option vec :=
  if aligned_to 16 a then Some (load_lanes 4 m a) else None.

Definition _mm_storeu_ps (m : mem) (a : Z) (v : vec) : option mem :=
  Some (store_lanes m a v).

Definition _mm_store_ps (m : mem) (a : Z) (v : vec) : option mem :=
  if aligned_to 16 a then Some (store_lanes m a v) else None.

Definition _mm_stream_ps (m : mem) (a : Z) (v : vec) : option mem :=
  if aligned_to 16 a then Some (store_lanes m a v) else None.

Definition _mm_mul_ps (v1 v2 : vec) : vec := mul_lanes v1 v2.

Definition _mm256_loadu_ps (m : mem) (a : Z) : option vec := Some (load_lanes 8 m a).

Definition _mm256_load_ps (m : mem) (a : Z) : option vec :=
  if aligned_to 32 a then Some (load_lanes 8 m a) else None.

Definition _mm256_storeu_ps (m : mem) (a : Z) (v : vec) : option mem :=
  Some (store_lanes m a v).

Definition _mm256_store_ps (m : mem) (a : Z) (v : vec) : option mem :=
  if aligned_to 32 a then Some (store_lanes m a v) else None.

Definition _mm256_stream_ps (m : mem) (a : Z) (v : vec) : option mem :=
  if aligned_to 32 a then Some (store_lanes m a v) else None.

Definition _mm256_mul_ps (v1 v2 : vec) : vec := mul_lanes v1 v2.

(** Sequencing of steps that may fault. *)
Definition obind {A B : Type} (c : option A) (k : A -> option B) : option B :=
  match c with
  | Some a => k a
  | None => None
  end.

Notation "'let?' x := c 'in' k" := (obind c (fun x => k))
  (at level 10, x pattern, c at level 100, k at level 200).

(* ------------------------------------------------------------------------- *)
(** ** The counted loop of the operations

<<
    for(int i = 0; i < gNumFloats; i += step) body
>>

    [i] is an [int] and [gNumFloats] a [std::size_t]: the comparison converts
    [i] to [std::size_t]; an increment past [INT_MAX] is undefined. *)

Fixpoint for_int {S : Type} (fuel : nat) (n step i : Z)
    (body : Z -> S -> option S) (st : S) : option S :=
  match fuel with
  | O => None
  | S fuel' =>
      if size_wrap i <? n
      then let? st' := body i st in
           if i + step <=? INT_MAX
           then for_int fuel' n step (i + step) body st'
           else None
      else Some st
  end.

(** Enough fuel for any counted loop with a positive step. *)
Definition loop_fuel (n : Z) : nat := S (Z.to_nat n).

(* ------------------------------------------------------------------------- *)
(** ** Process-wide tunables *)

Record globals : Type := {
  gNumFloats : Z;        (* working-set size of one invocation *)
  gTotalFloats : Z;      (* volume bound of one timed run *)
  gCheckValue : float;   (* value the source is seeded with *)
  gHasAvx : bool;
  gHtmlOut : bool
}.

Definition kDefaultNumFloats : Z := 16 * 1024.
Definition kDefaultTotalFloats : Z := size_wrap (65636 * kDefaultNumFloats).

(** The values the command line may override; [report-html] is advertised
    by [print_usage] but never read, so [gHtmlOut] keeps its initial
    [true]. *)
Record options : Type := {
  opt_num_floats : Z;
  opt_total_floats : Z;
  opt_check_value : float;
  opt_enable_avx : bool
}.

Definition set_globals (o : options) : globals :=
  {| gNumFloats := opt_num_floats o;
     gTotalFloats := opt_total_floats o;
     gCheckValue := opt_check_value o;
     gHasAvx := opt_enable_avx o;
     gHtmlOut := true |}.

(* ------------------------------------------------------------------------- *)
(** ** Observable behaviour

    What the process writes to [std::cout] and [std::cerr], interleaved with
    two internal events: one [Invoke] per call of the operation under test,
    one [Verify] when the verification scan of a run starts.  Elapsed times
    are readings of the wall clock, supplied from outside. *)

Inductive out_item : Type :=
| OutHtmlProlog
| OutHeader (columns : list string)
| OutRow (alignment : Z)          (* "],\n[" << alignment *)
| OutTime (time : Z)              (* "," << time *)
| OutZero                         (* "," << 0 *)
| OutEnd                          (* "]" << std::endl *)
| OutHtmlEpilog.

Inductive err_item : Type :=
| ErrMismatch (name : string) (actual expected : float)
| ErrTook (name : string) (alignment : Z) (time : Z)
| ErrTotalLessThanNum
| ErrUsage
| ErrParse.

Inductive event : Type :=
| Invoke (name : string)
| Verify (name : string)
| Cout (o : out_item)
| Cerr (e : err_item).

Record world : Type := {
  w_mem : mem;
  w_trace : list event
}.

(** Outcome of a computation: normal completion, [std::exit], undefined
    behaviour or a fault, or exhaustion of the fuel. *)
Inductive result (A : Type) : Type :=
| Ok (a : A) (w : world)
| Exit (code : Z) (w : world)
| Undefined
| OutOfFuel.

Arguments Ok {A} a w.
Arguments Exit {A} code w.
Arguments Undefined {A}.
Arguments OutOfFuel {A}.

Definition M (A : Type) : Type := world -> result A.

Definition ret {A : Type} (a : A) : M A := fun w => Ok a w.

Definition bind {A B : Type} (c : M A) (k : A -> M B) : M B :=
  fun w =>
    match c w with
    | Ok a w' => k a w'
    | Exit code w' => Exit code w'
    | Undefined => Undefined
    | OutOfFuel => OutOfFuel
    end.

Notation "x <- c ;; k" := (bind c (fun x => k))
  (at level 61, c at next level, right associativity).
Notation "c ;; k" := (bind c (fun _ => k))
  (at level 61, right associativity).

Definition emit (e : event) : M unit :=
  fun w => Ok tt {| w_mem := w_mem w; w_trace := w_trace w ++ [e] |}.

Definition std_exit {A : Type} (code : Z) : M A := fun w => Exit code w.

Definition get_mem : M mem := fun w => Ok (w_mem w) w.

Definition update_mem (f : mem -> mem) : M unit :=
  fun w => Ok tt {| w_mem := f (w_mem w); w_trace := w_trace w |}.

(** A step that may fault. *)
Definition try_mem (f : mem -> option mem) : M unit :=
  fun w =>
    match f (w_mem w) with
    | Some m' => Ok tt {| w_mem := m'; w_trace := w_trace w |}
    | None => Undefined
    end.

(** [align] inside a run: running out of fuel is not an answer. *)
Definition align_ptr (fuel : nat) (p aligned_to : Z) : M Z :=
  fun w =>
    match align fuel p aligned_to with
    | Some a => Ok a w
    | None => OutOfFuel
    end.

Fixpoint for_each {A : Type} (l : list A) (body : A -> M unit) : M unit :=
  match l with
  | [] => ret tt
  | x :: l' => body x ;; for_each l' body
  end.

(** [print_usage()] writes one block to [std::cerr]. *)
Definition print_usage : M unit := emit (Cerr ErrUsage).

(** The timed loop of [Run]:
<<
    for(std::size_t i = 0; i < gTotalFloats; i += gNumFloats)
        f(...);
>> *)
Fixpoint timed_loop (fuel : nat) (g : globals) (name : string)
    (f : mem -> option mem) (i : Z) : M unit :=
  match fuel with
  | O => fun _ => OutOfFuel
  | S fuel' =>
      if i <? gTotalFloats g
      then emit (Invoke name) ;;
           try_mem f ;;
           timed_loop fuel' g name f (size_wrap (i + gNumFloats g))
      else ret tt
  end.

(** The verification scan of [Run]: index, actual and expected value of the
    first element for which [actual != expected]. *)
Definition verify (n : Z) (actual expected : Z -> float)
  : option (Z * float * float) :=
  option_map (fun i => (i, actual i, expected i))
             (find (fun i => fne (actual i) (expected i)) (indices n)).

(** The alignment offsets of the sweep: 4, 5, ..., 64. *)
Definition sweep_offsets : list Z := map Z.of_nat (seq 4 61).

(* ------------------------------------------------------------------------- *)
(** ** simd-copy.cpp *)

Module SimdCopy.

Definition MemCopy (g : globals) (d s : Z) (m : mem) : option mem :=
  memcpy d s (size_wrap (gNumFloats g * 4)) m.

Definition StdCopy (g : globals) (d s : Z) (m : mem) : option mem :=
  std_copy s (elem s (gNumFloats g)) d m.

(** [*d++ = *s++]: the loop state carries both moving pointers. *)
Definition SimpleCopy (g : globals) (d s : Z) (m : mem) : option mem :=
  let n := gNumFloats g in
  let? st := for_int (loop_fuel n) n 1 0
               (fun _ '(d, s, m) => Some (d + 4, s + 4, store m d (load m s)))
               (d, s, m) in
  Some (snd st).

Definition UnalignedSseCopy (g : globals) (d s : Z) (m : mem) : option mem :=
  let n := gNumFloats g in
  for_int (loop_fuel n) n 4 0
    (fun i m => let? v := _mm_loadu_ps m (elem s i) in
                _mm_storeu_ps m (elem d i) v) m.

Definition AlignedSseCopy (g : globals) (d s : Z) (m : mem) : option mem :=
  let n := gNumFloats g in
  for_int (loop_fuel n) n 4 0
    (fun i m => let? v := _mm_load_ps m (elem s i) in
                _mm_store_ps m (elem d i) v) m.

Definition AlignedSseNonTemporalCopy (g : globals) (d s : Z) (m : mem) : option mem :=
  let n := gNumFloats g in
  for_int (loop_fuel n) n 4 0
    (fun i m => let? v := _mm_load_ps m (elem s i) in
                _mm_stream_ps m (elem d i) v) m.

Definition UnalignedAvxCopy (g : globals) (d s : Z) (m : mem) : option mem :=
  let n := gNumFloats g in
  for_int (loop_fuel n) n 8 0
    (fun i m => let? v := _mm256_loadu_ps m (elem s i) in
                _mm256_storeu_ps m (elem d i) v) m.

Definition AlignedAvxCopy (g : globals) (d s : Z) (m : mem) : option mem :=
  let n := gNumFloats g in
  for_int (loop_fuel n) n 8 0
    (fun i m => let? v := _mm256_load_ps m (elem s i) in
                _mm256_store_ps m (elem d i) v) m.

Definition AlignedAvxNonTemporalCopy (g : globals) (d s : Z) (m : mem) : option mem :=
  let n := gNumFloats g in
  for_int (loop_fuel n) n 8 0
    (fun i m => let? v := _mm256_load_ps m (elem s i) in
                _mm256_stream_ps m (elem d i) v) m.

Definition NullCopy (g : globals) (d s : Z) (m : mem) : option mem := Some m.

(** The shape of an operation: a function of the destination and source
    pointers that reads the globals and returns nothing. *)
Definition operation : Type := globals -> Z -> Z -> mem -> option mem.

(** The functions [Run] is instantiated with. *)
Inductive kernel : Type :=
| fnMemCopy
| fnStdCopy
| fnSimpleCopy
| fnUnalignedSseCopy
| fnAlignedSseCopy
| fnAlignedSseNonTemporalCopy
| fnUnalignedAvxCopy
| fnAlignedAvxCopy
| fnAlignedAvxNonTemporalCopy
| fnNullCopy.

Definition call (f : kernel) : operation :=
  match f with
  | fnMemCopy => MemCopy
  | fnStdCopy => StdCopy
  | fnSimpleCopy => SimpleCopy
  | fnUnalignedSseCopy => UnalignedSseCopy
  | fnAlignedSseCopy => AlignedSseCopy
  | fnAlignedSseNonTemporalCopy => AlignedSseNonTemporalCopy
  | fnUnalignedAvxCopy => UnalignedAvxCopy
  | fnAlignedAvxCopy => AlignedAvxCopy
  | fnAlignedAvxNonTemporalCopy => AlignedAvxNonTemporalCopy
  | fnNullCopy => NullCopy
  end.

(** Elements handled by one step of the kernel's loop. *)
Definition width (f : kernel) : Z :=
  match f with
  | fnUnalignedSseCopy | fnAlignedSseCopy | fnAlignedSseNonTemporalCopy => 4
  | fnUnalignedAvxCopy | fnAlignedAvxCopy | fnAlignedAvxNonTemporalCopy => 8
  | _ => 1
  end.

(** Byte alignment the kernel's loads and stores demand of both pointers. *)
Definition granularity (f : kernel) : Z :=
  match f with
  | fnAlignedSseCopy | fnAlignedSseNonTemporalCopy => 16
  | fnAlignedAvxCopy | fnAlignedAvxNonTemporalCopy => 32
  | _ => 1
  end.

(** [Run<f>(name, alignment, d, s)].  This program has the primary template
    only: it is the body run for every [f], [NullCopy] included.  [time] is
    what [t.Elapsed()] returns for this run. *)
Definition Run (fuel : nat) (g : globals) (time : Z) (f : operation)
    (name : string) (alignment d s : Z) : M unit :=
  d <- align_ptr fuel d alignment ;;
  s <- align_ptr fuel s alignment ;;
  update_mem (fill (gNumFloats g) d fzero) ;;
  timed_loop fuel g name (f g d s) 0 ;;
  emit (Verify name) ;;
  m <- get_mem ;;
  match verify (gNumFloats g) (fun i => load m (elem d i)) (fun i => load m (elem s i)) with
  | Some (_, actual, expected) =>
      emit (Cerr (ErrMismatch name actual expected)) ;;
      std_exit 1
  | None =>
      emit (Cerr (ErrTook name alignment time)) ;;
      emit (Cout (OutTime time))
  end.

Definition columns : list string :=
  ["Alignment"; "std::memcpy"; "std::copy"; "for-loop"; "Unaligned Sse";
   "Unaligned Avx"; "Aligned Sse"; "Aligned Sse Stream"; "Aligned Avx";
   "Aligned Avx Stream"]%string.

(** One iteration of the sweep loop of [main]. *)
Definition sweep_row (fuel : nat) (g : globals) (clock : string -> Z -> Z)
    (source_data dest_data : Z) (alignment : Z) : M unit :=
  let run f name d s := Run fuel g (clock name alignment) f name alignment d s in
  emit (Cout (OutRow alignment)) ;;
  run MemCopy "std::memcpy"%string dest_data source_data ;;
  run StdCopy "std::copy"%string dest_data source_data ;;
  run SimpleCopy "for-loop"%string dest_data source_data ;;
  run UnalignedSseCopy "Unaligned Sse"%string dest_data source_data ;;
  (if gHasAvx g
   then run UnalignedAvxCopy "Unaligned Avx"%string dest_data source_data
   else run NullCopy "Unaligned Avx"%string source_data source_data) ;;
  (if alignment mod 16 =? 0
   then run AlignedSseCopy "Aligned Sse"%string dest_data source_data ;;
        run AlignedSseNonTemporalCopy "Aligned Sse Stream"%string dest_data source_data
   else run NullCopy "Aligned Sse"%string source_data source_data ;;
        run NullCopy "Aligned Sse Stream"%string source_data source_data) ;;
  (if (alignment mod 32 =? 0) && gHasAvx g
   then run AlignedAvxCopy "Aligned Avx"%string dest_data source_data ;;
        run AlignedAvxNonTemporalCopy "Aligned Avx Stream"%string dest_data source_data
   else run NullCopy "Aligned Avx"%string source_data source_data ;;
        run NullCopy "Aligned Avx Stream"%string source_data source_data).

(** [main].  [argv] is the outcome of the four [get_option] calls: [None]
    when a value fails to parse.  [clock name alignment] is the elapsed time
    the timer reports for that run; [source_data] and [dest_data] are the
    addresses of the two vectors' storage, both constructors having returned
    ([process] below has the constructors that throw). *)
Definition main (fuel : nat) (argv : option options) (clock : string -> Z -> Z)
    (source_data dest_data : Z) : M Z :=
  match argv with
  | None => print_usage ;; std_exit 1
  | Some o =>
      let g := set_globals o in
      if gTotalFloats g <? gNumFloats g
      then emit (Cerr ErrTotalLessThanNum) ;;
           print_usage ;;
           ret 0
      else
        (if gHtmlOut g then emit (Cout OutHtmlProlog) else ret tt) ;;
        update_mem (fill (size_wrap (gNumFloats g + 256)) source_data (gCheckValue g)) ;;
        update_mem (fill (size_wrap (gNumFloats g + 256)) dest_data fzero) ;;
        emit (Cout (OutHeader columns)) ;;
        for_each sweep_offsets (sweep_row fuel g clock source_data dest_data) ;;
        emit (Cout OutEnd) ;;
        (if gHtmlOut g then emit (Cout OutHtmlEpilog) else ret tt) ;;
        ret 0
  end.

(** [main] with the constructors of its two vectors:
<<
    std::vector<float> source(gNumFloats + 0x100, gCheckValue);
    std::vector<float> dest(gNumFloats + 0x100, 0.f);
>>
    A constructor that cannot have its storage throws ([std::length_error],
    [std::bad_alloc]).  Nothing catches: the exception leaves [main] and the
    process ends in [std::terminate], with no exit code of its own.  [source]
    and [dest] are what the two constructors obtain, the address of the
    storage or [None] when the constructor throws; the value is what [main]
    returns, [None] standing for the exception that leaves it. *)
Definition process (fuel : nat) (argv : option options) (clock : string -> Z -> Z)
    (source dest : option Z) : M (option Z) :=
  match argv with
  | None => print_usage ;; std_exit 1
  | Some o =>
      let g := set_globals o in
      if gTotalFloats g <? gNumFloats g
      then emit (Cerr ErrTotalLessThanNum) ;;
           print_usage ;;
           ret (Some 0)
      else
        (if gHtmlOut g then emit (Cout OutHtmlProlog) else ret tt) ;;
        match source with
        | None => ret None
        | Some source_data =>
            update_mem (fill (size_wrap (gNumFloats g + 256)) source_data
                             (gCheckValue g)) ;;
            match dest with
            | None => ret None
            | Some dest_data =>
                update_mem (fill (size_wrap (gNumFloats g + 256)) dest_data fzero) ;;
                emit (Cout (OutHeader columns)) ;;
                for_each sweep_offsets (sweep_row fuel g clock source_data dest_data) ;;
                emit (Cout OutEnd) ;;
                (if gHtmlOut g then emit (Cout OutHtmlEpilog) else ret tt) ;;
                ret (Some 0)
            end
        end
  end.

End SimdCopy.

(* ------------------------------------------------------------------------- *)
(** ** simd-mult.cpp *)

Module SimdMult.

(** [*d++ = *a++ * *b++]. *)
Definition NiaveMult (g : globals) (d a b : Z) (m : mem) : option mem :=
  let n := gNumFloats g in
  let? st := for_int (loop_fuel n) n 1 0
               (fun _ '(d, a, b, m) =>
                  Some (d + 4, a + 4, b + 4, store m d (fmul (load m a) (load m b))))
               (d, a, b, m) in
  Some (snd st).

Definition UnalignedSseMult (g : globals) (d a b : Z) (m : mem) : option mem :=
  let n := gNumFloats g in
  for_int (loop_fuel n) n 4 0
    (fun i m => let? v1 := _mm_loadu_ps m (elem a i) in
                let? v2 := _mm_loadu_ps m (elem b i) in
                let r := _mm_mul_ps v1 v2 in
                _mm_storeu_ps m (elem d i) r) m.

Definition AlignedSseMult (g : globals) (d a b : Z) (m : mem) : option mem :=
  let n := gNumFloats g in
  for_int (loop_fuel n) n 4 0
    (fun i m => let? v1 := _mm_load_ps m (elem a i) in
                let? v2 := _mm_load_ps m (elem b i) in
                let r := _mm_mul_ps v1 v2 in
                _mm_store_ps m (elem d i) r) m.

Definition AlignedSseNonTemporalMult (g : globals) (d a b : Z) (m : mem) : option mem :=
  let n := gNumFloats g in
  for_int (loop_fuel n) n 4 0
    (fun i m => let? v1 := _mm_load_ps m (elem a i) in
                let? v2 := _mm_load_ps m (elem b i) in
                let r := _mm_mul_ps v1 v2 in
                _mm_stream_ps m (elem d i) r) m.

Definition UnalignedAvxMult (g : globals) (d a b : Z) (m : mem) : option mem :=
  let n := gNumFloats g in
  for_int (loop_fuel n) n 8 0
    (fun i m => let? v1 := _mm256_loadu_ps m (elem a i) in
                let? v2 := _mm256_loadu_ps m (elem b i) in
                let r := _mm256_mul_ps v1 v2 in
                _mm256_storeu_ps m (elem d i) r) m.

Definition AlignedAvxMult (g : globals) (d a b : Z) (m : mem) : option mem :=
  let n := gNumFloats g in
  for_int (loop_fuel n) n 8 0
    (fun i m => let? v1 := _mm256_load_ps m (elem a i) in
                let? v2 := _mm256_load_ps m (elem b i) in
                let r := _mm256_mul_ps v1 v2 in
                _mm256_store_ps m (elem d i) r) m.

Definition AlignedAvxNonTemporalMult (g : globals) (d a b : Z) (m : mem) : option mem :=
  let n := gNumFloats g in
  for_int (loop_fuel n) n 8 0
    (fun i m => let? v1 := _mm256_load_ps m (elem a i) in
                let? v2 := _mm256_load_ps m (elem b i) in
                let r := _mm256_mul_ps v1 v2 in
                _mm256_stream_ps m (elem d i) r) m.

Definition NullMult (g : globals) (d a b : Z) (m : mem) : option mem := Some m.

Definition operation : Type := globals -> Z -> Z -> Z -> mem -> option mem.

(** The functions [Run] is instantiated with.  A template argument is a
    compile-time name, which is what selects the explicit specialization. *)
Inductive kernel : Type :=
| fnNiaveMult
| fnUnalignedSseMult
| fnAlignedSseMult
| fnAlignedSseNonTemporalMult
| fnUnalignedAvxMult
| fnAlignedAvxMult
| fnAlignedAvxNonTemporalMult
| fnNullMult.

Definition call (f : kernel) : operation :=
  match f with
  | fnNiaveMult => NiaveMult
  | fnUnalignedSseMult => UnalignedSseMult
  | fnAlignedSseMult => AlignedSseMult
  | fnAlignedSseNonTemporalMult => AlignedSseNonTemporalMult
  | fnUnalignedAvxMult => UnalignedAvxMult
  | fnAlignedAvxMult => AlignedAvxMult
  | fnAlignedAvxNonTemporalMult => AlignedAvxNonTemporalMult
  | fnNullMult => NullMult
  end.

(** Elements handled by one step of the kernel's loop. *)
Definition width (f : kernel) : Z :=
  match f with
  | fnUnalignedSseMult | fnAlignedSseMult | fnAlignedSseNonTemporalMult => 4
  | fnUnalignedAvxMult | fnAlignedAvxMult | fnAlignedAvxNonTemporalMult => 8
  | _ => 1
  end.

(** Byte alignment the kernel's loads and stores demand of its pointers. *)
Definition granularity (f : kernel) : Z :=
  match f with
  | fnAlignedSseMult | fnAlignedSseNonTemporalMult => 16
  | fnAlignedAvxMult | fnAlignedAvxNonTemporalMult => 32
  | _ => 1
  end.

(** The primary template of [Run]. *)
Definition Run_template (fuel : nat) (g : globals) (time : Z) (f : operation)
    (name : string) (alignment d a b : Z) : M unit :=
  d <- align_ptr fuel d alignment ;;
  a <- align_ptr fuel a alignment ;;
  b <- align_ptr fuel b alignment ;;
  update_mem (fill (gNumFloats g) d fzero) ;;
  timed_loop fuel g name (f g d a b) 0 ;;
  emit (Verify name) ;;
  m <- get_mem ;;
  match verify (gNumFloats g) (fun i => load m (elem d i))
               (fun i => fmul (load m (elem a i)) (load m (elem b i))) with
  | Some (_, actual, expected) =>
      emit (Cerr (ErrMismatch name actual expected)) ;;
      std_exit 1
  | None =>
      emit (Cerr (ErrTook name alignment time)) ;;
      emit (Cout (OutTime time))
  end.

(** The explicit specialization [Run<NullMult>]. *)
Definition Run_NullMult (name : string) (alignment d a b : Z) : M unit :=
  emit (Cout OutZero).

(** [Run<f>(name, alignment, d, a, b)]. *)
Definition Run (fuel : nat) (g : globals) (time : Z) (f : kernel)
    (name : string) (alignment d a b : Z) : M unit :=
  match f with
  | fnNullMult => Run_NullMult name alignment d a b
  | _ => Run_template fuel g time (call f) name alignment d a b
  end.

Definition columns : list string :=
  ["Alignment"; "for-loop"; "Unaligned Sse"; "Unaligned Avx"; "Aligned Sse";
   "Aligned Sse Stream"; "Aligned Avx"; "Aligned Avx Stream"]%string.

(** One iteration of the sweep loop of [main]; [SUPPORT_AVX] is the value of
    the macro of that name (1 unless the build overrides it). *)
Definition sweep_row (SUPPORT_AVX : bool) (fuel : nat) (g : globals)
    (clock : string -> Z -> Z) (source_data dest_data : Z) (alignment : Z)
  : M unit :=
  let run f name d := Run fuel g (clock name alignment) f name alignment d
                          source_data (elem source_data 256) in
  emit (Cout (OutRow alignment)) ;;
  run fnNiaveMult "for-loop"%string dest_data ;;
  run fnUnalignedSseMult "Unaligned Sse"%string dest_data ;;
  (if SUPPORT_AVX && gHasAvx g
   then run fnUnalignedAvxMult "Unaligned Avx"%string dest_data
   else run fnNullMult "Unaligned Avx"%string source_data) ;;
  (if alignment mod 16 =? 0
   then run fnAlignedSseMult "Aligned Sse"%string dest_data ;;
        run fnAlignedSseNonTemporalMult "Aligned Sse Stream"%string dest_data
   else run fnNullMult "Aligned Sse"%string source_data ;;
        run fnNullMult "Aligned Sse Stream"%string source_data) ;;
  (if SUPPORT_AVX && ((alignment mod 32 =? 0) && gHasAvx g)
   then run fnAlignedAvxMult "Aligned Avx"%string dest_data ;;
        run fnAlignedAvxNonTemporalMult "Aligned Avx Stream"%string dest_data
   else run fnNullMult "Aligned Avx"%string source_data ;;
        run fnNullMult "Aligned Avx Stream"%string source_data).

(** [main].  [argv] is the outcome of [opts.parse]: [None] when it throws;
    [source_data] and [dest_data] are the addresses of the two vectors'
    storage, both constructors having returned. *)
Definition main (SUPPORT_AVX : bool) (fuel : nat) (argv : option options)
    (clock : string -> Z -> Z) (source_data dest_data : Z) : M Z :=
  match argv with
  | None => emit (Cerr ErrParse) ;; print_usage ;; std_exit 1
  | Some o =>
      let g := set_globals o in
      if gTotalFloats g <? gNumFloats g
      then emit (Cerr ErrTotalLessThanNum) ;;
           print_usage ;;
           ret 0
      else
        (if gHtmlOut g then emit (Cout OutHtmlProlog) else ret tt) ;;
        update_mem (fill (size_wrap (gNumFloats g + 4096)) source_data (gCheckValue g)) ;;
        update_mem (fill (size_wrap (gNumFloats g + 256)) dest_data fzero) ;;
        emit (Cout (OutHeader columns)) ;;
        for_each sweep_offsets (sweep_row SUPPORT_AVX fuel g clock source_data dest_data) ;;
        emit (Cout OutEnd) ;;
        (if gHtmlOut g then emit (Cout OutHtmlEpilog) else ret tt) ;;
        ret 0
  end.

(** [main] with the constructors of its two vectors ([gNumFloats + 0x1000]
    floats of source, [gNumFloats + 0x100] of destination), either of which
    may throw; the [try] block of [main] encloses [opts.parse] only, so the
    exception leaves [main].  [source], [dest] and the value are as for the
    copy program. *)
Definition process (SUPPORT_AVX : bool) (fuel : nat) (argv : option options)
    (clock : string -> Z -> Z) (source dest : option Z) : M (option Z) :=
  match argv with
  | None => emit (Cerr ErrParse) ;; print_usage ;; std_exit 1
  | Some o =>
      let g := set_globals o in
      if gTotalFloats g <? gNumFloats g
      then emit (Cerr ErrTotalLessThanNum) ;;
           print_usage ;;
           ret (Some 0)
      else
        (if gHtmlOut g then emit (Cout OutHtmlProlog) else ret tt) ;;
        match source with
        | None => ret None
        | Some source_data =>
            update_mem (fill (size_wrap (gNumFloats g + 4096)) source_data
                             (gCheckValue g)) ;;
            match dest with
            | None => ret None
            | Some dest_data =>
                update_mem (fill (size_wrap (gNumFloats g + 256)) dest_data fzero) ;;
                emit (Cout (OutHeader columns)) ;;
                for_each sweep_offsets
                         (sweep_row SUPPORT_AVX fuel g clock source_data dest_data) ;;
                emit (Cout OutEnd) ;;
                (if gHtmlOut g then emit (Cout OutHtmlEpilog) else ret tt) ;;
                ret (Some 0)
            end
        end
  end.

End SimdMult.

(* ------------------------------------------------------------------------- *)
(** ** The command line of simd-copy.cpp

    [get_option] looks for [name] anywhere in each argument, takes what
    follows the first ['='] of the argument as the value, and hands it to the
    stream extraction [ins >> std::boolalpha >> opt], which is taken as the
    function [extract] ([None] when the stream ends up in a failed state). *)

Module CommandLine.

(** Whether [s] begins with [t]. *)
Fixpoint begins (t s : string) : bool :=
  match t, s with
  | EmptyString, _ => true
  | String a t', String b s' => Ascii.eqb a b && begins t' s'
  | String _ _, EmptyString => false
  end.

(** [std::strstr(s, t)]: the rest of [s] from the first occurrence of [t]. *)
Fixpoint strstr (s t : string) : option string :=
  if begins t s then Some s
  else match s with
       | EmptyString => None
       | String _ s' => strstr s' t
       end.

(** Whether the character [c] is one of [accept]. *)
Fixpoint occurs (c : ascii) (accept : string) : bool :=
  match accept with
  | EmptyString => false
  | String a accept' => Ascii.eqb c a || occurs c accept'
  end.

(** [std::strpbrk(s, accept)]: the rest of [s] from its first character that
    is one of [accept]. *)
Fixpoint strpbrk (s accept : string) : option string :=
  match s with
  | EmptyString => None
  | String c s' => if occurs c accept then Some s else strpbrk s' accept
  end.

(** [val + 1] for a [val] that points at a character. *)
Definition next (val : string) : string :=
  match val with
  | EmptyString => EmptyString
  | String _ rest => rest
  end.

(** [get_option(name, argc, argv, opt)]; the result is the final value of
    [opt]. *)
Fixpoint get_option {T : Type} (extract : string -> option T) (name : string)
    (argv : list string) (opt : T) : M T :=
  match argv with
  | [] => ret opt
  | arg :: argv' =>
      match strstr arg name with
      | Some _ =>
          match strpbrk arg "=" with
          | Some val =>
              match extract (next val) with
              | Some v => get_option extract name argv' v
              | None => print_usage ;; std_exit 1
              end
          | None => get_option extract name argv' opt
          end
      | None => get_option extract name argv' opt
      end
  end.

(** The globals as they are initialised. *)
Definition defaults : options :=
  {| opt_num_floats := kDefaultNumFloats;
     opt_total_floats := kDefaultTotalFloats;
     opt_check_value := S754_finite false 8388608 (-23);
     opt_enable_avx := true |}.

(** [main(argc, argv)]: the four [get_option] calls, then the rest of
    [main]. *)
Definition program (fuel : nat)
    (read_size : string -> option Z) (read_float : string -> option float)
    (read_bool : string -> option bool)
    (argv : list string) (clock : string -> Z -> Z) (source_data dest_data : Z)
  : M Z :=
  num <- get_option read_size "num-floats" argv (opt_num_floats defaults) ;;
  total <- get_option read_size "total-floats" argv (opt_total_floats defaults) ;;
  check <- get_option read_float "check-value" argv (opt_check_value defaults) ;;
  avx <- get_option read_bool "enable-avx" argv (opt_enable_avx defaults) ;;
  SimdCopy.main fuel
    (Some {| opt_num_floats := num; opt_total_floats := total;
             opt_check_value := check; opt_enable_avx := avx |})
    clock source_data dest_data.

End CommandLine.

(* ------------------------------------------------------------------------- *)
(** ** Reading outcomes *)

Definition exit_code (r : result Z) : option Z :=
  match r with
  | Ok code _ => Some code
  | Exit code _ => Some code
  | _ => None
  end.

Definition final_world {A : Type} (r : result A) : option world :=
  match r with
  | Ok _ w => Some w
  | Exit _ w => Some w
  | _ => None
  end.

Definition is_invoke (e : event) : bool :=
  match e with Invoke _ => true | _ => false end.

Definition stdout (t : list event) : list out_item :=
  flat_map (fun e => match e with Cout o => [o] | _ => [] end) t.

Definition stderr (t : list event) : list err_item :=
  flat_map (fun e => match e with Cerr o => [o] | _ => [] end) t.

Definition invocations (t : list event) : nat := List.length (filter is_invoke t).

(** An empty log over a given memory. *)
Definition boot (m : mem) : world := {| w_mem := m; w_trace := [] |}.

(** [f] applied [k] times in sequence. *)
Fixpoint repeat_call (k : nat) (f : mem -> option mem) (m : mem) : option mem :=
  match k with
  | O => Some m
  | S k' => let? m' := f m in repeat_call k' f m'
  end.

(* ------------------------------------------------------------------------- *)
(** ** Vocabulary of the statements *)

(** Distance from [address] up to the next address congruent to [k]. *)
Definition gap (address k : Z) : Z := (k - address) mod 256.

(** Number of passes a run makes over the working set: the quotient
    [gTotalFloats / gNumFloats] rounded up. *)
Definition passes (g : globals) : Z :=
  (gTotalFloats g + gNumFloats g - 1) / gNumFloats g.

(** A pointer with 255 bytes of slack after it inside the address space. *)
Definition addressable (p : Z) : Prop := 0 <= p /\ p + 255 < size_modulus.

(** Where [align] puts a pointer. *)
Definition aligned_at (p k : Z) : Z := p + gap p k.

(** Tunables for which the timed loop counts without wrapping, together
    with fuel that covers [align] and every pass. *)
Definition countable (g : globals) (fuel : nat) : Prop :=
  0 < gNumFloats g /\ 0 <= gTotalFloats g /\
  passes g * gNumFloats g < size_modulus /\
  (256 <= fuel)%nat /\ (Z.to_nat (passes g) < fuel)%nat.

(** [i] is the first index below [n] at which [actual != expected]. *)
Definition first_mismatch (n : Z) (actual expected : Z -> float) (i : Z) : Prop :=
  0 <= i < n /\
  fne (actual i) (expected i) = true /\
  (forall j, 0 <= j < i -> fne (actual j) (expected j) = false).

(** Concrete values for worked runs: [1.f], [2.f], [3.f], a memory of
    zeros, and tunables spelled out. *)
Definition f32_one : float := S754_finite false 8388608 (-23).
Definition f32_two : float := S754_finite false 8388608 (-22).
Definition f32_three : float := S754_finite false 12582912 (-22).

Definition zeroed : mem := fun _ => fzero.

Definition command_line (num total : Z) (check : float) (avx : bool) : options :=
  {| opt_num_floats := num; opt_total_floats := total;
     opt_check_value := check; opt_enable_avx := avx |}.

Definition tunables (num total : Z) (check : float) (avx : bool) : globals :=
  set_globals (command_line num total check avx).

(** A deliberately corrupted operation: it writes the constant [bad] into
    element [j] of the destination and nothing else. *)
Definition spoil (j : Z) (bad : float) : SimdCopy.operation :=
  fun _ d _ m => Some (store m (elem d j) bad).

(** Index at which the scan of the copy program stops on a memory. *)
Definition scan_stop (n d s : Z) (m : mem) : option Z :=
  option_map (fun r => fst (fst r))
             (verify n (fun i => load m (elem d i)) (fun i => load m (elem s i))).

(** [m'] is [m] with the elements [lo .. hi - 1] of [d] overwritten by
    [val], and nothing else touched. *)
Definition writes (d lo hi : Z) (val : Z -> float) (m m' : mem) : Prop :=
  (forall i, lo <= i < hi -> m' (elem d i) = val i) /\
  (forall x, (forall i, lo <= i < hi -> x <> elem d i) -> m' x = m x).

(** The [n] floats at [d] and the [n] floats at [s] share no byte. *)
Definition apart (n d s : Z) : Prop := d + 4 * n <= s \/ s + 4 * n <= d.

(** The float at address [x] shares no byte with the [n] floats at [d]. *)
Definition clear_of (d n : Z) (x : Z) : Prop := x + 4 <= d \/ d + 4 * n <= x.

(** The events of one named run: its calls, its scan, its lines on
    [std::cerr]. *)
Definition about (name : string) (e : event) : bool :=
  match e with
  | Invoke n | Verify n => String.eqb n name
  | Cerr (ErrMismatch n _ _) | Cerr (ErrTook n _ _) => String.eqb n name
  | _ => false
  end.

(** A clock that reports 77 for the run called [name] and 1 for the others. *)
Definition marking_clock (name : string) : string -> Z -> Z :=
  fun n _ => if String.eqb n name then 77 else 1.

(** The values of the elements of [p] at the listed indices. *)
Definition peek (m : mem) (p : Z) (l : list Z) : list float :=
  map (fun i => load m (elem p i)) l.

(** The world in which the sweep of [main] starts: both vectors allocated
    and filled ([slack] is the number of floats the source has beyond the
    working set), prologue and header written. *)
Definition startup (slack : Z) (header : list string) (o : options)
    (source_data dest_data : Z) (w : world) : world :=
  {| w_mem := fill (size_wrap (opt_num_floats o + 256)) dest_data fzero
                (fill (size_wrap (opt_num_floats o + slack)) source_data
                      (opt_check_value o) (w_mem w));
     w_trace := (w_trace w ++ [Cout OutHtmlProlog]) ++ [Cout (OutHeader header)] |}.

(** What [main] makes of the outcome of its sweep. *)
Definition finish (r : result unit) : result Z :=
  match r with
  | Ok _ w => Ok 0 {| w_mem := w_mem w;
                      w_trace := (w_trace w ++ [Cout OutEnd]) ++ [Cout OutHtmlEpilog] |}
  | Exit code w => Exit code w
  | Undefined => Undefined
  | OutOfFuel => OutOfFuel
  end.

(** The first multiple of [w] that is not below [n]. *)
Definition rounded_up (w n : Z) : Z := w * ((n + w - 1) / w).

(** [c] either completes having added exactly [out] to [std::cout], or
    ends the process with code 1 right after a mismatch line. *)
Definition prints (c : M unit) (out : list out_item) : Prop :=
  forall w,
    match c w with
    | Ok _ w' => stdout (w_trace w') = stdout (w_trace w) ++ out
    | Exit code w' =>
        code = 1 /\
        exists pre name x y, w_trace w' = pre ++ [Cerr (ErrMismatch name x y)]
    | _ => True
    end.

(** The cells of row [k] of the copy program: one elapsed time per column,
    in the order of the header. *)
Definition copy_row_cells (clock : string -> Z -> Z) (k : Z) : list out_item :=
  OutRow k :: map (fun name => OutTime (clock name k)) (tl SimdCopy.columns).

(** The cells of row [k] of the multiply program: an elapsed time where the
    kernel of the column applies at offset [k], the literal 0 elsewhere. *)
Definition mult_row_cells (SUPPORT_AVX : bool) (g : globals)
    (clock : string -> Z -> Z) (k : Z) : list out_item :=
  let timed (applies : bool) (name : string) :=
    if applies then OutTime (clock name k) else OutZero in
  [OutRow k;
   timed true "for-loop"%string;
   timed true "Unaligned Sse"%string;
   timed (SUPPORT_AVX && gHasAvx g) "Unaligned Avx"%string;
   timed (k mod 16 =? 0) "Aligned Sse"%string;
   timed (k mod 16 =? 0) "Aligned Sse Stream"%string;
   timed (SUPPORT_AVX && ((k mod 32 =? 0) && gHasAvx g)) "Aligned Avx"%string;
   timed (SUPPORT_AVX && ((k mod 32 =? 0) && gHasAvx g)) "Aligned Avx Stream"%string].

(** The last event of a log is [e]. *)
Definition ends_with (t : list event) (e : event) : Prop :=
  exists pre, t = pre ++ [e].

(** [c], when it returns or ends the process, has changed no cell that
    satisfies [R]. *)
Definition keeps {A : Type} (R : Z -> Prop) (c : M A) : Prop :=
  forall w,
    match c w with
    | Ok _ w' => forall x, R x -> w_mem w' x = w_mem w x
    | Exit _ w' => forall x, R x -> w_mem w' x = w_mem w x
    | _ => True
    end.

(** The address [x] is not that of one of the [count] floats of the vector
    stored at [p]. *)
Definition outside (p count : Z) (x : Z) : Prop := x < p \/ p + 4 * count <= x.

(** Vectors as [main] allocates them ([gNumFloats + 256] floats of
    destination, [gNumFloats + slack] floats of source), lying apart inside
    the address space, for a working set that every kernel covers exactly;
    [second] is the index at which the second source pointer starts. *)
Definition layout (slack second : Z) (g : globals) (source_data dest_data : Z) : Prop :=
  0 <= gNumFloats g <= INT_MAX /\ gNumFloats g mod 8 = 0 /\
  addressable dest_data /\ addressable source_data /\
  addressable (elem source_data second) /\
  (dest_data + 4 * (gNumFloats g + 256) <= source_data \/
   source_data + 4 * (gNumFloats g + slack) <= dest_data).

(** [t] occurs somewhere in [s]. *)
Definition substring_of (t s : string) : Prop :=
  exists pre post, s = (pre ++ t ++ post)%string.

(** The value [get_option] ends with when it does not exit: [None] stands
    for the exit. *)
Fixpoint read_option {T : Type} (extract : string -> option T) (name : string)
    (argv : list string) (opt : T) : option T :=
  match argv with
  | [] => Some opt
  | arg :: argv' =>
      match CommandLine.strstr arg name, CommandLine.strpbrk arg "=" with
      | Some _, Some val =>
          match extract (CommandLine.next val) with
          | Some v => read_option extract name argv' v
          | None => None
          end
      | _, _ => read_option extract name argv' opt
      end
  end.

(** The options a command line stands for, when all of them can be read. *)
Definition parse_argv (read_size : string -> option Z)
    (read_float : string -> option float) (read_bool : string -> option bool)
    (argv : list string) : option options :=
  match read_option read_size "num-floats" argv (opt_num_floats CommandLine.defaults),
        read_option read_size "total-floats" argv (opt_total_floats CommandLine.defaults),
        read_option read_float "check-value" argv (opt_check_value CommandLine.defaults),
        read_option read_bool "enable-avx" argv (opt_enable_avx CommandLine.defaults)
  with
  | Some num, Some total, Some check, Some avx =>
      Some {| opt_num_floats := num; opt_total_floats := total;
              opt_check_value := check; opt_enable_avx := avx |}
  | _, _, _, _ => None
  end.

(* ------------------------------------------------------------------------- *)
(** ** Facts about [align] *)

Lemma size_modulus_256 : size_modulus = 256 * 2 ^ 56.
Proof. reflexivity. Qed.

Lemma size_wrap_mod_256 x : size_wrap x mod 256 = x mod 256.
Proof.
  unfold size_wrap. rewrite size_modulus_256.
  rewrite Z.rem_mul_r by lia.
  rewrite (Z.mul_comm 256), Z.mod_add by lia.
  apply Z.mod_mod; lia.
Qed.

Lemma gap_range address k : 0 <= gap address k < 256.
Proof. unfold gap. apply Z.mod_pos_bound. lia. Qed.

Lemma gap_zero address k :
  0 <= k < 256 -> (address mod 256 = k <-> gap address k = 0).
Proof.
  intros Hk. unfold gap. split; intros H.
  - subst k. rewrite Zminus_mod_idemp_l, Z.sub_diag. reflexivity.
  - apply Z.mod_divide in H; [|lia]. destruct H as [q Hq].
    assert (address = k + (- q) * 256) as -> by lia.
    rewrite Z.mod_add by lia. apply Z.mod_small. lia.
Qed.

Lemma gap_step address k :
  gap address k <> 0 ->
  gap (size_wrap (address + 1)) k = gap address k - 1.
Proof.
  intros H. unfold gap in *.
  rewrite <- Zminus_mod_idemp_r, size_wrap_mod_256, Zminus_mod_idemp_r.
  pose proof (Z.mod_pos_bound (k - address) 256 ltac:(lia)) as Hb.
  assert (k - (address + 1) = (k - address) mod 256 - 1 + 256 * ((k - address) / 256)) as ->.
  { pose proof (Z.div_mod (k - address) 256 ltac:(lia)). lia. }
  rewrite Z.mul_comm, Z.mod_add by lia. apply Z.mod_small. lia.
Qed.

Lemma size_wrap_add_gap address g :
  0 < g ->
  size_wrap (size_wrap (address + 1) + (g - 1)) = size_wrap (address + g).
Proof.
  intros _. unfold size_wrap. rewrite Zplus_mod_idemp_l. f_equal. lia.
Qed.

(** The loop reaches the next matching address, wrapping around the end of
    the address space when it has to. *)
Lemma align_loop_spec fuel : forall address k steps,
  0 <= address < size_modulus ->
  0 <= k < 256 ->
  (Z.to_nat (gap address k) < fuel)%nat ->
  align_loop fuel address k steps
  = Some (size_wrap (address + gap address k), steps + gap address k).
Proof.
  induction fuel as [|fuel IH]; intros address k steps Ha Hk Hf; [lia|].
  cbn [align_loop].
  pose proof (gap_range address k) as Hg.
  destruct (address mod 256 =? k) eqn:E; cbn [negb].
  - apply Z.eqb_eq in E. apply gap_zero in E; [|lia]. rewrite E, !Z.add_0_r.
    unfold size_wrap. rewrite Z.mod_small by lia. reflexivity.
  - apply Z.eqb_neq in E.
    assert (gap address k <> 0) as Hnz by (rewrite <- gap_zero by lia; exact E).
    rewrite IH.
    + rewrite gap_step by exact Hnz.
      rewrite size_wrap_add_gap by lia. f_equal. f_equal. lia.
    + unfold size_wrap. apply Z.mod_pos_bound. reflexivity.
    + lia.
    + rewrite gap_step by exact Hnz. lia.
Qed.

(** An offset of 256 or more is never matched: no amount of fuel suffices. *)
Lemma align_loop_diverges fuel : forall address k steps,
  256 <= k -> align_loop fuel address k steps = None.
Proof.
  induction fuel as [|fuel IH]; intros address k steps Hk; [reflexivity|].
  cbn [align_loop].
  pose proof (Z.mod_pos_bound address 256 ltac:(lia)).
  destruct (address mod 256 =? k) eqn:E.
  - apply Z.eqb_eq in E. lia.
  - cbn [negb]. apply IH. exact Hk.
Qed.

(** Without slack the search runs off the end of the address space: from
    the last address it wraps around to 0. *)
Lemma align_wraps_without_slack : align 256 (size_modulus - 1) 0 = Some 0.
Proof. vm_compute. reflexivity. Qed.

(** C2. For a pointer [p] into a buffer with the slack the contract asks
    for (the 255 bytes after [p] are addresses) and a target offset
    [0 <= k <= 255], [align] returns the lowest address [a >= p] with
    [a mod 256 = k]; it never walks backward and advances by fewer than 256
    bytes. *)
Theorem align_lowest_address (fuel : nat) (p k : Z) :
  0 <= p -> p + 255 < size_modulus -> 0 <= k <= 255 -> (256 <= fuel)%nat ->
  exists a,
    align fuel p k = Some a /\
    p <= a /\ a mod 256 = k /\ a - p < 256 /\
    (forall b, p <= b -> b mod 256 = k -> a <= b).
Proof.
  intros Hp Hslack Hk Hfuel.
  pose proof (gap_range p k) as Hg.
  exists (p + gap p k).
  unfold align, align_steps.
  rewrite align_loop_spec by lia. cbn [option_map fst].
  unfold size_wrap. rewrite Z.mod_small by lia.
  repeat split; try lia.
  - unfold gap. rewrite Zplus_mod_idemp_r.
    replace (p + (k - p)) with k by lia. apply Z.mod_small. lia.
  - intros b Hb Hbk.
    assert ((b - p) mod 256 = gap p k) as Hbg.
    { unfold gap. rewrite <- Hbk, Zminus_mod_idemp_l. reflexivity. }
    pose proof (Z.mod_le (b - p) 256 ltac:(lia) ltac:(lia)). lia.
Qed.

Lemma align_lowest_address_witness :
  exists a,
    align 256 4096 16 = Some a /\
    4096 <= a /\ a mod 256 = 16 /\ a - 4096 < 256 /\
    (forall b, 4096 <= b -> b mod 256 = 16 -> a <= b).
Proof.
  apply (align_lowest_address 256 4096 16); [lia | reflexivity | lia | lia].
Defined.

(** C10. [align] is total when the target offset is below 256: from every
    pointer the loop stops after at most 255 increments (fuel for 256 tests
    of the condition is always enough); for an offset of 256 or more the
    condition never becomes false, whatever the fuel. *)
Theorem align_terminates_iff_offset_below_256 (p k : Z) :
  0 <= p < size_modulus -> 0 <= k < size_modulus ->
  (k <= 255 ->
     exists a steps, align_steps 256 p k = Some (a, steps) /\ 0 <= steps <= 255) /\
  (256 <= k -> forall fuel, align_steps fuel p k = None).
Proof.
  intros Hp Hk. split.
  - intros Hk'. pose proof (gap_range p k) as Hg.
    exists (size_wrap (p + gap p k)), (gap p k).
    unfold align_steps. rewrite align_loop_spec by lia.
    split; [reflexivity | lia].
  - intros Hk' fuel. apply align_loop_diverges. exact Hk'.
Qed.

Lemma align_terminates_iff_offset_below_256_witness :
  (64 <= 255 ->
     exists a steps, align_steps 256 4101 64 = Some (a, steps) /\ 0 <= steps <= 255) /\
  (256 <= 64 -> forall fuel, align_steps fuel 4101 64 = None).
Proof.
  apply (align_terminates_iff_offset_below_256 4101 64); split; try lia; reflexivity.
Defined.

(* ------------------------------------------------------------------------- *)
(** ** Index lists *)

Lemma count_up_seq k : forall i,
  0 <= i -> count_up k i = map Z.of_nat (seq (Z.to_nat i) k).
Proof.
  induction k as [|k IH]; intros i Hi; cbn [count_up seq map]; [reflexivity|].
  rewrite IH by lia. f_equal; [lia|].
  replace (Z.to_nat (i + 1)) with (S (Z.to_nat i)) by lia. reflexivity.
Qed.

Lemma indices_seq n : indices n = map Z.of_nat (seq 0 (Z.to_nat n)).
Proof. unfold indices. apply (count_up_seq _ 0). lia. Qed.

(* ------------------------------------------------------------------------- *)
(** ** The timed loop *)

Lemma passes_bounds g :
  0 < gNumFloats g -> 0 <= gTotalFloats g ->
  0 <= passes g /\
  (passes g - 1) * gNumFloats g < gTotalFloats g <= passes g * gNumFloats g.
Proof.
  intros Hn Ht. unfold passes.
  pose proof (Z.div_mod (gTotalFloats g + gNumFloats g - 1) (gNumFloats g) ltac:(lia)) as E.
  pose proof (Z.mod_pos_bound (gTotalFloats g + gNumFloats g - 1) (gNumFloats g) Hn) as B.
  assert (0 <= (gTotalFloats g + gNumFloats g - 1) / gNumFloats g)
    by (apply Z.div_pos; lia).
  nia.
Qed.

Lemma passes_exact g :
  0 < gNumFloats g -> 0 <= gTotalFloats g ->
  gTotalFloats g mod gNumFloats g = 0 ->
  passes g = gTotalFloats g / gNumFloats g.
Proof.
  intros Hn Ht Hm. unfold passes.
  pose proof (Z.div_mod (gTotalFloats g) (gNumFloats g) ltac:(lia)) as E.
  rewrite Hm, Z.add_0_r in E.
  replace (gTotalFloats g + gNumFloats g - 1)
    with (gNumFloats g - 1 + (gTotalFloats g / gNumFloats g) * gNumFloats g) by lia.
  rewrite Z.div_add by lia. rewrite Z.div_small by lia. lia.
Qed.

Lemma world_eta w : {| w_mem := w_mem w; w_trace := w_trace w |} = w.
Proof. destruct w; reflexivity. Qed.

(** As long as the counter does not wrap, the loop calls [f] once per pass,
    each call on the memory the previous one left. *)
Lemma timed_loop_spec g name f :
  0 < gNumFloats g -> 0 <= gTotalFloats g ->
  passes g * gNumFloats g < size_modulus ->
  forall (r : nat) (j : Z) (fuel : nat) (w : world) (m' : mem),
    0 <= j -> j + Z.of_nat r = passes g -> (r < fuel)%nat ->
    repeat_call r f (w_mem w) = Some m' ->
    timed_loop fuel g name f (j * gNumFloats g) w
    = Ok tt {| w_mem := m'; w_trace := w_trace w ++ repeat (Invoke name) r |}.
Proof.
  intros Hn Ht Hwrap.
  destruct (passes_bounds g Hn Ht) as [HK [Hlo Hhi]].
  induction r as [|r IH]; intros j fuel w m' Hj Hsum Hfuel Hcalls.
  - destruct fuel as [|fuel]; [lia|]. cbn [timed_loop].
    assert (j = passes g) by lia. subst j.
    destruct (passes g * gNumFloats g <? gTotalFloats g) eqn:E;
      [apply Z.ltb_lt in E; lia|].
    cbn in Hcalls. injection Hcalls as <-.
    cbn [repeat]. rewrite app_nil_r, world_eta. reflexivity.
  - destruct fuel as [|fuel]; [lia|]. cbn [timed_loop].
    assert (j * gNumFloats g < gTotalFloats g) as Hlt by nia.
    apply Z.ltb_lt in Hlt. rewrite Hlt.
    cbn [repeat_call] in Hcalls.
    unfold bind at 1, emit at 1. unfold bind at 1, try_mem at 1. cbn [w_mem w_trace].
    destruct (f (w_mem w)) as [m1|] eqn:Hf; [|discriminate]. cbn [obind] in Hcalls.
    assert (size_wrap (j * gNumFloats g + gNumFloats g) = (j + 1) * gNumFloats g) as ->.
    { unfold size_wrap. rewrite Z.mod_small by nia. lia. }
    rewrite (IH (j + 1) fuel _ m'); cbn [w_mem w_trace]; try lia; [|exact Hcalls].
    rewrite <- app_assoc. reflexivity.
Qed.

(** Without wrap-around of the counter, and with [f] succeeding on every
    pass, the loop started at 0 performs exactly [passes g] calls. *)
Lemma timed_loop_from_zero g name f fuel w m' :
  0 < gNumFloats g -> 0 <= gTotalFloats g ->
  passes g * gNumFloats g < size_modulus ->
  (Z.to_nat (passes g) < fuel)%nat ->
  repeat_call (Z.to_nat (passes g)) f (w_mem w) = Some m' ->
  timed_loop fuel g name f 0 w
  = Ok tt {| w_mem := m';
             w_trace := w_trace w ++ repeat (Invoke name) (Z.to_nat (passes g)) |}.
Proof.
  intros Hn Ht Hwrap Hfuel Hcalls.
  destruct (passes_bounds g Hn Ht) as [HK _].
  change 0 with (0 * gNumFloats g).
  apply timed_loop_spec; try assumption; lia.
Qed.

(* ------------------------------------------------------------------------- *)
(** ** The verification scan *)

Lemma find_indices_first (P : Z -> bool) (k : nat) (i : Z) :
  0 <= i < Z.of_nat k -> P i = true -> (forall j, 0 <= j < i -> P j = false) ->
  find P (map Z.of_nat (seq 0 k)) = Some i.
Proof.
  induction k as [|k IH]; intros Hi HP Hbefore; [lia|].
  rewrite seq_S, map_app. cbn [seq map Nat.add].
  destruct (Z.eq_dec i (Z.of_nat k)) as [->|Hne].
  - clear IH. assert (forall l, (forall x, In x l -> 0 <= x < Z.of_nat k) ->
                           find P (l ++ [Z.of_nat k]) = Some (Z.of_nat k)) as Hl.
    { induction l as [|x l IHl]; intros Hin; cbn.
      - rewrite HP. reflexivity.
      - rewrite Hbefore by (apply Hin; left; reflexivity).
        apply IHl. intros y Hy. apply Hin. right. exact Hy. }
    apply Hl. intros x Hx. apply in_map_iff in Hx as [y [<- Hy]].
    apply in_seq in Hy. lia.
  - assert (find P (map Z.of_nat (seq 0 k)) = Some i) as Hf by (apply IH; [lia|assumption..]).
    revert Hf. generalize (map Z.of_nat (seq 0 k)). intros l.
    induction l as [|x l IHl]; cbn; [discriminate|].
    destruct (P x); [trivial|]. exact IHl.
Qed.

Lemma find_indices_none (P : Z -> bool) (k : nat) :
  (forall j, 0 <= j < Z.of_nat k -> P j = false) ->
  find P (map Z.of_nat (seq 0 k)) = None.
Proof.
  intros H. destruct (find P (map Z.of_nat (seq 0 k))) as [i|] eqn:E; [|reflexivity].
  apply find_some in E as [Hin HP].
  apply in_map_iff in Hin as [y [<- Hy]]. apply in_seq in Hy.
  rewrite H in HP by lia. discriminate.
Qed.

(** The scan answers with the first mismatch and the two values found there. *)
Lemma verify_first_mismatch n actual expected i :
  first_mismatch n actual expected i ->
  verify n actual expected = Some (i, actual i, expected i).
Proof.
  intros [Hi [Hne Hbefore]]. unfold verify. rewrite indices_seq.
  rewrite (find_indices_first _ _ i); [reflexivity| lia | exact Hne | exact Hbefore].
Qed.

Lemma verify_pass n actual expected :
  (forall j, 0 <= j < n -> fne (actual j) (expected j) = false) ->
  verify n actual expected = None.
Proof.
  intros H. unfold verify. rewrite indices_seq.
  rewrite find_indices_none; [reflexivity|]. intros j Hj. apply H. lia.
Qed.

Lemma find_app_split {A : Type} (P : A -> bool) (l1 l2 : list A) :
  find P (l1 ++ l2) = match find P l1 with Some x => Some x | None => find P l2 end.
Proof.
  induction l1 as [|x l1 IH]; cbn; [reflexivity|].
  destruct (P x); [reflexivity | exact IH].
Qed.

Lemma find_indices_inv (P : Z -> bool) (k : nat) (i : Z) :
  find P (map Z.of_nat (seq 0 k)) = Some i ->
  0 <= i < Z.of_nat k /\ P i = true /\ (forall j, 0 <= j < i -> P j = false).
Proof.
  induction k as [|k IH]; [discriminate|].
  rewrite seq_S, map_app, find_app_split. cbn [seq map Nat.add].
  destruct (find P (map Z.of_nat (seq 0 k))) as [x|] eqn:E.
  - intros H. injection H as ->. destruct (IH eq_refl) as [Hr [HP Hb]].
    split; [lia|]. split; assumption.
  - cbn [find]. destruct (P (Z.of_nat k)) eqn:Pk; [|discriminate].
    intros H. injection H as <-. split; [lia|]. split; [exact Pk|].
    intros j Hj. destruct (P j) eqn:Pj; [|reflexivity].
    rewrite (find_none _ _ E j) in Pj; [discriminate|].
    apply in_map_iff. exists (Z.to_nat j). split; [lia|]. apply in_seq. lia.
Qed.

(** Conversely, an answer of the scan names a first mismatch. *)
Lemma verify_some_inv n actual expected i x y :
  verify n actual expected = Some (i, x, y) ->
  first_mismatch n actual expected i /\ x = actual i /\ y = expected i.
Proof.
  unfold verify. rewrite indices_seq. intros H.
  destruct (find _ _) as [i'|] eqn:E; [|discriminate].
  cbn in H. injection H as -> <- <-.
  split; [|split; reflexivity].
  apply find_indices_inv in E as [Hr [HP Hb]].
  split; [lia|]. split; assumption.
Qed.

(* ------------------------------------------------------------------------- *)
(** ** The timed-run executor *)

Lemma align_value fuel p k :
  addressable p -> 0 <= k <= 255 -> (256 <= fuel)%nat ->
  align fuel p k = Some (aligned_at p k).
Proof.
  intros [Hp Hs] Hk Hf. pose proof (gap_range p k) as Hg.
  unfold align, align_steps. rewrite align_loop_spec by lia.
  cbn [option_map fst]. unfold size_wrap, aligned_at.
  rewrite Z.mod_small by lia. reflexivity.
Qed.

Lemma align_ptr_value fuel p k w :
  addressable p -> 0 <= k <= 255 -> (256 <= fuel)%nat ->
  align_ptr fuel p k w = Ok (aligned_at p k) w.
Proof.
  intros Hp Hk Hf. unfold align_ptr. rewrite align_value by assumption. reflexivity.
Qed.

(** What a run of the copy program does, given the memory [m2] that the
    passes of [f] leave behind. *)
Lemma SimdCopy_Run_outcome fuel g time (f : SimdCopy.operation) name k d s w m2 :
  countable g fuel -> 0 <= k <= 255 -> addressable d -> addressable s ->
  repeat_call (Z.to_nat (passes g)) (f g (aligned_at d k) (aligned_at s k))
              (fill (gNumFloats g) (aligned_at d k) fzero (w_mem w)) = Some m2 ->
  SimdCopy.Run fuel g time f name k d s w =
  match verify (gNumFloats g) (fun i => m2 (elem (aligned_at d k) i))
               (fun i => m2 (elem (aligned_at s k) i)) with
  | Some (_, actual, expected) =>
      Exit 1 {| w_mem := m2;
                w_trace := (w_trace w ++ repeat (Invoke name) (Z.to_nat (passes g)))
                           ++ [Verify name; Cerr (ErrMismatch name actual expected)] |}
  | None =>
      Ok tt {| w_mem := m2;
               w_trace := (w_trace w ++ repeat (Invoke name) (Z.to_nat (passes g)))
                          ++ [Verify name; Cerr (ErrTook name k time);
                              Cout (OutTime time)] |}
  end.
Proof.
  intros (Hn & Ht & Hwrap & Hf256 & HfK) Hk Hd Hs Hcalls.
  unfold SimdCopy.Run.
  unfold bind at 1. rewrite align_ptr_value by assumption.
  unfold bind at 1. rewrite align_ptr_value by assumption.
  unfold bind at 1. unfold update_mem at 1.
  unfold bind at 1.
  rewrite (timed_loop_from_zero g name _ fuel _ m2); try assumption.
  cbn [w_mem w_trace].
  unfold bind at 1, emit at 1. cbn [w_mem w_trace].
  unfold bind at 1, get_mem at 1. cbn [w_mem w_trace]. unfold load.
  destruct (verify _ _ _) as [[[i x] y]|].
  - unfold bind, emit, std_exit. cbn [w_mem w_trace].
    rewrite <- !app_assoc. reflexivity.
  - unfold bind, emit. cbn [w_mem w_trace].
    rewrite <- !app_assoc. reflexivity.
Qed.

(** The same for the primary template of the multiply program. *)
Lemma SimdMult_Run_outcome fuel g time (f : SimdMult.operation) name k d a b w m2 :
  countable g fuel -> 0 <= k <= 255 ->
  addressable d -> addressable a -> addressable b ->
  repeat_call (Z.to_nat (passes g))
              (f g (aligned_at d k) (aligned_at a k) (aligned_at b k))
              (fill (gNumFloats g) (aligned_at d k) fzero (w_mem w)) = Some m2 ->
  SimdMult.Run_template fuel g time f name k d a b w =
  match verify (gNumFloats g) (fun i => m2 (elem (aligned_at d k) i))
               (fun i => fmul (m2 (elem (aligned_at a k) i))
                              (m2 (elem (aligned_at b k) i))) with
  | Some (_, actual, expected) =>
      Exit 1 {| w_mem := m2;
                w_trace := (w_trace w ++ repeat (Invoke name) (Z.to_nat (passes g)))
                           ++ [Verify name; Cerr (ErrMismatch name actual expected)] |}
  | None =>
      Ok tt {| w_mem := m2;
               w_trace := (w_trace w ++ repeat (Invoke name) (Z.to_nat (passes g)))
                          ++ [Verify name; Cerr (ErrTook name k time);
                              Cout (OutTime time)] |}
  end.
Proof.
  intros (Hn & Ht & Hwrap & Hf256 & HfK) Hk Hd Ha Hb Hcalls.
  unfold SimdMult.Run_template.
  unfold bind at 1. rewrite align_ptr_value by assumption.
  unfold bind at 1. rewrite align_ptr_value by assumption.
  unfold bind at 1. rewrite align_ptr_value by assumption.
  unfold bind at 1. unfold update_mem at 1.
  unfold bind at 1.
  rewrite (timed_loop_from_zero g name _ fuel _ m2); try assumption.
  cbn [w_mem w_trace].
  unfold bind at 1, emit at 1. cbn [w_mem w_trace].
  unfold bind at 1, get_mem at 1. cbn [w_mem w_trace]. unfold load.
  destruct (verify _ _ _) as [[[i x] y]|].
  - unfold bind, emit, std_exit. cbn [w_mem w_trace].
    rewrite <- !app_assoc. reflexivity.
  - unfold bind, emit. cbn [w_mem w_trace].
    rewrite <- !app_assoc. reflexivity.
Qed.

Lemma invocations_app t1 t2 : invocations (t1 ++ t2) = (invocations t1 + invocations t2)%nat.
Proof. unfold invocations. rewrite filter_app, length_app. reflexivity. Qed.

Lemma invocations_repeat name k : invocations (repeat (Invoke name) k) = k.
Proof.
  unfold invocations. induction k as [|k IH]; cbn; [reflexivity|].
  cbn in IH. rewrite IH. reflexivity.
Qed.

(** C1 (amended). With [gNumFloats > 0] and a counter that does not wrap, the
    executor of either program calls the operation exactly
    [ceil(gTotalFloats / gNumFloats)] times: a last pass is issued whenever
    elements remain, so the passes cover up to [gNumFloats - 1] elements more
    than [gTotalFloats].  Every call receives the same aligned pointers and
    the memory left by the previous call; nothing else advances.  When
    [gTotalFloats] is a multiple of [gNumFloats] the count is the plain
    quotient. *)
Theorem Run_invokes_once_per_pass fuel g time name k :
  countable g fuel -> 0 <= k <= 255 ->
  (forall (f : SimdCopy.operation) d s w m2,
     addressable d -> addressable s ->
     repeat_call (Z.to_nat (passes g)) (f g (aligned_at d k) (aligned_at s k))
                 (fill (gNumFloats g) (aligned_at d k) fzero (w_mem w)) = Some m2 ->
     exists w',
       final_world (SimdCopy.Run fuel g time f name k d s w) = Some w' /\
       w_mem w' = m2 /\
       invocations (w_trace w')
       = (invocations (w_trace w) + Z.to_nat (passes g))%nat) /\
  (forall (f : SimdMult.operation) d a b w m2,
     addressable d -> addressable a -> addressable b ->
     repeat_call (Z.to_nat (passes g))
                 (f g (aligned_at d k) (aligned_at a k) (aligned_at b k))
                 (fill (gNumFloats g) (aligned_at d k) fzero (w_mem w)) = Some m2 ->
     exists w',
       final_world (SimdMult.Run_template fuel g time f name k d a b w) = Some w' /\
       w_mem w' = m2 /\
       invocations (w_trace w')
       = (invocations (w_trace w) + Z.to_nat (passes g))%nat) /\
  (passes g - 1) * gNumFloats g < gTotalFloats g <= passes g * gNumFloats g /\
  (gTotalFloats g mod gNumFloats g = 0 -> passes g = gTotalFloats g / gNumFloats g).
Proof.
  intros Hc Hk.
  split; [|split; [|split]].
  - intros f d s w m2 Hd Hs Hcalls.
    rewrite (SimdCopy_Run_outcome fuel g time f name k d s w m2) by assumption.
    destruct (verify _ _ _) as [[[i x] y]|]; cbn [final_world].
    + eexists; split; [reflexivity|]. split; [reflexivity|]. cbn [w_trace].
      rewrite !invocations_app, invocations_repeat. cbn. lia.
    + eexists; split; [reflexivity|]. split; [reflexivity|]. cbn [w_trace].
      rewrite !invocations_app, invocations_repeat. cbn. lia.
  - intros f d a b w m2 Hd Ha Hb Hcalls.
    rewrite (SimdMult_Run_outcome fuel g time f name k d a b w m2) by assumption.
    destruct (verify _ _ _) as [[[i x] y]|]; cbn [final_world].
    + eexists; split; [reflexivity|]. split; [reflexivity|]. cbn [w_trace].
      rewrite !invocations_app, invocations_repeat. cbn. lia.
    + eexists; split; [reflexivity|]. split; [reflexivity|]. cbn [w_trace].
      rewrite !invocations_app, invocations_repeat. cbn. lia.
  - destruct Hc as (Hn & Ht & _). apply passes_bounds; assumption.
  - destruct Hc as (Hn & Ht & _). apply passes_exact; assumption.
Qed.

Lemma Run_invokes_once_per_pass_witness :
  exists w',
    final_world (SimdCopy.Run 300 (tunables 2 5 f32_one true) 0 SimdCopy.NullCopy
                   "for-loop" 4 4096 65536 (boot zeroed)) = Some w' /\
    w_mem w' = fill 2 (aligned_at 4096 4) fzero zeroed /\
    invocations (w_trace w') = (0 + 3)%nat.
Proof.
  destruct (Run_invokes_once_per_pass 300 (tunables 2 5 f32_one true) 0
              "for-loop"%string 4) as [Hcopy _].
  - unfold countable. cbn. repeat split; try lia; reflexivity.
  - lia.
  - apply (Hcopy SimdCopy.NullCopy 4096 65536 (boot zeroed)).
    + split; [lia | reflexivity].
    + split; [lia | reflexivity].
    + reflexivity.
Defined.

(** C1 as stated fails: with [gNumFloats = 2] and [gTotalFloats = 5] both
    executors call the operation 3 times, one more than [5 / 2 = 2]. *)
Lemma Run_issues_a_partial_final_pass :
  let g := tunables 2 5 f32_one true in
  let copy := SimdCopy.Run 300 g 0 SimdCopy.SimpleCopy "for-loop" 4 65536 4096
                (boot zeroed) in
  let mult := SimdMult.Run 300 g 0 SimdMult.fnNiaveMult "for-loop" 4 65536 4096
                (elem 4096 256) (boot zeroed) in
  0 < gNumFloats g /\ gNumFloats g <= gTotalFloats g /\
  option_map (fun w => invocations (w_trace w)) (final_world copy) = Some 3%nat /\
  option_map (fun w => invocations (w_trace w)) (final_world mult) = Some 3%nat /\
  option_map (fun w => invocations (w_trace w)) (final_world copy)
  <> Some (Z.to_nat (gTotalFloats g / gNumFloats g)) /\
  option_map (fun w => invocations (w_trace w)) (final_world mult)
  <> Some (Z.to_nat (gTotalFloats g / gNumFloats g)).
Proof.
  cbv zeta. evaluate.
Qed.

Lemma stdout_app t1 t2 : stdout (t1 ++ t2) = stdout t1 ++ stdout t2.
Proof. unfold stdout. apply flat_map_app. Qed.

Lemma stdout_repeat_invoke name k : stdout (repeat (Invoke name) k) = [].
Proof. induction k as [|k IH]; [reflexivity | exact IH]. Qed.

Lemma stderr_app t1 t2 : stderr (t1 ++ t2) = stderr t1 ++ stderr t2.
Proof. unfold stderr. apply flat_map_app. Qed.

Lemma stderr_repeat_invoke name k : stderr (repeat (Invoke name) k) = [].
Proof. induction k as [|k IH]; [reflexivity | exact IH]. Qed.

(** [std::exit] ends everything that was to follow. *)
Lemma bind_exit {A B : Type} (c : M A) (k : A -> M B) w code w' :
  c w = Exit code w' -> bind c k w = Exit code w'.
Proof. intros H. unfold bind. rewrite H. reflexivity. Qed.

Lemma for_each_exit {A : Type} (body : A -> M unit) x l w code w' :
  body x w = Exit code w' -> for_each (x :: l) body w = Exit code w'.
Proof. intros H. cbn [for_each]. apply bind_exit. exact H. Qed.

(** C5 (amended). When the scan after the timed passes meets a first index
    [i] whose destination element differs from the expected one, the run ends
    the process with [std::exit(1)]; the last thing it writes is one line on
    [std::cerr] carrying the operation's name and the actual and expected
    values found at [i] (the index itself is not part of the line); it writes
    nothing to [std::cout] and no elapsed-time line.  The answer depends only
    on the elements up to [i]. *)
Theorem Run_mismatch_is_fatal fuel g time name k :
  countable g fuel -> 0 <= k <= 255 ->
  (forall (f : SimdCopy.operation) d s w m2 i,
     addressable d -> addressable s ->
     repeat_call (Z.to_nat (passes g)) (f g (aligned_at d k) (aligned_at s k))
                 (fill (gNumFloats g) (aligned_at d k) fzero (w_mem w)) = Some m2 ->
     first_mismatch (gNumFloats g) (fun i => m2 (elem (aligned_at d k) i))
                    (fun i => m2 (elem (aligned_at s k) i)) i ->
     exists w',
       SimdCopy.Run fuel g time f name k d s w = Exit 1 w' /\
       w_trace w' = (w_trace w ++ repeat (Invoke name) (Z.to_nat (passes g)))
                    ++ [Verify name;
                        Cerr (ErrMismatch name (m2 (elem (aligned_at d k) i))
                                               (m2 (elem (aligned_at s k) i)))] /\
       stdout (w_trace w') = stdout (w_trace w) /\
       stderr (w_trace w')
       = stderr (w_trace w)
         ++ [ErrMismatch name (m2 (elem (aligned_at d k) i))
                              (m2 (elem (aligned_at s k) i))]) /\
  (forall (f : SimdMult.operation) d a b w m2 i,
     addressable d -> addressable a -> addressable b ->
     repeat_call (Z.to_nat (passes g))
                 (f g (aligned_at d k) (aligned_at a k) (aligned_at b k))
                 (fill (gNumFloats g) (aligned_at d k) fzero (w_mem w)) = Some m2 ->
     first_mismatch (gNumFloats g) (fun i => m2 (elem (aligned_at d k) i))
                    (fun i => fmul (m2 (elem (aligned_at a k) i))
                                   (m2 (elem (aligned_at b k) i))) i ->
     exists w',
       SimdMult.Run_template fuel g time f name k d a b w = Exit 1 w' /\
       w_trace w' = (w_trace w ++ repeat (Invoke name) (Z.to_nat (passes g)))
                    ++ [Verify name;
                        Cerr (ErrMismatch name (m2 (elem (aligned_at d k) i))
                                (fmul (m2 (elem (aligned_at a k) i))
                                      (m2 (elem (aligned_at b k) i))))] /\
       stdout (w_trace w') = stdout (w_trace w) /\
       stderr (w_trace w')
       = stderr (w_trace w)
         ++ [ErrMismatch name (m2 (elem (aligned_at d k) i))
                (fmul (m2 (elem (aligned_at a k) i))
                      (m2 (elem (aligned_at b k) i)))]).
Proof.
  intros Hc Hk. split.
  - intros f d s w m2 i Hd Hs Hcalls Hfirst.
    rewrite (SimdCopy_Run_outcome fuel g time f name k d s w m2) by assumption.
    rewrite (verify_first_mismatch _ _ _ i Hfirst).
    eexists. split; [reflexivity|]. cbn [w_trace]. split; [reflexivity|].
    rewrite !stdout_app, !stderr_app, stdout_repeat_invoke, stderr_repeat_invoke.
    cbn. rewrite !app_nil_r. split; reflexivity.
  - intros f d a b w m2 i Hd Ha Hb Hcalls Hfirst.
    rewrite (SimdMult_Run_outcome fuel g time f name k d a b w m2) by assumption.
    rewrite (verify_first_mismatch _ _ _ i Hfirst).
    eexists. split; [reflexivity|]. cbn [w_trace]. split; [reflexivity|].
    rewrite !stdout_app, !stderr_app, stdout_repeat_invoke, stderr_repeat_invoke.
    cbn. rewrite !app_nil_r. split; reflexivity.
Qed.

Lemma Run_mismatch_is_fatal_witness :
  exists w',
    SimdCopy.Run 300 (tunables 4 4 fzero true) 0 (spoil 2 f32_two) "for-loop"
                 4 65536 4096 (boot zeroed) = Exit 1 w' /\
    stderr (w_trace w') = [ErrMismatch "for-loop" f32_two fzero].
Proof.
  destruct (Run_mismatch_is_fatal 300 (tunables 4 4 fzero true) 0
              "for-loop"%string 4) as [Hcopy _].
  - unfold countable. cbn. repeat split; try lia; reflexivity.
  - lia.
  - destruct (Hcopy (spoil 2 f32_two) 65536 4096 (boot zeroed)
                (store (fill 4 (aligned_at 65536 4) fzero zeroed)
                       (elem (aligned_at 65536 4) 2) f32_two) 2)
      as [w' [Hrun [_ [_ Herr]]]].
    + split; [lia | reflexivity].
    + split; [lia | reflexivity].
    + reflexivity.
    + split; [cbn; lia|]. split; [reflexivity|].
      intros j Hj. assert (j = 0 \/ j = 1) as [-> | ->] by lia; reflexivity.
    + exists w'. split; [exact Hrun | exact Herr].
Defined.

(** C5 as stated fails: two runs whose scans stop at different indices (0
    and 2) end with the same exit code and the same output, so the output
    does not carry the index. *)
Lemma mismatch_report_omits_the_index :
  let g := tunables 4 4 fzero true in
  let run j := SimdCopy.Run 300 g 0 (spoil j f32_two) "for-loop" 4 65536 4096
                 (boot zeroed) in
  let stop j := option_map (fun w => scan_stop 4 (aligned_at 65536 4)
                                       (aligned_at 4096 4) (w_mem w))
                           (final_world (run j)) in
  stop 0 = Some (Some 0) /\ stop 2 = Some (Some 2) /\
  option_map w_trace (final_world (run 0)) = option_map w_trace (final_world (run 2)) /\
  option_map (fun w => stderr (w_trace w)) (final_world (run 0))
  = Some [ErrMismatch "for-loop" f32_two fzero].
Proof.
  cbv zeta. evaluate.
Qed.

(* ------------------------------------------------------------------------- *)
(** ** Stores *)

Lemma store_same m a x : store m a x a = x.
Proof. unfold store. rewrite Z.eqb_refl. reflexivity. Qed.

Lemma store_other m a x a' : a' <> a -> store m a x a' = m a'.
Proof. intros H. unfold store. apply Z.eqb_neq in H. rewrite H. reflexivity. Qed.

Lemma store_lanes_other v : forall m a x,
  (forall j, 0 <= j < Z.of_nat (List.length v) -> x <> a + 4 * j) ->
  store_lanes m a v x = m x.
Proof.
  induction v as [|y v IH]; intros m a x H; cbn [store_lanes]; [reflexivity|].
  cbn [List.length] in H.
  rewrite IH.
  - apply store_other. specialize (H 0). lia.
  - intros j Hj. specialize (H (j + 1)). lia.
Qed.

Lemma store_lanes_at v : forall m a j,
  (j < List.length v)%nat ->
  store_lanes m a v (a + 4 * Z.of_nat j) = nth j v fzero.
Proof.
  induction v as [|y v IH]; intros m a j Hj; cbn [List.length] in Hj; [lia|].
  cbn [store_lanes]. destruct j as [|j].
  - rewrite store_lanes_other by (intros; lia).
    replace (a + 4 * Z.of_nat 0) with a by lia. apply store_same.
  - replace (a + 4 * Z.of_nat (S j)) with (a + 4 + 4 * Z.of_nat j) by lia.
    rewrite IH by lia. reflexivity.
Qed.

Lemma length_lanes w : List.length (lanes w) = w.
Proof. unfold lanes. rewrite length_map, length_seq. reflexivity. Qed.

Lemma length_load_lanes w m a : List.length (load_lanes w m a) = w.
Proof. unfold load_lanes. rewrite length_map. apply length_lanes. Qed.

Lemma nth_load_lanes w m a j :
  (j < w)%nat -> nth j (load_lanes w m a) fzero = m (elem a (Z.of_nat j)).
Proof.
  intros Hj. unfold load_lanes, lanes, load.
  rewrite map_map.
  rewrite (nth_indep _ fzero (m (elem a (Z.of_nat 0)))) by (rewrite length_map, length_seq; lia).
  rewrite (map_nth (fun x => m (elem a (Z.of_nat x))) (seq 0 w) 0%nat j).
  rewrite seq_nth by lia. reflexivity.
Qed.

Lemma length_mul_lanes v1 : forall v2,
  List.length v2 = List.length v1 -> List.length (mul_lanes v1 v2) = List.length v1.
Proof.
  induction v1 as [|x v1 IH]; intros [|y v2] H; cbn in *; try lia.
  rewrite IH by lia. reflexivity.
Qed.

Lemma nth_mul_lanes v1 : forall v2 j,
  List.length v2 = List.length v1 -> (j < List.length v1)%nat ->
  nth j (mul_lanes v1 v2) fzero = fmul (nth j v1 fzero) (nth j v2 fzero).
Proof.
  induction v1 as [|x v1 IH]; intros [|y v2] j H Hj; cbn in *; try lia.
  destruct j as [|j]; [reflexivity|]. apply IH; lia.
Qed.

(** Storing a register at [d[i]] overwrites the elements [i .. i + w - 1]. *)
Lemma store_lanes_writes m d i (w : nat) v val :
  List.length v = w ->
  (forall j, (j < w)%nat -> nth j v fzero = val (i + Z.of_nat j)) ->
  writes d i (i + Z.of_nat w) val m (store_lanes m (elem d i) v).
Proof.
  intros Hlen Hval. split.
  - intros k Hk.
    replace (elem d k) with (elem d i + 4 * Z.of_nat (Z.to_nat (k - i)))
      by (unfold elem; lia).
    rewrite store_lanes_at by lia. rewrite Hval by lia. f_equal. lia.
  - intros x Hx. apply store_lanes_other. intros j Hj.
    specialize (Hx (i + j)). unfold elem in *. lia.
Qed.

Lemma writes_empty d i val m : writes d i i val m m.
Proof. split; [intros; lia | reflexivity]. Qed.

Lemma writes_join d i j k val val1 m m1 m' :
  i <= j <= k ->
  writes d i j val m m1 ->
  writes d j k val1 m1 m' ->
  (forall x, j <= x < k -> val1 x = val x) ->
  writes d i k val m m'.
Proof.
  intros Hijk [Ha Hf] [Ha1 Hf1] Hv. split.
  - intros x Hx. destruct (Z_lt_dec x j) as [Hlt|Hge].
    + rewrite Hf1 by (intros t Ht; unfold elem; lia). apply Ha. lia.
    + rewrite Ha1 by lia. apply Hv. lia.
  - intros x Hx. rewrite Hf1 by (intros t Ht; apply Hx; lia).
    apply Hf. intros t Ht. apply Hx. lia.
Qed.

Lemma INT_MAX_value : INT_MAX = 2147483647.
Proof. reflexivity. Qed.

Lemma size_modulus_value : size_modulus = 18446744073709551616.
Proof. reflexivity. Qed.

Lemma size_wrap_int i : 0 <= i <= INT_MAX -> size_wrap i = i.
Proof.
  intros H. unfold size_wrap. apply Z.mod_small.
  rewrite INT_MAX_value in H. rewrite size_modulus_value. lia.
Qed.

(* ------------------------------------------------------------------------- *)
(** ** The counted loop of an operation

    [top] is the first multiple of the step that is not below [n]: the loop
    stops when its counter gets there.  Each step overwrites the elements
    [i .. i + w - 1] of the destination with values [val] that do not depend
    on the destination. *)

Section CountedLoop.
Context {S : Type}.
Variables (mem_of : S -> mem) (Inv : Z -> S -> Prop).
Variables (n w top d : Z) (val : mem -> Z -> float).
Variable body : Z -> S -> option S.

Hypothesis w_pos : 0 < w.
Hypothesis top_first : top - w < n <= top.
Hypothesis top_int : top <= INT_MAX.
Hypothesis body_spec : forall i st,
  0 <= i < top -> i mod w = 0 -> Inv i st ->
  exists st', body i st = Some st' /\ Inv (i + w) st' /\
              writes d i (i + w) (val (mem_of st)) (mem_of st) (mem_of st').
Hypothesis val_frame : forall m m' i,
  0 <= i < top ->
  (forall x, (forall k, 0 <= k < top -> x <> elem d k) -> m' x = m x) ->
  val m' i = val m i.

Lemma for_int_writes : forall (r : nat) (i : Z) (st : S) (fuel : nat),
  i + w * Z.of_nat r = top -> 0 <= i -> i mod w = 0 -> Inv i st ->
  (r < fuel)%nat ->
  exists st', for_int fuel n w i body st = Some st' /\
              writes d i top (val (mem_of st)) (mem_of st) (mem_of st').
Proof.
  induction r as [|r IH]; intros i st fuel Htop Hi Hmod HInv Hfuel;
    (destruct fuel as [|fuel]; [lia|]); cbn [for_int].
  - rewrite size_wrap_int by lia.
    destruct (i <? n) eqn:E; [apply Z.ltb_lt in E; lia|].
    exists st. split; [reflexivity|].
    replace top with i by lia. apply writes_empty.
  - rewrite size_wrap_int by nia.
    assert (i < n) as Hlt by nia. apply Z.ltb_lt in Hlt. rewrite Hlt.
    destruct (body_spec i st) as [st1 [Hb [HInv1 Hw1]]]; [nia | exact Hmod | exact HInv |].
    rewrite Hb. cbn [obind].
    assert (i + w <= INT_MAX) as Hle by nia. apply Z.leb_le in Hle. rewrite Hle.
    destruct (IH (i + w) st1 fuel) as [st' [Hrun Hw']]; try lia.
    { rewrite <- Z.add_mod_idemp_r, Z.mod_same, Z.add_0_r by lia. exact Hmod. }
    { exact HInv1. }
    exists st'. split; [exact Hrun|].
    apply (writes_join d i (i + w) top _ (val (mem_of st1)) _ (mem_of st1)).
    + nia.
    + exact Hw1.
    + exact Hw'.
    + intros x Hx. apply val_frame; [lia|].
      intros y Hy. apply Hw1. intros k Hk. apply Hy. nia.
Qed.

(** The whole loop, from [i = 0]. *)
Lemma for_int_from_zero (st : S) (fuel : nat) :
  top mod w = 0 -> 0 <= top -> Inv 0 st -> (Z.to_nat (top / w) < fuel)%nat ->
  exists st', for_int fuel n w 0 body st = Some st' /\
              writes d 0 top (val (mem_of st)) (mem_of st) (mem_of st').
Proof.
  intros Hmod Htop HInv Hfuel.
  apply (for_int_writes (Z.to_nat (top / w))); try assumption; try lia.
  - pose proof (Z.div_mod top w ltac:(lia)) as E. rewrite Hmod in E.
    assert (0 <= top / w) by (apply Z.div_pos; lia). lia.
  - apply Z.mod_0_l. lia.
Qed.
End CountedLoop.

(** A working set that the [int] counter cannot reach has no defined
    outcome: the counter overflows before the loop condition fails. *)
Lemma for_int_beyond_INT_MAX {S : Type} (n step : Z) (body : Z -> S -> option S) :
  INT_MAX < n < size_modulus -> 0 <= step ->
  forall (fuel : nat) (i : Z) (st : S),
    0 <= i <= INT_MAX -> for_int fuel n step i body st = None.
Proof.
  intros Hn Hstep. induction fuel as [|fuel IH]; intros i st Hi; cbn [for_int];
    [reflexivity|].
  rewrite size_wrap_int by exact Hi.
  assert (i < n) as Hlt by lia. apply Z.ltb_lt in Hlt. rewrite Hlt.
  destruct (body i st) as [st'|]; cbn [obind]; [|reflexivity].
  destruct (i + step <=? INT_MAX) eqn:E; [|reflexivity].
  apply Z.leb_le in E. apply IH. lia.
Qed.

(* ------------------------------------------------------------------------- *)
(** ** Loops of the kernels *)

Lemma store_writes m d i x val :
  x = val i -> writes d i (i + 1) val m (store m (elem d i) x).
Proof.
  intros Hx.
  apply (store_lanes_writes m d i 1 [x] val); [reflexivity|].
  intros j Hj. assert (j = 0%nat) as -> by lia. cbn. rewrite Z.add_0_r. exact Hx.
Qed.

Lemma aligned_elem bytes w p i :
  0 < w -> bytes = 4 * w -> p mod bytes = 0 -> i mod w = 0 ->
  aligned_to bytes (elem p i) = true.
Proof.
  intros Hw -> Hp Hi. unfold aligned_to, elem. apply Z.eqb_eq.
  apply Z.mod_divide in Hp; [|lia]. apply Z.mod_divide in Hi; [|lia].
  destruct Hp as [qp ->]. destruct Hi as [qi ->].
  replace (qp * (4 * w) + 4 * (qi * w)) with ((qp + qi) * (4 * w)) by lia.
  apply Z.mod_mul. lia.
Qed.

Lemma loop_fuel_enough n w top :
  0 < w -> 0 <= n -> top - w < n <= top -> top mod w = 0 ->
  (Z.to_nat (top / w) < loop_fuel n)%nat.
Proof.
  intros Hw Hn Htop Hmod. unfold loop_fuel.
  pose proof (Z.div_mod top w ltac:(lia)) as E. rewrite Hmod in E.
  assert (0 <= top / w) by (apply Z.div_pos; lia).
  assert (top / w <= n) by nia. lia.
Qed.

(** A loop whose step copies one register from [s[i]] to [d[i]]. *)
Lemma vector_copy_loop (wn : nat) n top d s body m :
  (0 < wn)%nat -> 0 <= n -> top - Z.of_nat wn < n <= top -> top <= INT_MAX ->
  top mod Z.of_nat wn = 0 -> apart top d s ->
  (forall i m, 0 <= i -> i mod Z.of_nat wn = 0 ->
     body i m = Some (store_lanes m (elem d i) (load_lanes wn m (elem s i)))) ->
  exists m', for_int (loop_fuel n) n (Z.of_nat wn) 0 body m = Some m' /\
             writes d 0 top (fun k => m (elem s k)) m m'.
Proof.
  intros Hw Hn Htop Hint Hmod Hapart Hbody.
  apply (for_int_from_zero (fun m => m) (fun _ _ => True) n (Z.of_nat wn) top d
           (fun m k => m (elem s k)) body); try assumption; try lia.
  - intros i st Hi Himod _. rewrite Hbody by lia.
    eexists. split; [reflexivity|]. split; [exact I|].
    apply store_lanes_writes; [apply length_load_lanes|].
    intros j Hj. rewrite nth_load_lanes by exact Hj. f_equal. unfold elem. lia.
  - intros m1 m2 i Hi Hframe. apply Hframe.
    intros k Hk. unfold apart, elem in *. lia.
  - apply loop_fuel_enough; try assumption; lia.
Qed.

(** A loop whose step multiplies one register from [a[i]] with one from
    [b[i]] into [d[i]]. *)
Lemma vector_mult_loop (wn : nat) n top d a b body m :
  (0 < wn)%nat -> 0 <= n -> top - Z.of_nat wn < n <= top -> top <= INT_MAX ->
  top mod Z.of_nat wn = 0 -> apart top d a -> apart top d b ->
  (forall i m, 0 <= i -> i mod Z.of_nat wn = 0 ->
     body i m = Some (store_lanes m (elem d i)
                        (mul_lanes (load_lanes wn m (elem a i))
                                   (load_lanes wn m (elem b i))))) ->
  exists m', for_int (loop_fuel n) n (Z.of_nat wn) 0 body m = Some m' /\
             writes d 0 top (fun k => fmul (m (elem a k)) (m (elem b k))) m m'.
Proof.
  intros Hw Hn Htop Hint Hmod Hda Hdb Hbody.
  apply (for_int_from_zero (fun m => m) (fun _ _ => True) n (Z.of_nat wn) top d
           (fun m k => fmul (m (elem a k)) (m (elem b k))) body);
    try assumption; try lia.
  - intros i st Hi Himod _. rewrite Hbody by lia.
    eexists. split; [reflexivity|]. split; [exact I|].
    apply store_lanes_writes.
    + rewrite length_mul_lanes; rewrite !length_load_lanes; reflexivity.
    + intros j Hj. rewrite nth_mul_lanes by (rewrite !length_load_lanes; lia).
      rewrite !nth_load_lanes by exact Hj. f_equal; f_equal; unfold elem; lia.
  - intros m1 m2 i Hi Hframe. f_equal; apply Hframe;
      intros k Hk; unfold apart, elem in *; lia.
  - apply loop_fuel_enough; try assumption; lia.
Qed.

(** The forward copy behind [std::memcpy] and [std::copy]. *)
Lemma copy_forward_writes n d s m :
  0 <= n -> apart n d s ->
  writes d 0 n (fun k => m (elem s k)) m (copy_forward n d s m).
Proof.
  intros Hn Hapart. unfold copy_forward. rewrite indices_seq.
  assert (forall k : nat, Z.of_nat k <= n ->
            writes d 0 (Z.of_nat k) (fun i => m (elem s i)) m
              (fold_left (fun m i => store m (elem d i) (load m (elem s i)))
                         (map Z.of_nat (seq 0 k)) m)) as H.
  { induction k as [|k IH]; intros Hk.
    - cbn. apply writes_empty.
    - rewrite seq_S, map_app, fold_left_app. cbn [seq map fold_left Nat.add].
      specialize (IH ltac:(lia)).
      set (mk := fold_left (fun m i => store m (elem d i) (load m (elem s i)))
                           (map Z.of_nat (seq 0 k)) m) in *.
      apply (writes_join d 0 (Z.of_nat k) (Z.of_nat (S k)) _
               (fun i => mk (elem s i)) _ mk); [lia | exact IH | |].
      + replace (Z.of_nat (S k)) with (Z.of_nat k + 1) by lia.
        apply store_writes. reflexivity.
      + intros x Hx. apply IH. intros t Ht. unfold apart, elem in *. lia. }
  replace n with (Z.of_nat (Z.to_nat n)) at 1 by lia. apply H. lia.
Qed.

(* ------------------------------------------------------------------------- *)
(** ** The copy kernels *)

Lemma MemCopy_writes g d s m :
  0 <= gNumFloats g <= INT_MAX -> apart (gNumFloats g) d s ->
  exists m', SimdCopy.MemCopy g d s m = Some m' /\
             writes d 0 (gNumFloats g) (fun k => m (elem s k)) m m'.
Proof.
  intros Hn Hapart. unfold SimdCopy.MemCopy, memcpy.
  assert (size_wrap (gNumFloats g * 4) = 4 * gNumFloats g) as ->.
  { unfold size_wrap. rewrite Z.mod_small; [lia|].
    rewrite INT_MAX_value in Hn. rewrite size_modulus_value. lia. }
  assert ((d + 4 * gNumFloats g <=? s) || (s + 4 * gNumFloats g <=? d)
          || (4 * gNumFloats g =? 0) = true) as ->.
  { destruct Hapart as [H|H]; apply Z.leb_le in H; rewrite H;
      [reflexivity | rewrite orb_true_r; reflexivity]. }
  rewrite Z.mul_comm, Z.div_mul by lia.
  eexists. split; [reflexivity|]. apply copy_forward_writes; [lia | exact Hapart].
Qed.

Lemma StdCopy_writes g d s m :
  0 <= gNumFloats g -> apart (gNumFloats g) d s ->
  exists m', SimdCopy.StdCopy g d s m = Some m' /\
             writes d 0 (gNumFloats g) (fun k => m (elem s k)) m m'.
Proof.
  intros Hn Hapart. unfold SimdCopy.StdCopy, std_copy.
  assert ((s <=? d) && (d <? elem s (gNumFloats g)) = false) as ->.
  { apply andb_false_iff. unfold apart, elem in *.
    destruct (Z_le_dec s d) as [Hle|Hgt].
    - right. apply Z.ltb_ge. lia.
    - left. apply Z.leb_gt. lia. }
  assert ((elem s (gNumFloats g) - s) / 4 = gNumFloats g) as ->.
  { unfold elem. replace (s + 4 * gNumFloats g - s) with (gNumFloats g * 4) by lia.
    apply Z.div_mul. lia. }
  eexists. split; [reflexivity|]. apply copy_forward_writes; assumption.
Qed.

Lemma SimpleCopy_writes g d s m :
  0 <= gNumFloats g <= INT_MAX -> apart (gNumFloats g) d s ->
  exists m', SimdCopy.SimpleCopy g d s m = Some m' /\
             writes d 0 (gNumFloats g) (fun k => m (elem s k)) m m'.
Proof.
  intros Hn Hapart. unfold SimdCopy.SimpleCopy. cbv zeta.
  destruct (for_int_from_zero (S := Z * Z * mem) snd
              (fun i st => fst (fst st) = elem d i /\ snd (fst st) = elem s i)
              (gNumFloats g) 1 (gNumFloats g) d (fun m k => m (elem s k))
              (fun _ '(d, s, m) => Some (d + 4, s + 4, store m d (load m s)))
              ltac:(lia) ltac:(lia) ltac:(lia)) with (st := (d, s, m))
              (fuel := loop_fuel (gNumFloats g))
    as [st' [Hrun Hw]].
  - intros i [[d' s'] m0] Hi _ [Hd Hs]. cbn [fst snd] in *. subst d' s'.
    eexists. split; [reflexivity|]. cbn [fst snd]. split.
    + unfold elem. split; lia.
    + apply store_writes. reflexivity.
  - intros m1 m2 i Hi Hframe. apply Hframe.
    intros k Hk. unfold apart, elem in *. lia.
  - apply Z.mod_1_r.
  - lia.
  - cbn [fst snd]. unfold elem. split; lia.
  - unfold loop_fuel. rewrite Z.div_1_r. lia.
  - rewrite Hrun. cbn [obind]. exists (snd st'). split; [reflexivity | exact Hw].
Qed.

(** Discharges the step of a vector kernel: unfold the intrinsics, check the
    alignment of the two addresses, and compare with the register copy. *)
Ltac vector_step bytes w :=
  let i := fresh "i" in
  let m := fresh "m" in
  let Hi := fresh "Hi" in
  let Hm := fresh "Hm" in
  intros i m Hi Hm;
  cbv beta delta [_mm_loadu_ps _mm_load_ps _mm_storeu_ps _mm_store_ps _mm_stream_ps
                  _mm_mul_ps _mm256_loadu_ps _mm256_load_ps _mm256_storeu_ps
                  _mm256_store_ps _mm256_stream_ps _mm256_mul_ps];
  rewrite ?(aligned_elem bytes w) by (assumption || lia);
  reflexivity.

Lemma vector_copy_kernels_write (f : SimdCopy.kernel) g d s m :
  SimdCopy.width f <> 1 ->
  0 <= gNumFloats g <= INT_MAX -> gNumFloats g mod SimdCopy.width f = 0 ->
  d mod SimdCopy.granularity f = 0 -> s mod SimdCopy.granularity f = 0 ->
  apart (gNumFloats g) d s ->
  exists m', SimdCopy.call f g d s m = Some m' /\
             writes d 0 (gNumFloats g) (fun k => m (elem s k)) m m'.
Proof.
  intros Hw Hn Hmod Hd Hs Hapart.
  destruct f; cbn [SimdCopy.width SimdCopy.granularity SimdCopy.call] in *;
    try (exfalso; apply Hw; reflexivity);
    cbv beta delta [SimdCopy.UnalignedSseCopy SimdCopy.AlignedSseCopy
                    SimdCopy.AlignedSseNonTemporalCopy SimdCopy.UnalignedAvxCopy
                    SimdCopy.AlignedAvxCopy SimdCopy.AlignedAvxNonTemporalCopy];
    cbv zeta.
  - apply (vector_copy_loop 4 _ (gNumFloats g)); try assumption; try lia.
    vector_step 16 4.
  - apply (vector_copy_loop 4 _ (gNumFloats g)); try assumption; try lia.
    vector_step 16 4.
  - apply (vector_copy_loop 4 _ (gNumFloats g)); try assumption; try lia.
    vector_step 16 4.
  - apply (vector_copy_loop 8 _ (gNumFloats g)); try assumption; try lia.
    vector_step 32 8.
  - apply (vector_copy_loop 8 _ (gNumFloats g)); try assumption; try lia.
    vector_step 32 8.
  - apply (vector_copy_loop 8 _ (gNumFloats g)); try assumption; try lia.
    vector_step 32 8.
Qed.

(** Every kernel of the copy program but the placeholder, on a working set
    that its loop covers exactly. *)
Lemma copy_kernels_write (f : SimdCopy.kernel) g d s m :
  f <> SimdCopy.fnNullCopy ->
  0 <= gNumFloats g <= INT_MAX -> gNumFloats g mod SimdCopy.width f = 0 ->
  d mod SimdCopy.granularity f = 0 -> s mod SimdCopy.granularity f = 0 ->
  apart (gNumFloats g) d s ->
  exists m', SimdCopy.call f g d s m = Some m' /\
             writes d 0 (gNumFloats g) (fun k => m (elem s k)) m m'.
Proof.
  intros Hf Hn Hmod Hd Hs Hapart.
  destruct f eqn:E;
    try (rewrite <- E in *; apply vector_copy_kernels_write; try assumption;
         rewrite E; cbn; lia).
  - apply MemCopy_writes; assumption.
  - apply StdCopy_writes; [lia | assumption].
  - apply SimpleCopy_writes; assumption.
  - contradiction.
Qed.

(* ------------------------------------------------------------------------- *)
(** ** The multiply kernels *)

Lemma NiaveMult_writes g d a b m :
  0 <= gNumFloats g <= INT_MAX ->
  apart (gNumFloats g) d a -> apart (gNumFloats g) d b ->
  exists m', SimdMult.NiaveMult g d a b m = Some m' /\
             writes d 0 (gNumFloats g)
                    (fun k => fmul (m (elem a k)) (m (elem b k))) m m'.
Proof.
  intros Hn Hda Hdb. unfold SimdMult.NiaveMult. cbv zeta.
  destruct (for_int_from_zero (S := Z * Z * Z * mem) snd
              (fun i st => fst (fst (fst st)) = elem d i /\
                           snd (fst (fst st)) = elem a i /\
                           snd (fst st) = elem b i)
              (gNumFloats g) 1 (gNumFloats g) d
              (fun m k => fmul (m (elem a k)) (m (elem b k)))
              (fun _ '(d, a, b, m) =>
                 Some (d + 4, a + 4, b + 4, store m d (fmul (load m a) (load m b))))
              ltac:(lia) ltac:(lia) ltac:(lia)) with (st := (d, a, b, m))
              (fuel := loop_fuel (gNumFloats g))
    as [st' [Hrun Hw]].
  - intros i [[[d' a'] b'] m0] Hi _ [Hd [Ha Hb]]. cbn [fst snd] in *. subst d' a' b'.
    eexists. split; [reflexivity|]. cbn [fst snd]. split.
    + unfold elem. repeat split; lia.
    + apply store_writes. reflexivity.
  - intros m1 m2 i Hi Hframe. f_equal; apply Hframe;
      intros k Hk; unfold apart, elem in *; lia.
  - apply Z.mod_1_r.
  - lia.
  - cbn [fst snd]. unfold elem. repeat split; lia.
  - unfold loop_fuel. rewrite Z.div_1_r. lia.
  - rewrite Hrun. cbn [obind]. exists (snd st'). split; [reflexivity | exact Hw].
Qed.

(** Every kernel of the multiply program but the placeholder, on a working
    set that its loop covers exactly. *)
Lemma mult_kernels_write (f : SimdMult.kernel) g d a b m :
  f <> SimdMult.fnNullMult ->
  0 <= gNumFloats g <= INT_MAX -> gNumFloats g mod SimdMult.width f = 0 ->
  d mod SimdMult.granularity f = 0 ->
  a mod SimdMult.granularity f = 0 -> b mod SimdMult.granularity f = 0 ->
  apart (gNumFloats g) d a -> apart (gNumFloats g) d b ->
  exists m', SimdMult.call f g d a b m = Some m' /\
             writes d 0 (gNumFloats g)
                    (fun k => fmul (m (elem a k)) (m (elem b k))) m m'.
Proof.
  intros Hf Hn Hmod Hd Ha Hb Hda Hdb.
  destruct f; cbn [SimdMult.width SimdMult.granularity SimdMult.call] in *;
    cbv beta delta [SimdMult.UnalignedSseMult SimdMult.AlignedSseMult
                    SimdMult.AlignedSseNonTemporalMult SimdMult.UnalignedAvxMult
                    SimdMult.AlignedAvxMult SimdMult.AlignedAvxNonTemporalMult];
    cbv zeta.
  - apply NiaveMult_writes; assumption.
  - apply (vector_mult_loop 4 _ (gNumFloats g)); try assumption; try lia.
    vector_step 16 4.
  - apply (vector_mult_loop 4 _ (gNumFloats g)); try assumption; try lia.
    vector_step 16 4.
  - apply (vector_mult_loop 4 _ (gNumFloats g)); try assumption; try lia.
    vector_step 16 4.
  - apply (vector_mult_loop 8 _ (gNumFloats g)); try assumption; try lia.
    vector_step 32 8.
  - apply (vector_mult_loop 8 _ (gNumFloats g)); try assumption; try lia.
    vector_step 32 8.
  - apply (vector_mult_loop 8 _ (gNumFloats g)); try assumption; try lia.
    vector_step 32 8.
  - contradiction.
Qed.








(** C9 (amended). For every multiply kernel but the placeholder, on a
    working set whose size is a multiple of the kernel's vector width and
    fits the [int] loop counter (with pointers aligned as the kernel demands
    and a destination that shares no byte with the sources): with the two
    sources holding the
    constants [v1] and [v2], one call leaves every element of the
    destination's working set equal to the binary32 product [v1 * v2]. *)
Theorem mult_of_constant_sources
    (f : SimdMult.kernel) g d a b m (v1 v2 : float) :
  f <> SimdMult.fnNullMult ->
  0 <= gNumFloats g <= INT_MAX -> gNumFloats g mod SimdMult.width f = 0 ->
  d mod SimdMult.granularity f = 0 ->
  a mod SimdMult.granularity f = 0 -> b mod SimdMult.granularity f = 0 ->
  apart (gNumFloats g) d a -> apart (gNumFloats g) d b ->
  (forall i, 0 <= i < gNumFloats g -> m (elem a i) = v1) ->
  (forall i, 0 <= i < gNumFloats g -> m (elem b i) = v2) ->
  exists m',
    SimdMult.call f g d a b m = Some m' /\
    (forall i, 0 <= i < gNumFloats g -> m' (elem d i) = fmul v1 v2).
Proof.
  intros Hf Hn Hmod Hd Ha Hb Hda Hdb Hv1 Hv2.
  destruct (mult_kernels_write f g d a b m Hf Hn Hmod Hd Ha Hb Hda Hdb)
    as [m' [Hrun [Hin _]]].
  exists m'. split; [exact Hrun|].
  intros i Hi. rewrite Hin, Hv1, Hv2 by exact Hi. reflexivity.
Qed.

Lemma mult_of_constant_sources_witness :
  exists m',
    SimdMult.call SimdMult.fnAlignedAvxMult (tunables 8 8 f32_two true)
                  65536 4096 8192
                  (fill 8 4096 f32_two (fill 8 8192 f32_three zeroed)) = Some m' /\
    (forall i, 0 <= i < 8 -> m' (elem 65536 i) = fmul f32_two f32_three).
Proof.
  apply (mult_of_constant_sources SimdMult.fnAlignedAvxMult (tunables 8 8 f32_two true)
           65536 4096 8192 (fill 8 4096 f32_two (fill 8 8192 f32_three zeroed))
           f32_two f32_three).
  - discriminate.
  - split; [discriminate | vm_compute; discriminate].
  - reflexivity.
  - reflexivity.
  - reflexivity.
  - reflexivity.
  - right. cbn. lia.
  - right. cbn. lia.
  - intros i Hi. cbn in Hi.
    assert (i = 0 \/ i = 1 \/ i = 2 \/ i = 3 \/ i = 4 \/ i = 5 \/ i = 6 \/ i = 7)
      as [->|[->|[->|[->|[->|[->|[->| ->]]]]]]] by lia; vm_compute; reflexivity.
  - intros i Hi. cbn in Hi.
    assert (i = 0 \/ i = 1 \/ i = 2 \/ i = 3 \/ i = 4 \/ i = 5 \/ i = 6 \/ i = 7)
      as [->|[->|[->|[->|[->|[->|[->| ->]]]]]]] by lia; vm_compute; reflexivity.
Defined.

(** C9 as stated fails: on a working set of [2^31] floats, a multiple of
    every vector width, with sources of twos and of threes (32-byte aligned,
    apart from the destination), the [int] counter of every multiply kernel
    overflows before its loop ends, so none of the seven yields a destination
    at all. *)
Lemma mult_of_2_pow_31_floats_has_no_result :
  let n := 2 ^ 31 in
  let g := tunables n n f32_two true in
  let a := 4096 in
  let b := 2 ^ 34 in
  let d := 2 ^ 36 in
  let m : mem := fun x => if x <? b then f32_two else f32_three in
  n mod 8 = 0 /\ d mod 32 = 0 /\ a mod 32 = 0 /\ b mod 32 = 0 /\
  apart n d a /\ apart n d b /\
  (forall i, 0 <= i < n -> m (elem a i) = f32_two /\ m (elem b i) = f32_three) /\
  Forall (fun f => SimdMult.call f g d a b m = None)
         [SimdMult.fnNiaveMult; SimdMult.fnUnalignedSseMult;
          SimdMult.fnUnalignedAvxMult; SimdMult.fnAlignedSseMult;
          SimdMult.fnAlignedSseNonTemporalMult; SimdMult.fnAlignedAvxMult;
          SimdMult.fnAlignedAvxNonTemporalMult].
Proof.
  cbv zeta.
  assert (INT_MAX < gNumFloats (tunables (2 ^ 31) (2 ^ 31) f32_two true) < size_modulus)
    as Hn by (split; reflexivity).
  assert (0 <= 0 <= INT_MAX) as H0 by (split; discriminate).
  split; [reflexivity|]. split; [reflexivity|]. split; [reflexivity|].
  split; [reflexivity|].
  split; [right; unfold elem; lia|]. split; [right; unfold elem; lia|]. split.
  - intros i Hi. unfold elem. split.
    + destruct (Z.ltb_spec (4096 + 4 * i) (2 ^ 34)) as [H|H]; [reflexivity | lia].
    + destruct (Z.ltb_spec (2 ^ 34 + 4 * i) (2 ^ 34)) as [H|H]; [lia | reflexivity].
  - repeat (apply Forall_cons;
              [cbn [SimdMult.call];
               cbv beta delta [SimdMult.NiaveMult SimdMult.UnalignedSseMult
                               SimdMult.AlignedSseMult SimdMult.AlignedSseNonTemporalMult
                               SimdMult.UnalignedAvxMult SimdMult.AlignedAvxMult
                               SimdMult.AlignedAvxNonTemporalMult]; cbv zeta;
               rewrite for_int_beyond_INT_MAX by (assumption || lia); reflexivity|]).
    apply Forall_nil.
Qed.

(* ------------------------------------------------------------------------- *)
(** ** The placeholder runs *)

(** In the multiply program the placeholder has its own specialization: it
    writes the literal 0 and does nothing else. *)
Lemma SimdMult_Run_NullMult fuel g time name k d a b w :
  SimdMult.Run fuel g time SimdMult.fnNullMult name k d a b w
  = Ok tt {| w_mem := w_mem w; w_trace := w_trace w ++ [Cout OutZero] |}.
Proof. reflexivity. Qed.

(** In the copy program the placeholder goes through the only template there
    is: it is called once per pass, scanned, and timed like any kernel, on
    buffers that the call sites make the same one. *)
Lemma SimdCopy_Run_NullCopy fuel g time name k p w :
  countable g fuel -> 0 <= k <= 255 -> addressable p ->
  SimdCopy.Run fuel g time SimdCopy.NullCopy name k p p w
  = Ok tt {| w_mem := fill (gNumFloats g) (aligned_at p k) fzero (w_mem w);
             w_trace := (w_trace w ++ repeat (Invoke name) (Z.to_nat (passes g)))
                        ++ [Verify name; Cerr (ErrTook name k time);
                            Cout (OutTime time)] |}.
Proof.
  intros Hc Hk Hp.
  assert (forall r m, repeat_call r (SimdCopy.NullCopy g (aligned_at p k) (aligned_at p k)) m
                      = Some m) as Hnull.
  { induction r as [|r IH]; intros m; cbn; [reflexivity | apply IH]. }
  rewrite (SimdCopy_Run_outcome fuel g time SimdCopy.NullCopy name k p p w _ Hc Hk Hp Hp
             (Hnull _ _)).
  rewrite verify_pass; [reflexivity|].
  intros j Hj. unfold fill.
  assert (forall l (m : mem),
            (forall x, In x l -> 0 <= x < gNumFloats g) -> In j l ->
            fold_left (fun m i => store m (elem (aligned_at p k) i) fzero) l m
              (elem (aligned_at p k) j) = fzero) as Hfill.
  { induction l as [|x l IHl] using rev_ind; intros m Hall Hin; [contradiction|].
    rewrite fold_left_app. cbn [fold_left].
    destruct (Z.eq_dec x j) as [->|Hne].
    - apply store_same.
    - rewrite store_other by (unfold elem; lia).
      apply IHl.
      + intros y Hy. apply Hall. apply in_or_app. left. exact Hy.
      + apply in_app_or in Hin as [Hin|[Hin|[]]]; [exact Hin | contradiction]. }
  rewrite Hfill; [reflexivity | |].
  - intros x Hx. rewrite indices_seq in Hx. apply in_map_iff in Hx as [y [<- Hy]].
    apply in_seq in Hy. lia.
  - rewrite indices_seq. apply in_map_iff. exists (Z.to_nat j). split; [lia|].
    apply in_seq. lia.
Qed.

(* ------------------------------------------------------------------------- *)
(** ** Worked runs of the two programs *)

(** C3. At sweep offset 4, which 16 does not divide, the "Aligned Sse"
    column of the copy program is filled by a run of the placeholder through
    the general template: the placeholder is called once per pass, the
    verification scan runs, an elapsed-time line goes to [std::cerr], and
    the column receives the measured time (77 here), not the literal 0.  The
    multiply program, whose placeholder has a specialization, emits the
    literal 0 for the same column and neither calls nor scans. *)
Theorem copy_placeholder_run_is_timed_and_verified :
  let o := command_line 4 8 f32_one true in
  let clock := marking_clock "Aligned Sse" in
  let copy_row := SimdCopy.sweep_row 300 (set_globals o) clock 4096 65536 4
                    (startup 256 SimdCopy.columns o 4096 65536 (boot zeroed)) in
  let mult_row := SimdMult.sweep_row true 300 (set_globals o) clock 4096 65536 4
                    (startup 4096 SimdMult.columns o 4096 65536 (boot zeroed)) in
  4 mod 16 <> 0 /\
  option_map (fun w => (filter (about "Aligned Sse") (w_trace w), stdout (w_trace w)))
             (final_world copy_row)
  = Some ([Invoke "Aligned Sse"; Invoke "Aligned Sse"; Verify "Aligned Sse";
           Cerr (ErrTook "Aligned Sse" 4 77)],
          [OutHtmlProlog; OutHeader SimdCopy.columns;
           OutRow 4; OutTime 1; OutTime 1; OutTime 1; OutTime 1; OutTime 1;
           OutTime 77; OutTime 1; OutTime 1; OutTime 1]) /\
  option_map (fun w => (filter (about "Aligned Sse") (w_trace w), stdout (w_trace w)))
             (final_world mult_row)
  = Some ([], [OutHtmlProlog; OutHeader SimdMult.columns;
               OutRow 4; OutTime 1; OutTime 1; OutTime 1;
               OutZero; OutZero; OutZero; OutZero]).
Proof.
  cbv zeta. evaluate.
Qed.

(** Whatever the other options say, [total-floats] below [num-floats] makes
    [main] write the diagnostic and the usage text and return 0, before
    anything reaches [std::cout]. *)
Lemma SimdCopy_main_total_below_num fuel o clock source_data dest_data w :
  opt_total_floats o < opt_num_floats o ->
  SimdCopy.main fuel (Some o) clock source_data dest_data w
  = Ok 0 {| w_mem := w_mem w;
            w_trace := (w_trace w ++ [Cerr ErrTotalLessThanNum]) ++ [Cerr ErrUsage] |}.
Proof.
  intros H. unfold SimdCopy.main. cbn [set_globals gTotalFloats gNumFloats].
  apply Z.ltb_lt in H. rewrite H. reflexivity.
Qed.

Lemma SimdMult_main_total_below_num avx fuel o clock source_data dest_data w :
  opt_total_floats o < opt_num_floats o ->
  SimdMult.main avx fuel (Some o) clock source_data dest_data w
  = Ok 0 {| w_mem := w_mem w;
            w_trace := (w_trace w ++ [Cerr ErrTotalLessThanNum]) ++ [Cerr ErrUsage] |}.
Proof.
  intros H. unfold SimdMult.main. cbn [set_globals gTotalFloats gNumFloats].
  apply Z.ltb_lt in H. rewrite H. reflexivity.
Qed.

(** An option value that does not parse ends either program with code 1. *)
Lemma main_parse_failure fuel clock source_data dest_data w :
  SimdCopy.main fuel None clock source_data dest_data w
  = Exit 1 {| w_mem := w_mem w; w_trace := w_trace w ++ [Cerr ErrUsage] |} /\
  SimdMult.main true fuel None clock source_data dest_data w
  = Exit 1 {| w_mem := w_mem w;
              w_trace := (w_trace w ++ [Cerr ErrParse]) ++ [Cerr ErrUsage] |}.
Proof. split; reflexivity. Qed.

(** With [total-floats] at least [num-floats], [main] is its sweep between a
    start-up and a finish: it returns 0 when the sweep completes, and the
    process ends with the code of the [std::exit] that interrupts the sweep
    otherwise. *)
Lemma SimdCopy_main_sweeps fuel o clock source_data dest_data w :
  opt_num_floats o <= opt_total_floats o ->
  SimdCopy.main fuel (Some o) clock source_data dest_data w
  = finish (for_each sweep_offsets
              (SimdCopy.sweep_row fuel (set_globals o) clock source_data dest_data)
              (startup 256 SimdCopy.columns o source_data dest_data w)).
Proof.
  intros H. unfold SimdCopy.main.
  cbn [set_globals gTotalFloats gNumFloats gHtmlOut gCheckValue].
  apply Z.ltb_ge in H. rewrite H.
  unfold bind at 1, emit at 1. unfold bind at 1, update_mem at 1.
  unfold bind at 1, update_mem at 1. unfold bind at 1, emit at 1.
  cbn [w_mem w_trace]. unfold bind at 1. unfold startup.
  destruct (for_each _ _ _) as [[] w2|code w2| |]; reflexivity.
Qed.

Lemma SimdMult_main_sweeps avx fuel o clock source_data dest_data w :
  opt_num_floats o <= opt_total_floats o ->
  SimdMult.main avx fuel (Some o) clock source_data dest_data w
  = finish (for_each sweep_offsets
              (SimdMult.sweep_row avx fuel (set_globals o) clock source_data dest_data)
              (startup 4096 SimdMult.columns o source_data dest_data w)).
Proof.
  intros H. unfold SimdMult.main.
  cbn [set_globals gTotalFloats gNumFloats gHtmlOut gCheckValue].
  apply Z.ltb_ge in H. rewrite H.
  unfold bind at 1, emit at 1. unfold bind at 1, update_mem at 1.
  unfold bind at 1, update_mem at 1. unfold bind at 1, emit at 1.
  cbn [w_mem w_trace]. unfold bind at 1. unfold startup.
  destruct (for_each _ _ _) as [[] w2|code w2| |]; reflexivity.
Qed.

(** The sweep starts with the row of offset 4. *)
Lemma sweep_starts_at_offset_4 (body : Z -> M unit) :
  for_each sweep_offsets body
  = (body 4 ;; for_each (map Z.of_nat (seq 5 60)) body).
Proof. reflexivity. Qed.

(** C4. With [total-floats = 1] below [num-floats = 2] both programs print
    the diagnostic and the usage text on [std::cerr], print nothing on
    [std::cout], and return 0 from [main], where the other configuration
    error, an option that fails to parse, ends the process with code 1. *)
Theorem total_below_num_returns_zero :
  let clock := marking_clock "for-loop" in
  let bad := Some (command_line 2 1 f32_one true) in
  let copy := SimdCopy.main 300 bad clock 4096 65536 (boot zeroed) in
  let mult := SimdMult.main true 300 bad clock 4096 65536 (boot zeroed) in
  exit_code copy = Some 0 /\
  option_map (fun w => stderr (w_trace w)) (final_world copy)
  = Some [ErrTotalLessThanNum; ErrUsage] /\
  option_map (fun w => stdout (w_trace w)) (final_world copy) = Some [] /\
  exit_code mult = Some 0 /\
  option_map (fun w => stderr (w_trace w)) (final_world mult)
  = Some [ErrTotalLessThanNum; ErrUsage] /\
  option_map (fun w => stdout (w_trace w)) (final_world mult) = Some [] /\
  exit_code (SimdCopy.main 300 None clock 4096 65536 (boot zeroed)) = Some 1 /\
  exit_code (SimdMult.main true 300 None clock 4096 65536 (boot zeroed)) = Some 1.
Proof.
  cbv zeta. evaluate.
Qed.

(** C6. In the copy program the placeholder runs are handed the source
    buffer as their destination, and the template zero-fills it: with
    [num-floats = 4] and check value 1, the source elements 1 to 4 (the
    working set at offset 4) hold 0 after the first row of the sweep, the
    sweep completes all the same, and at its end the source elements 1 to 5
    hold 0.  The first row of the multiply program leaves the elements of its
    source at the check value. *)
Theorem copy_sweep_zero_fills_the_source :
  let o := command_line 4 4 f32_one true in
  let clock := marking_clock "for-loop" in
  let copy_start := startup 256 SimdCopy.columns o 4096 65536 (boot zeroed) in
  let mult_start := startup 4096 SimdMult.columns o 4096 65536 (boot zeroed) in
  let copy_row := SimdCopy.sweep_row 300 (set_globals o) clock 4096 65536 4 copy_start in
  let mult_row := SimdMult.sweep_row true 300 (set_globals o) clock 4096 65536 4
                    mult_start in
  let copy := SimdCopy.main 300 (Some o) clock 4096 65536 (boot zeroed) in
  peek (w_mem copy_start) 4096 [0; 1; 2; 3; 4; 5]
  = [f32_one; f32_one; f32_one; f32_one; f32_one; f32_one] /\
  option_map (fun w => (peek (w_mem w) 4096 [0; 1; 2; 3; 4; 5], stderr (w_trace w)))
             (final_world copy_row)
  = Some ([f32_one; fzero; fzero; fzero; fzero; f32_one],
          [ErrTook "std::memcpy" 4 1; ErrTook "std::copy" 4 1;
           ErrTook "for-loop" 4 77; ErrTook "Unaligned Sse" 4 1;
           ErrTook "Unaligned Avx" 4 1; ErrTook "Aligned Sse" 4 1;
           ErrTook "Aligned Sse Stream" 4 1; ErrTook "Aligned Avx" 4 1;
           ErrTook "Aligned Avx Stream" 4 1]) /\
  (exit_code copy,
   option_map (fun w => peek (w_mem w) 4096 [0; 1; 2; 3; 4; 5]) (final_world copy))
  = (Some 0, Some [f32_one; fzero; fzero; fzero; fzero; fzero]) /\
  option_map (fun w => peek (w_mem w) 4096 [0; 1; 2; 3; 4; 5; 256; 257; 258; 259; 260; 261])
             (final_world mult_row)
  = Some [f32_one; f32_one; f32_one; f32_one; f32_one; f32_one;
          f32_one; f32_one; f32_one; f32_one; f32_one; f32_one].
Proof.
  cbv zeta. evaluate.
Qed.

(* ------------------------------------------------------------------------- *)
(** ** More on [align] *)

Lemma aligned_at_offset p k : 0 <= k <= 255 -> aligned_at p k mod 256 = k.
Proof.
  intros Hk. unfold aligned_at, gap. rewrite Zplus_mod_idemp_r.
  replace (p + (k - p)) with k by lia. apply Z.mod_small. lia.
Qed.

Lemma gap_of_aligned p k : 0 <= k <= 255 -> p mod 256 = k -> gap p k = 0.
Proof. intros Hk H. apply (proj1 (gap_zero p k ltac:(lia))). exact H. Qed.

(** X1. [align] is idempotent and leaves an aligned pointer where it is:
    the address it returns is returned unchanged when aligned again to the
    same offset, and a pointer that already sits at offset [k] is its own
    result. *)
Theorem align_is_idempotent (fuel : nat) (p k : Z) :
  addressable p -> 0 <= k <= 255 -> (256 <= fuel)%nat ->
  exists a,
    align fuel p k = Some a /\
    align fuel a k = Some a /\
    (p mod 256 = k -> a = p).
Proof.
  intros Hp Hk Hfuel. exists (aligned_at p k).
  pose proof (gap_range p k) as Hg. destruct Hp as [Hp0 Hp1].
  split; [apply align_value; [split|..]; assumption|]. split.
  - unfold align, align_steps. rewrite align_loop_spec; try lia.
    + rewrite (gap_of_aligned _ _ Hk (aligned_at_offset p k Hk)), Z.add_0_r.
      cbn [option_map fst]. unfold size_wrap, aligned_at.
      rewrite Z.mod_small by lia. reflexivity.
    + unfold aligned_at. lia.
    + rewrite (gap_of_aligned _ _ Hk (aligned_at_offset p k Hk)). lia.
  - intros Hpk. unfold aligned_at. rewrite (gap_of_aligned p k Hk Hpk). lia.
Qed.

Lemma align_is_idempotent_witness :
  exists a,
    align 256 4101 16 = Some a /\
    align 256 a 16 = Some a /\
    (4101 mod 256 = 16 -> a = 4101).
Proof.
  apply (align_is_idempotent 256 4101 16); [split; [lia | reflexivity] | lia | lia].
Defined.

(** X2. The address [align] returns is congruent to the offset modulo every
    divisor of 256.  Two pointers aligned to the same offset are therefore
    equally aligned, and an offset that is a multiple of 16 or of 32 gives a
    16-byte or 32-byte aligned address: the test [alignment % 16 == 0] of the
    sweep is enough for all the pointers of a run. *)
Theorem align_preserves_the_offset_modulo_divisors (fuel : nat) (p q k b : Z) :
  addressable p -> addressable q -> 0 <= k <= 255 -> (256 <= fuel)%nat ->
  0 < b -> 256 mod b = 0 ->
  exists a a',
    align fuel p k = Some a /\ align fuel q k = Some a' /\
    a mod b = k mod b /\ a' mod b = k mod b /\
    (k mod b = 0 -> aligned_to b a = true /\ aligned_to b a' = true).
Proof.
  intros Hp Hq Hk Hfuel Hb Hdiv.
  exists (aligned_at p k), (aligned_at q k).
  split; [apply align_value; assumption|].
  split; [apply align_value; assumption|].
  assert (forall x, x mod 256 = k -> x mod b = k mod b) as Hcong.
  { intros x Hx. apply Z.mod_divide in Hdiv; [|lia]. destruct Hdiv as [c Hc].
    pose proof (Z.div_mod x 256 ltac:(lia)) as E. rewrite Hx in E. clear Hx.
    revert E. generalize (x / 256). intros t ->. rewrite Hc.
    replace (c * b * t + k) with (k + (c * t) * b) by lia.
    apply Z.mod_add. lia. }
  pose proof (Hcong _ (aligned_at_offset p k Hk)) as Ha.
  pose proof (Hcong _ (aligned_at_offset q k Hk)) as Ha'.
  split; [exact Ha|]. split; [exact Ha'|].
  intros Hz. unfold aligned_to. rewrite Ha, Ha', Hz. split; reflexivity.
Qed.

Lemma align_preserves_the_offset_modulo_divisors_witness :
  exists a a',
    align 256 4101 32 = Some a /\ align 256 65537 32 = Some a' /\
    a mod 16 = 32 mod 16 /\ a' mod 16 = 32 mod 16 /\
    (32 mod 16 = 0 -> aligned_to 16 a = true /\ aligned_to 16 a' = true).
Proof.
  apply (align_preserves_the_offset_modulo_divisors 256 4101 65537 32 16);
    try lia; try reflexivity; split; (lia || reflexivity).
Defined.

(** X3. Where no address from [p] up to the end of the address space sits
    at offset [k], the increment wraps around and [align] returns the address
    [k] itself, below [p]. *)
Theorem align_wraps_to_the_offset (fuel : nat) (p k : Z) :
  0 <= p < size_modulus -> 0 <= k <= 255 -> (256 <= fuel)%nat ->
  size_modulus <= p + gap p k ->
  align fuel p k = Some k /\ k < p.
Proof.
  intros Hp Hk Hfuel Hwrap. pose proof (gap_range p k) as Hg.
  pose proof size_modulus_value as HM.
  unfold align, align_steps. rewrite align_loop_spec by lia.
  cbn [option_map fst].
  assert (size_wrap (p + gap p k) = p + gap p k - size_modulus) as E.
  { unfold size_wrap.
    replace (p + gap p k) with (p + gap p k - size_modulus + 1 * size_modulus) at 1 by lia.
    rewrite Z.mod_add by lia.
    apply Z.mod_small. lia. }
  assert ((p + gap p k - size_modulus) mod 256 = k) as Hoff.
  { rewrite <- E, size_wrap_mod_256. apply (aligned_at_offset p k). lia. }
  assert (p + gap p k - size_modulus = k) as Hk'.
  { rewrite Z.mod_small in Hoff by lia. exact Hoff. }
  rewrite E, Hk'. split; [reflexivity | lia].
Qed.

Lemma align_wraps_to_the_offset_witness :
  align 256 (size_modulus - 3) 2 = Some 2 /\ 2 < size_modulus - 3.
Proof.
  apply (align_wraps_to_the_offset 256 (size_modulus - 3) 2);
    try lia; try (split; [discriminate | reflexivity]); vm_compute; discriminate.
Defined.

(* ------------------------------------------------------------------------- *)
(** ** More on the verification scan *)

(** X4. The scan passes exactly when no element of the first [n] compares
    unequal, and an answer [(i, x, y)] is given exactly when [i] is the first
    index that compares unequal, with [x] and [y] the two values found
    there. *)
Theorem verify_reports_exactly_the_first_mismatch n (actual expected : Z -> float) :
  (verify n actual expected = None <->
   forall j, 0 <= j < n -> fne (actual j) (expected j) = false) /\
  (forall i x y,
     verify n actual expected = Some (i, x, y) <->
     first_mismatch n actual expected i /\ x = actual i /\ y = expected i).
Proof.
  split.
  - split; [|apply verify_pass].
    intros Hnone j Hj.
    destruct (fne (actual j) (expected j)) eqn:E; [|reflexivity].
    exfalso. unfold verify in Hnone. rewrite indices_seq in Hnone.
    destruct (find _ _) as [i|] eqn:F; [discriminate|].
    pose proof (find_none _ _ F j) as Hj'. cbn beta in Hj'.
    rewrite Hj' in E; [discriminate|].
    apply in_map_iff. exists (Z.to_nat j). split; [lia|]. apply in_seq. lia.
  - intros i x y. split; [apply verify_some_inv|].
    intros [Hfirst [-> ->]]. apply verify_first_mismatch. exact Hfirst.
Qed.

(* ------------------------------------------------------------------------- *)
(** ** The kernels off their intended working sets *)

Lemma rounded_up_spec w n :
  0 < w -> 0 <= n ->
  rounded_up w n - w < n <= rounded_up w n /\ rounded_up w n mod w = 0 /\
  0 <= rounded_up w n.
Proof.
  intros Hw Hn. unfold rounded_up.
  pose proof (Z.div_mod (n + w - 1) w ltac:(lia)) as E.
  pose proof (Z.mod_pos_bound (n + w - 1) w Hw) as B.
  assert (0 <= (n + w - 1) / w) by (apply Z.div_pos; lia).
  split; [nia|]. split; [|nia].
  rewrite Z.mul_comm. apply Z.mod_mul. lia.
Qed.

(** X5. A vector kernel handed a working set that is not a whole number of
    registers rounds it up: it overwrites the destination elements up to the
    next multiple of its width (4 for SSE, 8 for AVX) with the corresponding
    source elements (or products), and changes no float that shares no byte
    with them. *)
Theorem vector_kernels_round_the_working_set_up :
  (forall (f : SimdCopy.kernel) g d s m,
     SimdCopy.width f <> 1 ->
     0 <= gNumFloats g ->
     rounded_up (SimdCopy.width f) (gNumFloats g) <= INT_MAX ->
     d mod SimdCopy.granularity f = 0 -> s mod SimdCopy.granularity f = 0 ->
     apart (rounded_up (SimdCopy.width f) (gNumFloats g)) d s ->
     exists m',
       SimdCopy.call f g d s m = Some m' /\
       (forall i, 0 <= i < rounded_up (SimdCopy.width f) (gNumFloats g) ->
          m' (elem d i) = m (elem s i)) /\
       (forall x, clear_of d (rounded_up (SimdCopy.width f) (gNumFloats g)) x ->
          m' x = m x)) /\
  (forall (f : SimdMult.kernel) g d a b m,
     SimdMult.width f <> 1 ->
     0 <= gNumFloats g ->
     rounded_up (SimdMult.width f) (gNumFloats g) <= INT_MAX ->
     d mod SimdMult.granularity f = 0 ->
     a mod SimdMult.granularity f = 0 -> b mod SimdMult.granularity f = 0 ->
     apart (rounded_up (SimdMult.width f) (gNumFloats g)) d a ->
     apart (rounded_up (SimdMult.width f) (gNumFloats g)) d b ->
     exists m',
       SimdMult.call f g d a b m = Some m' /\
       (forall i, 0 <= i < rounded_up (SimdMult.width f) (gNumFloats g) ->
          m' (elem d i) = fmul (m (elem a i)) (m (elem b i))) /\
       (forall x, clear_of d (rounded_up (SimdMult.width f) (gNumFloats g)) x ->
          m' x = m x)).
Proof.
  assert (forall d N val m (r : option mem),
            (exists m', r = Some m' /\ writes d 0 N val m m') ->
            exists m', r = Some m' /\
              (forall i, 0 <= i < N -> m' (elem d i) = val i) /\
              (forall x, clear_of d N x -> m' x = m x)) as Hclear.
  { intros d N val m r [m' [Hr [Hin Hout]]]. exists m'.
    split; [exact Hr|]. split; [exact Hin|].
    intros x Hx. apply Hout. intros i Hi. unfold clear_of, elem in *. lia. }
  split.
  - intros f g d s m Hw Hn Hint Hd Hs Hapart.
    destruct f; cbn [SimdCopy.width SimdCopy.granularity SimdCopy.call] in *;
      try (exfalso; apply Hw; reflexivity);
      cbv beta delta [SimdCopy.UnalignedSseCopy SimdCopy.AlignedSseCopy
                      SimdCopy.AlignedSseNonTemporalCopy SimdCopy.UnalignedAvxCopy
                      SimdCopy.AlignedAvxCopy SimdCopy.AlignedAvxNonTemporalCopy];
      cbv zeta.
    + destruct (rounded_up_spec 4 (gNumFloats g)) as (? & ? & ?); try lia.
      apply Hclear; apply (vector_copy_loop 4); try assumption; try lia. vector_step 16 4.
    + destruct (rounded_up_spec 4 (gNumFloats g)) as (? & ? & ?); try lia.
      apply Hclear; apply (vector_copy_loop 4); try assumption; try lia. vector_step 16 4.
    + destruct (rounded_up_spec 4 (gNumFloats g)) as (? & ? & ?); try lia.
      apply Hclear; apply (vector_copy_loop 4); try assumption; try lia. vector_step 16 4.
    + destruct (rounded_up_spec 8 (gNumFloats g)) as (? & ? & ?); try lia.
      apply Hclear; apply (vector_copy_loop 8); try assumption; try lia. vector_step 32 8.
    + destruct (rounded_up_spec 8 (gNumFloats g)) as (? & ? & ?); try lia.
      apply Hclear; apply (vector_copy_loop 8); try assumption; try lia. vector_step 32 8.
    + destruct (rounded_up_spec 8 (gNumFloats g)) as (? & ? & ?); try lia.
      apply Hclear; apply (vector_copy_loop 8); try assumption; try lia. vector_step 32 8.
  - intros f g d a b m Hw Hn Hint Hd Ha Hb Hda Hdb.
    destruct f; cbn [SimdMult.width SimdMult.granularity SimdMult.call] in *;
      try (exfalso; apply Hw; reflexivity);
      cbv beta delta [SimdMult.UnalignedSseMult SimdMult.AlignedSseMult
                      SimdMult.AlignedSseNonTemporalMult SimdMult.UnalignedAvxMult
                      SimdMult.AlignedAvxMult SimdMult.AlignedAvxNonTemporalMult];
      cbv zeta.
    + destruct (rounded_up_spec 4 (gNumFloats g)) as (? & ? & ?); try lia.
      apply Hclear; apply (vector_mult_loop 4); try assumption; try lia. vector_step 16 4.
    + destruct (rounded_up_spec 4 (gNumFloats g)) as (? & ? & ?); try lia.
      apply Hclear; apply (vector_mult_loop 4); try assumption; try lia. vector_step 16 4.
    + destruct (rounded_up_spec 4 (gNumFloats g)) as (? & ? & ?); try lia.
      apply Hclear; apply (vector_mult_loop 4); try assumption; try lia. vector_step 16 4.
    + destruct (rounded_up_spec 8 (gNumFloats g)) as (? & ? & ?); try lia.
      apply Hclear; apply (vector_mult_loop 8); try assumption; try lia. vector_step 32 8.
    + destruct (rounded_up_spec 8 (gNumFloats g)) as (? & ? & ?); try lia.
      apply Hclear; apply (vector_mult_loop 8); try assumption; try lia. vector_step 32 8.
    + destruct (rounded_up_spec 8 (gNumFloats g)) as (? & ? & ?); try lia.
      apply Hclear; apply (vector_mult_loop 8); try assumption; try lia. vector_step 32 8.
Qed.

Lemma vector_kernels_round_the_working_set_up_witness :
  let m := fill 8 4096 f32_two (fill 8 65536 f32_three zeroed) in
  exists m',
    SimdCopy.call SimdCopy.fnUnalignedAvxCopy (tunables 5 5 f32_one true)
                  65536 4096 m = Some m' /\
    (forall i, 0 <= i < 8 -> m' (elem 65536 i) = m (elem 4096 i)) /\
    (forall x, clear_of 65536 8 x -> m' x = m x).
Proof.
  destruct vector_kernels_round_the_working_set_up as [Hcopy _].
  intros m.
  apply (Hcopy SimdCopy.fnUnalignedAvxCopy (tunables 5 5 f32_one true) 65536 4096 m).
  - discriminate.
  - discriminate.
  - vm_compute. discriminate.
  - reflexivity.
  - reflexivity.
  - right. vm_compute. discriminate.
Defined.

(** X6. The aligned and the streaming kernels fault at their first load or
    store when one of their pointers is not aligned to the register size (16
    bytes for SSE, 32 for AVX) and the working set is not empty; nothing is
    written. *)
Theorem aligned_kernels_fault_on_misaligned_pointers :
  (forall (f : SimdCopy.kernel) g d s m,
     SimdCopy.granularity f <> 1 ->
     0 < gNumFloats g < size_modulus ->
     d mod SimdCopy.granularity f <> 0 \/ s mod SimdCopy.granularity f <> 0 ->
     SimdCopy.call f g d s m = None) /\
  (forall (f : SimdMult.kernel) g d a b m,
     SimdMult.granularity f <> 1 ->
     0 < gNumFloats g < size_modulus ->
     d mod SimdMult.granularity f <> 0 \/ a mod SimdMult.granularity f <> 0 \/
     b mod SimdMult.granularity f <> 0 ->
     SimdMult.call f g d a b m = None).
Proof.
  assert (forall n, 0 < n < size_modulus -> (size_wrap 0 <? n) = true) as Henter.
  { intros n Hn. unfold size_wrap. rewrite Z.mod_0_l by (rewrite size_modulus_value; lia).
    apply Z.ltb_lt. lia. }
  assert (forall bytes p, aligned_to bytes (elem p 0) = (p mod bytes =? 0)) as Hal.
  { intros bytes p. unfold aligned_to, elem. rewrite Z.mul_0_r, Z.add_0_r. reflexivity. }
  split.
  - intros f g d s m Hg Hn Hmis.
    destruct f; cbn [SimdCopy.granularity SimdCopy.call] in *;
      try (exfalso; apply Hg; reflexivity);
      cbv beta delta [SimdCopy.AlignedSseCopy SimdCopy.AlignedSseNonTemporalCopy
                      SimdCopy.AlignedAvxCopy SimdCopy.AlignedAvxNonTemporalCopy
                      loop_fuel]; cbv zeta;
      cbn [for_int]; rewrite (Henter _ Hn);
      cbv beta delta [_mm_load_ps _mm_store_ps _mm_stream_ps
                      _mm256_load_ps _mm256_store_ps _mm256_stream_ps];
      rewrite !Hal;
      destruct Hmis as [H|H]; apply Z.eqb_neq in H; rewrite H;
      try reflexivity;
      match goal with |- context [?x mod ?y =? 0] => destruct (x mod y =? 0) end;
      reflexivity.
  - intros f g d a b m Hg Hn Hmis.
    destruct f; cbn [SimdMult.granularity SimdMult.call] in *;
      try (exfalso; apply Hg; reflexivity);
      cbv beta delta [SimdMult.AlignedSseMult SimdMult.AlignedSseNonTemporalMult
                      SimdMult.AlignedAvxMult SimdMult.AlignedAvxNonTemporalMult
                      loop_fuel]; cbv zeta;
      cbn [for_int]; rewrite (Henter _ Hn);
      cbv beta delta [_mm_load_ps _mm_store_ps _mm_stream_ps
                      _mm256_load_ps _mm256_store_ps _mm256_stream_ps];
      rewrite !Hal;
      destruct Hmis as [H|[H|H]]; apply Z.eqb_neq in H; rewrite H;
      try reflexivity;
      repeat match goal with
             | |- context [?x mod ?y =? 0] => destruct (x mod y =? 0); cbn [obind]
             end;
      reflexivity.
Qed.

Lemma aligned_kernels_fault_on_misaligned_pointers_witness :
  SimdCopy.call SimdCopy.fnAlignedSseCopy (tunables 4 4 f32_one true)
                65540 4096 zeroed = None.
Proof.
  destruct aligned_kernels_fault_on_misaligned_pointers as [Hcopy _].
  apply (Hcopy SimdCopy.fnAlignedSseCopy (tunables 4 4 f32_one true) 65540 4096 zeroed).
  - discriminate.
  - split; reflexivity.
  - left. vm_compute. discriminate.
Defined.

(** X7. The loops of the kernels count with an [int] against the
    [std::size_t] working-set size: for a working set of more than [INT_MAX]
    floats the counter overflows before the loop ends, so no kernel with a
    loop of its own has a defined outcome. *)
Theorem loop_kernels_overflow_their_counter :
  (forall (f : SimdCopy.kernel) g d s m,
     f <> SimdCopy.fnMemCopy -> f <> SimdCopy.fnStdCopy -> f <> SimdCopy.fnNullCopy ->
     INT_MAX < gNumFloats g < size_modulus ->
     SimdCopy.call f g d s m = None) /\
  (forall (f : SimdMult.kernel) g d a b m,
     f <> SimdMult.fnNullMult ->
     INT_MAX < gNumFloats g < size_modulus ->
     SimdMult.call f g d a b m = None).
Proof.
  assert (0 <= 0 <= INT_MAX) as H0 by (rewrite INT_MAX_value; lia).
  split.
  - intros f g d s m H1 H2 H3 Hn.
    destruct f; try contradiction; cbn [SimdCopy.call];
      cbv beta delta [SimdCopy.SimpleCopy SimdCopy.UnalignedSseCopy
                      SimdCopy.AlignedSseCopy SimdCopy.AlignedSseNonTemporalCopy
                      SimdCopy.UnalignedAvxCopy SimdCopy.AlignedAvxCopy
                      SimdCopy.AlignedAvxNonTemporalCopy]; cbv zeta;
      rewrite for_int_beyond_INT_MAX by (assumption || lia); reflexivity.
  - intros f g d a b m H1 Hn.
    destruct f; try contradiction; cbn [SimdMult.call];
      cbv beta delta [SimdMult.NiaveMult SimdMult.UnalignedSseMult
                      SimdMult.AlignedSseMult SimdMult.AlignedSseNonTemporalMult
                      SimdMult.UnalignedAvxMult SimdMult.AlignedAvxMult
                      SimdMult.AlignedAvxNonTemporalMult]; cbv zeta;
      rewrite for_int_beyond_INT_MAX by (assumption || lia); reflexivity.
Qed.

Lemma loop_kernels_overflow_their_counter_witness :
  SimdCopy.call SimdCopy.fnSimpleCopy (tunables (2 ^ 31) (2 ^ 31) f32_one true)
                65536 4096 zeroed = None.
Proof.
  destruct loop_kernels_overflow_their_counter as [Hcopy _].
  apply (Hcopy SimdCopy.fnSimpleCopy (tunables (2 ^ 31) (2 ^ 31) f32_one true)
           65536 4096 zeroed); try discriminate.
  split; reflexivity.
Defined.

(* ------------------------------------------------------------------------- *)
(** ** Runs of the real kernels *)

Lemma fne_same (x : float) : x <> S754_nan -> fne x x = false.
Proof.
  intros Hx. unfold fne, SFeqb, SFcompare.
  destruct x as [s|s| |s m e]; try reflexivity.
  - destruct s; reflexivity.
  - contradiction.
  - destruct s; rewrite Z.compare_refl, Pos.compare_cont_refl; reflexivity.
Qed.

Lemma fne_nan_r (x : float) : fne x S754_nan = true.
Proof. destruct x; reflexivity. Qed.

Lemma fill_writes n p v m :
  0 <= n -> writes p 0 n (fun _ => v) m (fill n p v m).
Proof.
  intros Hn. unfold fill. rewrite indices_seq.
  assert (forall k : nat, Z.of_nat k <= n ->
            writes p 0 (Z.of_nat k) (fun _ => v) m
              (fold_left (fun m i => store m (elem p i) v)
                         (map Z.of_nat (seq 0 k)) m)) as H.
  { induction k as [|k IH]; intros Hk.
    - cbn. apply writes_empty.
    - rewrite seq_S, map_app, fold_left_app. cbn [seq map fold_left Nat.add].
      specialize (IH ltac:(lia)).
      set (mk := fold_left (fun m i => store m (elem p i) v)
                           (map Z.of_nat (seq 0 k)) m) in *.
      apply (writes_join p 0 (Z.of_nat k) (Z.of_nat (S k)) _ (fun _ => v) _ mk);
        [lia | exact IH | | reflexivity].
      replace (Z.of_nat (S k)) with (Z.of_nat k + 1) by lia.
      apply store_writes. reflexivity. }
  replace n with (Z.of_nat (Z.to_nat n)) at 1 by lia. apply H. lia.
Qed.

Lemma aligned_at_mod b p k :
  0 < b -> 256 mod b = 0 -> 0 <= k <= 255 -> aligned_at p k mod b = k mod b.
Proof.
  intros Hb Hdiv Hk. pose proof (aligned_at_offset p k Hk) as Hx.
  apply Z.mod_divide in Hdiv; [|lia]. destruct Hdiv as [c Hc].
  pose proof (Z.div_mod (aligned_at p k) 256 ltac:(lia)) as E. rewrite Hx in E.
  revert E. generalize (aligned_at p k / 256). generalize (aligned_at p k).
  intros x t ->. rewrite Hc.
  replace (c * b * t + k) with (k + (c * t) * b) by lia.
  apply Z.mod_add. lia.
Qed.

Lemma copy_granularity_divides (f : SimdCopy.kernel) :
  0 < SimdCopy.granularity f /\ 256 mod SimdCopy.granularity f = 0.
Proof. destruct f; split; reflexivity. Qed.

Lemma mult_granularity_divides (f : SimdMult.kernel) :
  0 < SimdMult.granularity f /\ 256 mod SimdMult.granularity f = 0.
Proof. destruct f; split; reflexivity. Qed.

(** Repeating an operation that rewrites the same destination elements from
    values that do not depend on the destination. *)
Section RepeatedCalls.
Variables (f : mem -> option mem) (d n : Z) (val : mem -> Z -> float).

Hypothesis f_spec : forall m, exists m', f m = Some m' /\ writes d 0 n (val m) m m'.
Hypothesis val_frame : forall m m' i,
  0 <= i < n ->
  (forall x, (forall k, 0 <= k < n -> x <> elem d k) -> m' x = m x) ->
  val m' i = val m i.

Lemma repeat_call_frame : forall (K : nat) (m : mem),
  exists m2, repeat_call K f m = Some m2 /\
             (forall x, (forall k, 0 <= k < n -> x <> elem d k) -> m2 x = m x).
Proof.
  induction K as [|K IH]; intros m; cbn [repeat_call].
  - exists m. split; [reflexivity | trivial].
  - destruct (f_spec m) as [m1 [Hf [_ Hout]]]. rewrite Hf. cbn [obind].
    destruct (IH m1) as [m2 [Hrun Hout2]].
    exists m2. split; [exact Hrun|].
    intros x Hx. rewrite Hout2 by exact Hx. apply Hout. exact Hx.
Qed.

Lemma repeat_call_writes : forall (K : nat) (m : mem),
  (0 < K)%nat ->
  exists m2, repeat_call K f m = Some m2 /\ writes d 0 n (val m) m m2.
Proof.
  induction K as [|K IH]; intros m HK; [lia|]. cbn [repeat_call].
  destruct (f_spec m) as [m1 [Hf [Hin Hout]]]. rewrite Hf. cbn [obind].
  destruct K as [|K].
  - cbn [repeat_call]. exists m1. split; [reflexivity|]. split; assumption.
  - destruct (IH m1 ltac:(lia)) as [m2 [Hrun [Hin2 Hout2]]].
    exists m2. split; [exact Hrun|]. split.
    + intros i Hi. rewrite Hin2 by exact Hi. apply val_frame; assumption.
    + intros x Hx. rewrite Hout2 by exact Hx. apply Hout. exact Hx.
Qed.
End RepeatedCalls.

Lemma passes_positive g :
  0 < gNumFloats g -> 0 < gTotalFloats g -> (0 < Z.to_nat (passes g))%nat.
Proof.
  intros Hn Ht. destruct (passes_bounds g Hn ltac:(lia)) as [H0 [Hlo Hhi]].
  assert (0 < passes g) by nia. lia.
Qed.

(** X8. A run of the copy program with any of its real kernels succeeds
    when the tunables suit the kernel: with at least one pass to make, a
    working set that is a multiple of the kernel's width and fits an [int],
    an offset that the kernel's alignment divides, buffers that stay apart
    after alignment and a source free of NaN, the run returns normally, makes
    one call per pass, passes verification, writes its elapsed-time line and
    its table cell, and leaves the destination's working set equal to the
    source's, every float that shares no byte with it untouched. *)
Theorem SimdCopy_run_of_a_kernel_succeeds
    fuel g time (f : SimdCopy.kernel) name k d s w :
  f <> SimdCopy.fnNullCopy ->
  countable g fuel -> 0 < gTotalFloats g ->
  0 <= k <= 255 -> k mod SimdCopy.granularity f = 0 ->
  addressable d -> addressable s ->
  gNumFloats g <= INT_MAX -> gNumFloats g mod SimdCopy.width f = 0 ->
  apart (gNumFloats g) (aligned_at d k) (aligned_at s k) ->
  (forall i, 0 <= i < gNumFloats g ->
     w_mem w (elem (aligned_at s k) i) <> S754_nan) ->
  exists w',
    SimdCopy.Run fuel g time (SimdCopy.call f) name k d s w = Ok tt w' /\
    w_trace w' = (w_trace w ++ repeat (Invoke name) (Z.to_nat (passes g)))
                 ++ [Verify name; Cerr (ErrTook name k time); Cout (OutTime time)] /\
    (forall i, 0 <= i < gNumFloats g ->
       w_mem w' (elem (aligned_at d k) i) = w_mem w (elem (aligned_at s k) i)) /\
    (forall x, clear_of (aligned_at d k) (gNumFloats g) x -> w_mem w' x = w_mem w x).
Proof.
  intros Hf Hc Ht Hk Hgran Hd Hs Hint Hmod Hapart Hnan.
  pose proof Hc as (Hn & _).
  destruct (copy_granularity_divides f) as [Hg0 Hg256].
  assert (aligned_at d k mod SimdCopy.granularity f = 0) as Hda
    by (rewrite aligned_at_mod by assumption; exact Hgran).
  assert (aligned_at s k mod SimdCopy.granularity f = 0) as Hsa
    by (rewrite aligned_at_mod by assumption; exact Hgran).
  set (d' := aligned_at d k) in *. set (s' := aligned_at s k) in *.
  destruct (fill_writes (gNumFloats g) d' fzero (w_mem w) ltac:(lia)) as [_ Hfill].
  destruct (repeat_call_writes (SimdCopy.call f g d' s') d' (gNumFloats g)
              (fun m i => m (elem s' i))) with (K := Z.to_nat (passes g))
              (m := fill (gNumFloats g) d' fzero (w_mem w))
    as [m2 [Hrun [Hin Hout]]].
  - intros m. apply copy_kernels_write; try assumption. lia.
  - intros m m' i Hi Hframe. apply Hframe.
    intros j Hj. unfold apart, elem in *. lia.
  - apply passes_positive; assumption.
  - assert (forall i, 0 <= i < gNumFloats g ->
              m2 (elem s' i) = w_mem w (elem s' i)) as Hsrc.
    { intros i Hi. rewrite Hout by (intros j Hj; unfold apart, elem in *; lia).
      apply Hfill. intros j Hj. unfold apart, elem in *. lia. }
    assert (forall i, 0 <= i < gNumFloats g ->
              m2 (elem d' i) = w_mem w (elem s' i)) as Hdst.
    { intros i Hi. rewrite Hin by exact Hi.
      apply Hfill. intros j Hj. unfold apart, elem in *. lia. }
    rewrite (SimdCopy_Run_outcome fuel g time (SimdCopy.call f) name k d s w m2)
      by assumption.
    fold d' s'. rewrite verify_pass.
    + eexists. split; [reflexivity|]. cbn [w_trace w_mem].
      split; [reflexivity|]. split; [exact Hdst|].
      intros x Hx.
      assert (forall i, 0 <= i < gNumFloats g -> x <> elem d' i) as Hx'
        by (intros i Hi; unfold clear_of, elem in *; lia).
      rewrite Hout by exact Hx'. apply Hfill. exact Hx'.
    + intros j Hj. rewrite Hdst, Hsrc by exact Hj. apply fne_same. apply Hnan. exact Hj.
Qed.

Lemma SimdCopy_run_of_a_kernel_succeeds_witness :
  exists w',
    SimdCopy.Run 300 (tunables 4 8 f32_one true) 7
                 (SimdCopy.call SimdCopy.fnAlignedSseCopy) "Aligned Sse" 16
                 65536 4096 (boot (fill 260 4096 f32_one zeroed)) = Ok tt w' /\
    w_trace w' = [Invoke "Aligned Sse"; Invoke "Aligned Sse"; Verify "Aligned Sse";
                  Cerr (ErrTook "Aligned Sse" 16 7); Cout (OutTime 7)].
Proof.
  destruct (SimdCopy_run_of_a_kernel_succeeds 300 (tunables 4 8 f32_one true) 7
              SimdCopy.fnAlignedSseCopy "Aligned Sse"%string 16 65536 4096
              (boot (fill 260 4096 f32_one zeroed)))
    as [w' [Hrun [Htrace _]]].
  - discriminate.
  - unfold countable. cbn. repeat split; try lia; reflexivity.
  - reflexivity.
  - lia.
  - reflexivity.
  - split; [lia | reflexivity].
  - split; [lia | reflexivity].
  - vm_compute. discriminate.
  - reflexivity.
  - right. vm_compute. discriminate.
  - intros i Hi. cbn in Hi.
    assert (i = 0 \/ i = 1 \/ i = 2 \/ i = 3) as [->|[->|[->| ->]]] by lia;
      vm_compute; discriminate.
  - exists w'. split; [exact Hrun | exact Htrace].
Defined.

(** X9. The same for the multiply program: a run of any real kernel, under
    the same conditions on the tunables and with products free of NaN,
    returns normally, passes verification, and leaves the destination's
    working set equal to the element-wise products of the two sources, every
    float that shares no byte with it untouched. *)
Theorem SimdMult_run_of_a_kernel_succeeds
    fuel g time (f : SimdMult.kernel) name k d a b w :
  f <> SimdMult.fnNullMult ->
  countable g fuel -> 0 < gTotalFloats g ->
  0 <= k <= 255 -> k mod SimdMult.granularity f = 0 ->
  addressable d -> addressable a -> addressable b ->
  gNumFloats g <= INT_MAX -> gNumFloats g mod SimdMult.width f = 0 ->
  apart (gNumFloats g) (aligned_at d k) (aligned_at a k) ->
  apart (gNumFloats g) (aligned_at d k) (aligned_at b k) ->
  (forall i, 0 <= i < gNumFloats g ->
     fmul (w_mem w (elem (aligned_at a k) i)) (w_mem w (elem (aligned_at b k) i))
     <> S754_nan) ->
  exists w',
    SimdMult.Run fuel g time f name k d a b w = Ok tt w' /\
    w_trace w' = (w_trace w ++ repeat (Invoke name) (Z.to_nat (passes g)))
                 ++ [Verify name; Cerr (ErrTook name k time); Cout (OutTime time)] /\
    (forall i, 0 <= i < gNumFloats g ->
       w_mem w' (elem (aligned_at d k) i)
       = fmul (w_mem w (elem (aligned_at a k) i)) (w_mem w (elem (aligned_at b k) i))) /\
    (forall x, clear_of (aligned_at d k) (gNumFloats g) x -> w_mem w' x = w_mem w x).
Proof.
  intros Hf Hc Ht Hk Hgran Hd Ha Hb Hint Hmod Hda Hdb Hnan.
  pose proof Hc as (Hn & _).
  destruct (mult_granularity_divides f) as [Hg0 Hg256].
  assert (aligned_at d k mod SimdMult.granularity f = 0) as Hdal
    by (rewrite aligned_at_mod by assumption; exact Hgran).
  assert (aligned_at a k mod SimdMult.granularity f = 0) as Haal
    by (rewrite aligned_at_mod by assumption; exact Hgran).
  assert (aligned_at b k mod SimdMult.granularity f = 0) as Hbal
    by (rewrite aligned_at_mod by assumption; exact Hgran).
  assert (SimdMult.Run fuel g time f name k d a b w
          = SimdMult.Run_template fuel g time (SimdMult.call f) name k d a b w) as ->
    by (destruct f; try reflexivity; contradiction).
  set (d' := aligned_at d k) in *. set (a' := aligned_at a k) in *.
  set (b' := aligned_at b k) in *.
  destruct (fill_writes (gNumFloats g) d' fzero (w_mem w) ltac:(lia)) as [_ Hfill].
  destruct (repeat_call_writes (SimdMult.call f g d' a' b') d' (gNumFloats g)
              (fun m i => fmul (m (elem a' i)) (m (elem b' i))))
              with (K := Z.to_nat (passes g))
                   (m := fill (gNumFloats g) d' fzero (w_mem w))
    as [m2 [Hrun [Hin Hout]]].
  - intros m. apply mult_kernels_write; try assumption. lia.
  - intros m m' i Hi Hframe. f_equal; apply Hframe;
      intros j Hj; unfold apart, elem in *; lia.
  - apply passes_positive; assumption.
  - assert (forall p i, apart (gNumFloats g) d' p -> 0 <= i < gNumFloats g ->
              m2 (elem p i) = w_mem w (elem p i)) as Hsrc.
    { intros p i Hp Hi. rewrite Hout by (intros j Hj; unfold apart, elem in *; lia).
      apply Hfill. intros j Hj. unfold apart, elem in *. lia. }
    assert (forall i, 0 <= i < gNumFloats g ->
              m2 (elem d' i) = fmul (w_mem w (elem a' i)) (w_mem w (elem b' i))) as Hdst.
    { intros i Hi. rewrite Hin by exact Hi.
      f_equal; apply Hfill; intros j Hj; unfold apart, elem in *; lia. }
    rewrite (SimdMult_Run_outcome fuel g time (SimdMult.call f) name k d a b w m2)
      by assumption.
    fold d' a' b'. rewrite verify_pass.
    + eexists. split; [reflexivity|]. cbn [w_trace w_mem].
      split; [reflexivity|]. split; [exact Hdst|].
      intros x Hx.
      assert (forall i, 0 <= i < gNumFloats g -> x <> elem d' i) as Hx'
        by (intros i Hi; unfold clear_of, elem in *; lia).
      rewrite Hout by exact Hx'. apply Hfill. exact Hx'.
    + intros j Hj. rewrite Hdst, !Hsrc by assumption. apply fne_same.
      apply Hnan. exact Hj.
Qed.

Lemma SimdMult_run_of_a_kernel_succeeds_witness :
  exists w',
    SimdMult.Run 300 (tunables 8 8 f32_two true) 7 SimdMult.fnAlignedAvxMult
                 "Aligned Avx" 32 65536 4096 (elem 4096 256)
                 (boot (fill 4104 4096 f32_two zeroed)) = Ok tt w' /\
    w_trace w' = [Invoke "Aligned Avx"; Verify "Aligned Avx";
                  Cerr (ErrTook "Aligned Avx" 32 7); Cout (OutTime 7)].
Proof.
  destruct (SimdMult_run_of_a_kernel_succeeds 300 (tunables 8 8 f32_two true) 7
              SimdMult.fnAlignedAvxMult "Aligned Avx"%string 32 65536 4096
              (elem 4096 256) (boot (fill 4104 4096 f32_two zeroed)))
    as [w' [Hrun [Htrace _]]].
  - discriminate.
  - unfold countable. cbn. repeat split; try lia; reflexivity.
  - reflexivity.
  - lia.
  - reflexivity.
  - split; [lia | reflexivity].
  - split; [lia | reflexivity].
  - split; [discriminate | reflexivity].
  - vm_compute. discriminate.
  - reflexivity.
  - right. vm_compute. discriminate.
  - right. vm_compute. discriminate.
  - intros i Hi. cbn in Hi.
    assert (i = 0 \/ i = 1 \/ i = 2 \/ i = 3 \/ i = 4 \/ i = 5 \/ i = 6 \/ i = 7)
      as [->|[->|[->|[->|[->|[->|[->| ->]]]]]]] by lia; vm_compute; discriminate.
  - exists w'. split; [exact Hrun | exact Htrace].
Defined.

(** X10. Verification compares with [!=], under which a NaN differs from
    itself: when the source's working set holds a NaN, a run of any real copy
    kernel copies it faithfully and still fails verification at the first
    NaN, reporting the pair (NaN, NaN) and ending the process with code 1
    without a table cell. *)
Theorem SimdCopy_run_fails_on_a_NaN_source
    fuel g time (f : SimdCopy.kernel) name k d s w i0 :
  f <> SimdCopy.fnNullCopy ->
  countable g fuel -> 0 < gTotalFloats g ->
  0 <= k <= 255 -> k mod SimdCopy.granularity f = 0 ->
  addressable d -> addressable s ->
  gNumFloats g <= INT_MAX -> gNumFloats g mod SimdCopy.width f = 0 ->
  apart (gNumFloats g) (aligned_at d k) (aligned_at s k) ->
  0 <= i0 < gNumFloats g ->
  w_mem w (elem (aligned_at s k) i0) = S754_nan ->
  (forall j, 0 <= j < i0 -> w_mem w (elem (aligned_at s k) j) <> S754_nan) ->
  exists w',
    SimdCopy.Run fuel g time (SimdCopy.call f) name k d s w = Exit 1 w' /\
    stderr (w_trace w') = stderr (w_trace w) ++ [ErrMismatch name S754_nan S754_nan] /\
    stdout (w_trace w') = stdout (w_trace w).
Proof.
  intros Hf Hc Ht Hk Hgran Hd Hs Hint Hmod Hapart Hi0 Hnan Hbefore.
  pose proof Hc as (Hn & _).
  destruct (copy_granularity_divides f) as [Hg0 Hg256].
  assert (aligned_at d k mod SimdCopy.granularity f = 0) as Hda
    by (rewrite aligned_at_mod by assumption; exact Hgran).
  assert (aligned_at s k mod SimdCopy.granularity f = 0) as Hsa
    by (rewrite aligned_at_mod by assumption; exact Hgran).
  set (d' := aligned_at d k) in *. set (s' := aligned_at s k) in *.
  destruct (fill_writes (gNumFloats g) d' fzero (w_mem w) ltac:(lia)) as [_ Hfill].
  destruct (repeat_call_writes (SimdCopy.call f g d' s') d' (gNumFloats g)
              (fun m i => m (elem s' i))) with (K := Z.to_nat (passes g))
              (m := fill (gNumFloats g) d' fzero (w_mem w))
    as [m2 [Hrun [Hin Hout]]].
  - intros m. apply copy_kernels_write; try assumption. lia.
  - intros m m' i Hi Hframe. apply Hframe.
    intros j Hj. unfold apart, elem in *. lia.
  - apply passes_positive; assumption.
  - assert (forall i, 0 <= i < gNumFloats g ->
              m2 (elem s' i) = w_mem w (elem s' i)) as Hsrc.
    { intros i Hi. rewrite Hout by (intros j Hj; unfold apart, elem in *; lia).
      apply Hfill. intros j Hj. unfold apart, elem in *. lia. }
    assert (forall i, 0 <= i < gNumFloats g ->
              m2 (elem d' i) = w_mem w (elem s' i)) as Hdst.
    { intros i Hi. rewrite Hin by exact Hi.
      apply Hfill. intros j Hj. unfold apart, elem in *. lia. }
    rewrite (SimdCopy_Run_outcome fuel g time (SimdCopy.call f) name k d s w m2)
      by assumption.
    fold d' s'. rewrite (verify_first_mismatch _ _ _ i0).
    + rewrite Hdst, Hsrc, Hnan by exact Hi0.
      eexists. split; [reflexivity|]. cbn [w_trace].
      rewrite !stdout_app, !stderr_app, stdout_repeat_invoke, stderr_repeat_invoke.
      cbn. rewrite !app_nil_r. split; reflexivity.
    + split; [exact Hi0|]. split.
      * rewrite Hdst, Hsrc, Hnan by exact Hi0. reflexivity.
      * intros j Hj. rewrite Hdst, Hsrc by lia. apply fne_same. apply Hbefore. exact Hj.
Qed.

Lemma SimdCopy_run_fails_on_a_NaN_source_witness :
  exists w',
    SimdCopy.Run 300 (tunables 4 4 S754_nan true) 7
                 (SimdCopy.call SimdCopy.fnMemCopy) "std::memcpy" 4
                 65536 4096 (boot (fill 260 4096 S754_nan zeroed)) = Exit 1 w' /\
    stderr (w_trace w') = [ErrMismatch "std::memcpy" S754_nan S754_nan].
Proof.
  destruct (SimdCopy_run_fails_on_a_NaN_source 300 (tunables 4 4 S754_nan true) 7
              SimdCopy.fnMemCopy "std::memcpy"%string 4 65536 4096
              (boot (fill 260 4096 S754_nan zeroed)) 0)
    as [w' [Hrun [Herr _]]].
  - discriminate.
  - unfold countable. cbn. repeat split; try lia; reflexivity.
  - reflexivity.
  - lia.
  - reflexivity.
  - split; [lia | reflexivity].
  - split; [lia | reflexivity].
  - vm_compute. discriminate.
  - reflexivity.
  - right. vm_compute. discriminate.
  - split; [lia | reflexivity].
  - vm_compute. reflexivity.
  - intros j Hj. lia.
  - exists w'. split; [exact Hrun | exact Herr].
Defined.

(* ------------------------------------------------------------------------- *)
(** ** What the programs print *)

Lemma prints_emit_cout o : prints (emit (Cout o)) [o].
Proof. intros w. cbn. rewrite stdout_app. reflexivity. Qed.

Lemma prints_emit_other e :
  (forall o, e <> Cout o) -> prints (emit e) [].
Proof.
  intros He w. cbn. rewrite stdout_app, app_nil_r.
  destruct e; try (rewrite app_nil_r; reflexivity).
  exfalso. apply (He o). reflexivity.
Qed.

Lemma prints_seq (c1 c2 : M unit) o1 o2 :
  prints c1 o1 -> prints c2 o2 -> prints (c1 ;; c2) (o1 ++ o2).
Proof.
  intros H1 H2 w. unfold bind. specialize (H1 w).
  destruct (c1 w) as [[] w1|code w1| |]; try exact I; [|exact H1].
  specialize (H2 w1).
  destruct (c2 w1) as [[] w2|code w2| |]; try exact I.
  - rewrite H2, H1, app_assoc. reflexivity.
  - exact H2.
Qed.

Lemma prints_nothing_then {A : Type} (c1 : M A) (c2 : A -> M unit) o2 :
  (forall w, match c1 w with
             | Ok _ w1 => stdout (w_trace w1) = stdout (w_trace w)
             | Exit _ _ => False
             | _ => True
             end) ->
  (forall a, prints (c2 a) o2) ->
  prints (bind c1 c2) o2.
Proof.
  intros H1 H2 w. unfold bind. specialize (H1 w).
  destruct (c1 w) as [a w1|code w1| |]; try exact I; [|contradiction].
  specialize (H2 a w1).
  destruct (c2 a w1) as [[] w2|code w2| |]; try exact I.
  - rewrite H2, H1. reflexivity.
  - exact H2.
Qed.

Lemma timed_loop_is_silent g name f : forall fuel i w,
  match timed_loop fuel g name f i w with
  | Ok _ w1 => stdout (w_trace w1) = stdout (w_trace w)
  | Exit _ _ => False
  | _ => True
  end.
Proof.
  induction fuel as [|fuel IH]; intros i w; cbn [timed_loop]; [exact I|].
  destruct (i <? gTotalFloats g); [|reflexivity].
  unfold bind at 1, emit at 1. unfold bind at 1, try_mem at 1. cbn [w_mem w_trace].
  destruct (f (w_mem w)) as [m'|]; [|exact I].
  match goal with |- match timed_loop _ _ _ _ ?j ?w0 with _ => _ end =>
    specialize (IH j w0); destruct (timed_loop fuel g name f j w0); try exact I
  end.
  - rewrite IH. cbn [w_trace]. rewrite stdout_app. cbn. apply app_nil_r.
  - contradiction.
Qed.

Lemma align_ptr_is_silent fuel p k w :
  match align_ptr fuel p k w with
  | Ok _ w1 => stdout (w_trace w1) = stdout (w_trace w)
  | Exit _ _ => False
  | _ => True
  end.
Proof. unfold align_ptr. destruct (align fuel p k); [reflexivity | exact I]. Qed.

Lemma prints_verdict name k time (v : option (Z * float * float)) :
  prints (match v with
          | Some (_, actual, expected) =>
              emit (Cerr (ErrMismatch name actual expected)) ;; std_exit 1
          | None =>
              emit (Cerr (ErrTook name k time)) ;; emit (Cout (OutTime time))
          end) [OutTime time].
Proof.
  intros w. destruct v as [[[i x] y]|]; cbn.
  - split; [reflexivity|]. exists (w_trace w), name, x, y. reflexivity.
  - rewrite !stdout_app. cbn. rewrite app_nil_r. reflexivity.
Qed.

(** A run of the copy program prints its elapsed time and nothing else,
    unless it ends the process on a mismatch. *)
Lemma SimdCopy_Run_prints fuel g time f name k d s :
  prints (SimdCopy.Run fuel g time f name k d s) [OutTime time].
Proof.
  unfold SimdCopy.Run.
  apply prints_nothing_then; [apply align_ptr_is_silent|]. intros d'.
  apply prints_nothing_then; [apply align_ptr_is_silent|]. intros s'.
  apply prints_nothing_then; [intros w; reflexivity|]. intros _.
  apply prints_nothing_then; [apply timed_loop_is_silent|]. intros _.
  apply prints_nothing_then.
  { intros w. cbn. rewrite stdout_app. cbn. apply app_nil_r. }
  intros _.
  apply prints_nothing_then; [intros w; reflexivity|]. intros m.
  apply prints_verdict.
Qed.

Lemma SimdMult_Run_prints fuel g time (f : SimdMult.kernel) name k d a b :
  prints (SimdMult.Run fuel g time f name k d a b)
         [match f with SimdMult.fnNullMult => OutZero | _ => OutTime time end].
Proof.
  assert (forall op, prints (SimdMult.Run_template fuel g time op name k d a b)
                            [OutTime time]) as Htemplate.
  { intros op. unfold SimdMult.Run_template.
    apply prints_nothing_then; [apply align_ptr_is_silent|]. intros d'.
    apply prints_nothing_then; [apply align_ptr_is_silent|]. intros a'.
    apply prints_nothing_then; [apply align_ptr_is_silent|]. intros b'.
    apply prints_nothing_then; [intros w; reflexivity|]. intros _.
    apply prints_nothing_then; [apply timed_loop_is_silent|]. intros _.
    apply prints_nothing_then.
    { intros w. cbn. rewrite stdout_app. cbn. apply app_nil_r. }
    intros _.
    apply prints_nothing_then; [intros w; reflexivity|]. intros m.
    apply prints_verdict. }
  destruct f; cbn [SimdMult.Run]; try apply Htemplate.
  unfold SimdMult.Run_NullMult. apply prints_emit_cout.
Qed.

Lemma prints_for_each {A : Type} (body : A -> M unit) (row : A -> list out_item) :
  (forall x, prints (body x) (row x)) ->
  forall l, prints (for_each l body) (flat_map row l).
Proof.
  intros Hbody. induction l as [|x l IH]; cbn [for_each flat_map].
  - intros w. cbn. rewrite app_nil_r. reflexivity.
  - apply prints_seq; [apply Hbody | exact IH].
Qed.

(** One cell, then the rest of the row. *)
Ltac one_cell :=
  match goal with
  | |- prints (_ ;; _) (?x :: ?l) => apply (prints_seq _ _ [x] l)
  end.

(** A gated pair of cells, then the rest of the row. *)
Ltac two_cells :=
  match goal with
  | |- prints (_ ;; _) (?x :: ?y :: ?l) => apply (prints_seq _ _ [x; y] l)
  end.

Ltac pair_of_runs lemma :=
  match goal with
  | |- prints (_ ;; _) [?x; ?y] => apply (prints_seq _ _ [x] [y]); apply lemma
  end.

Lemma SimdCopy_sweep_row_prints fuel g clock source_data dest_data k :
  prints (SimdCopy.sweep_row fuel g clock source_data dest_data k)
         (copy_row_cells clock k).
Proof.
  unfold SimdCopy.sweep_row, copy_row_cells. cbv zeta.
  cbn [SimdCopy.columns tl map].
  one_cell; [apply prints_emit_cout|].
  one_cell; [apply SimdCopy_Run_prints|].
  one_cell; [apply SimdCopy_Run_prints|].
  one_cell; [apply SimdCopy_Run_prints|].
  one_cell; [apply SimdCopy_Run_prints|].
  one_cell; [destruct (gHasAvx g); apply SimdCopy_Run_prints|].
  two_cells.
  - destruct (k mod 16 =? 0); pair_of_runs SimdCopy_Run_prints.
  - destruct ((k mod 32 =? 0) && gHasAvx g); pair_of_runs SimdCopy_Run_prints.
Qed.

Lemma SimdMult_sweep_row_prints avx fuel g clock source_data dest_data k :
  prints (SimdMult.sweep_row avx fuel g clock source_data dest_data k)
         (mult_row_cells avx g clock k).
Proof.
  unfold SimdMult.sweep_row, mult_row_cells. cbv zeta.
  one_cell; [apply prints_emit_cout|].
  one_cell; [apply (SimdMult_Run_prints _ _ _ SimdMult.fnNiaveMult)|].
  one_cell; [apply (SimdMult_Run_prints _ _ _ SimdMult.fnUnalignedSseMult)|].
  one_cell.
  { destruct (avx && gHasAvx g);
      [apply (SimdMult_Run_prints _ _ _ SimdMult.fnUnalignedAvxMult)
      |apply (SimdMult_Run_prints _ _ _ SimdMult.fnNullMult)]. }
  two_cells.
  - destruct (k mod 16 =? 0).
    + apply (prints_seq _ _ [_] [_]);
        [apply (SimdMult_Run_prints _ _ _ SimdMult.fnAlignedSseMult)
        |apply (SimdMult_Run_prints _ _ _ SimdMult.fnAlignedSseNonTemporalMult)].
    + apply (prints_seq _ _ [_] [_]);
        apply (SimdMult_Run_prints _ _ _ SimdMult.fnNullMult).
  - destruct (avx && ((k mod 32 =? 0) && gHasAvx g)).
    + apply (prints_seq _ _ [_] [_]);
        [apply (SimdMult_Run_prints _ _ _ SimdMult.fnAlignedAvxMult)
        |apply (SimdMult_Run_prints _ _ _ SimdMult.fnAlignedAvxNonTemporalMult)].
    + apply (prints_seq _ _ [_] [_]);
        apply (SimdMult_Run_prints _ _ _ SimdMult.fnNullMult).
Qed.

Lemma stdout_startup slack header o source_data dest_data w :
  stdout (w_trace (startup slack header o source_data dest_data w))
  = stdout (w_trace w) ++ [OutHtmlProlog; OutHeader header].
Proof.
  unfold startup. cbn [w_trace]. rewrite !stdout_app. cbn.
  rewrite <- app_assoc. reflexivity.
Qed.

(** How a run of [main] with its vectors in place can end. *)
Lemma SimdCopy_main_ends fuel (argv : option options) clock source_data dest_data w :
  match SimdCopy.main fuel argv clock source_data dest_data w with
  | Ok code _ => code = 0
  | Exit code w' =>
      code = 1 /\
      (ends_with (w_trace w') (Cerr ErrUsage) \/
       exists name x y, ends_with (w_trace w') (Cerr (ErrMismatch name x y)))
  | _ => True
  end.
Proof.
  destruct argv as [o|].
  - destruct (Z_lt_dec (opt_total_floats o) (opt_num_floats o)) as [Hlt|Hge].
    + rewrite SimdCopy_main_total_below_num by exact Hlt. reflexivity.
    + rewrite SimdCopy_main_sweeps by lia.
      pose proof (prints_for_each _ _
                    (SimdCopy_sweep_row_prints fuel (set_globals o) clock
                       source_data dest_data) sweep_offsets
                    (startup 256 SimdCopy.columns o source_data dest_data w)) as H.
      destruct (for_each _ _ _) as [[] w2|code w2| |]; cbn [finish]; try exact I;
        [reflexivity|].
      destruct H as [-> [pre [name [x [y Hpre]]]]]. split; [reflexivity|].
      right. exists name, x, y, pre. exact Hpre.
  - cbn. split; [reflexivity|]. left. exists (w_trace w). reflexivity.
Qed.

Lemma SimdMult_main_ends avx fuel (argv : option options) clock source_data dest_data w :
  match SimdMult.main avx fuel argv clock source_data dest_data w with
  | Ok code _ => code = 0
  | Exit code w' =>
      code = 1 /\
      (ends_with (w_trace w') (Cerr ErrUsage) \/
       exists name x y, ends_with (w_trace w') (Cerr (ErrMismatch name x y)))
  | _ => True
  end.
Proof.
  destruct argv as [o|].
  - destruct (Z_lt_dec (opt_total_floats o) (opt_num_floats o)) as [Hlt|Hge].
    + rewrite SimdMult_main_total_below_num by exact Hlt. reflexivity.
    + rewrite SimdMult_main_sweeps by lia.
      pose proof (prints_for_each _ _
                    (SimdMult_sweep_row_prints avx fuel (set_globals o) clock
                       source_data dest_data) sweep_offsets
                    (startup 4096 SimdMult.columns o source_data dest_data w)) as H.
      destruct (for_each _ _ _) as [[] w2|code w2| |]; cbn [finish]; try exact I;
        [reflexivity|].
      destruct H as [-> [pre [name [x [y Hpre]]]]]. split; [reflexivity|].
      right. exists name, x, y, pre. exact Hpre.
  - destruct avx; cbn; (split; [reflexivity|]); left;
      exists (w_trace w ++ [Cerr ErrParse]); reflexivity.
Qed.

(** Once both vectors are constructed the process is [main] on their
    storage. *)
Lemma SimdCopy_process_with_vectors fuel argv clock source_data dest_data w :
  SimdCopy.process fuel argv clock (Some source_data) (Some dest_data) w
  = (code <- SimdCopy.main fuel argv clock source_data dest_data ;; ret (Some code)) w.
Proof.
  destruct argv as [o|]; [|reflexivity].
  unfold SimdCopy.process, SimdCopy.main.
  cbn [set_globals gTotalFloats gNumFloats gHtmlOut gCheckValue].
  destruct (opt_total_floats o <? opt_num_floats o); [reflexivity|].
  unfold bind, emit, update_mem, ret. cbn [w_mem w_trace].
  destruct (for_each _ _ _) as [[] w2|code w2| |]; reflexivity.
Qed.

Lemma SimdMult_process_with_vectors avx fuel argv clock source_data dest_data w :
  SimdMult.process avx fuel argv clock (Some source_data) (Some dest_data) w
  = (code <- SimdMult.main avx fuel argv clock source_data dest_data ;;
     ret (Some code)) w.
Proof.
  destruct argv as [o|]; [|reflexivity].
  unfold SimdMult.process, SimdMult.main.
  cbn [set_globals gTotalFloats gNumFloats gHtmlOut gCheckValue].
  destruct (opt_total_floats o <? opt_num_floats o); [reflexivity|].
  unfold bind, emit, update_mem, ret. cbn [w_mem w_trace].
  destruct (for_each _ _ _) as [[] w2|code w2| |]; reflexivity.
Qed.

(** X12. Either program ends in one of three ways.  [main] returns, and then
    it returns 0 (after a completed sweep or after the [total-floats]
    diagnostic).  Or [std::exit] ends the process, and then the code is 1 and
    the last thing written is the usage text (an option did not parse) or a
    mismatch line (a run failed verification).  Or an exception leaves
    [main], and then it is one of the two vector constructors that threw,
    after the prologue and before any line of the table. *)
Theorem exit_codes_are_zero_and_one
    avx fuel (argv : option options) clock (source dest : option Z) w :
  let ends (r : result (option Z)) :=
    match r with
    | Ok (Some code) _ => code = 0
    | Ok None w' =>
        (source = None \/ dest = None) /\
        stdout (w_trace w') = stdout (w_trace w) ++ [OutHtmlProlog]
    | Exit code w' =>
        code = 1 /\
        (ends_with (w_trace w') (Cerr ErrUsage) \/
         exists name x y, ends_with (w_trace w') (Cerr (ErrMismatch name x y)))
    | _ => True
    end in
  ends (SimdCopy.process fuel argv clock source dest w) /\
  ends (SimdMult.process avx fuel argv clock source dest w).
Proof.
  cbv zeta.
  assert (forall w', stdout (w_trace w' ++ [Cout OutHtmlProlog])
                     = stdout (w_trace w') ++ [OutHtmlProlog]) as Hprolog
    by (intros w'; rewrite stdout_app; reflexivity).
  destruct source as [source_data|], dest as [dest_data|].
  - rewrite SimdCopy_process_with_vectors, SimdMult_process_with_vectors.
    unfold bind, ret. split.
    + pose proof (SimdCopy_main_ends fuel argv clock source_data dest_data w) as H.
      destruct (SimdCopy.main _ _ _ _ _ _) as [code w'|code w'| |]; exact H.
    + pose proof (SimdMult_main_ends avx fuel argv clock source_data dest_data w) as H.
      destruct (SimdMult.main _ _ _ _ _ _ _) as [code w'|code w'| |]; exact H.
  - destruct argv as [o|].
    + unfold SimdCopy.process, SimdMult.process.
      cbn [set_globals gTotalFloats gNumFloats gHtmlOut gCheckValue].
      destruct (opt_total_floats o <? opt_num_floats o); cbn.
      * split; reflexivity.
      * rewrite Hprolog. split; (split; [right; reflexivity | reflexivity]).
    + split.
      * cbn. split; [reflexivity|]. left. exists (w_trace w). reflexivity.
      * cbn. split; [reflexivity|]. left.
        exists (w_trace w ++ [Cerr ErrParse]). reflexivity.
  - destruct argv as [o|].
    + unfold SimdCopy.process, SimdMult.process.
      cbn [set_globals gTotalFloats gNumFloats gHtmlOut gCheckValue].
      destruct (opt_total_floats o <? opt_num_floats o); cbn.
      * split; reflexivity.
      * rewrite Hprolog. split; (split; [left; reflexivity | reflexivity]).
    + split.
      * cbn. split; [reflexivity|]. left. exists (w_trace w). reflexivity.
      * cbn. split; [reflexivity|]. left.
        exists (w_trace w ++ [Cerr ErrParse]). reflexivity.
  - destruct argv as [o|].
    + unfold SimdCopy.process, SimdMult.process.
      cbn [set_globals gTotalFloats gNumFloats gHtmlOut gCheckValue].
      destruct (opt_total_floats o <? opt_num_floats o); cbn.
      * split; reflexivity.
      * rewrite Hprolog. split; (split; [left; reflexivity | reflexivity]).
    + split.
      * cbn. split; [reflexivity|]. left. exists (w_trace w). reflexivity.
      * cbn. split; [reflexivity|]. left.
        exists (w_trace w ++ [Cerr ErrParse]). reflexivity.
Qed.

(** X13. When the copy program completes its sweep, its standard output is
    the prologue, the header, then for each offset from 4 to 64 one row made
    of the offset and nine elapsed times, one per column in the order of the
    header (the gated columns included: their placeholder runs are timed
    too), then the closing bracket and the epilogue.  Every row has as many
    entries as the header. *)
Theorem SimdCopy_prints_a_full_table fuel o clock source_data dest_data w :
  opt_num_floats o <= opt_total_floats o ->
  match SimdCopy.main fuel (Some o) clock source_data dest_data w with
  | Ok code w' =>
      code = 0 /\
      stdout (w_trace w')
      = stdout (w_trace w)
        ++ [OutHtmlProlog; OutHeader SimdCopy.columns]
        ++ flat_map (copy_row_cells clock) sweep_offsets
        ++ [OutEnd; OutHtmlEpilog]
  | _ => True
  end /\
  List.length sweep_offsets = 61%nat /\
  (forall k, List.length (copy_row_cells clock k) = List.length SimdCopy.columns).
Proof.
  intros Hle. split; [|split; reflexivity].
  rewrite SimdCopy_main_sweeps by exact Hle.
  pose proof (prints_for_each _ _
                (SimdCopy_sweep_row_prints fuel (set_globals o) clock
                   source_data dest_data) sweep_offsets
                (startup 256 SimdCopy.columns o source_data dest_data w)) as H.
  destruct (for_each _ _ _) as [[] w2|code w2| |]; cbn [finish]; try exact I.
  split; [reflexivity|]. cbn [w_trace].
  rewrite !stdout_app, H, stdout_startup. cbn [stdout flat_map app].
  rewrite <- !app_assoc. reflexivity.
Qed.

Lemma SimdCopy_prints_a_full_table_witness :
  match SimdCopy.main 300 (Some (command_line 4 4 f32_one true))
                      (marking_clock "for-loop") 4096 65536 (boot zeroed) with
  | Ok code w' =>
      code = 0 /\
      stdout (w_trace w')
      = stdout (w_trace (boot zeroed))
        ++ [OutHtmlProlog; OutHeader SimdCopy.columns]
        ++ flat_map (copy_row_cells (marking_clock "for-loop")) sweep_offsets
        ++ [OutEnd; OutHtmlEpilog]
  | _ => True
  end.
Proof.
  destruct (SimdCopy_prints_a_full_table 300 (command_line 4 4 f32_one true)
              (marking_clock "for-loop") 4096 65536 (boot zeroed)) as [H _].
  - cbn. lia.
  - exact H.
Defined.

(** X14. When the multiply program completes its sweep, its standard output
    is the prologue, the header, then for each offset from 4 to 64 one row
    made of the offset and seven cells in the order of the header, then the
    closing bracket and the epilogue.  A cell is the elapsed time of its run,
    except that it is the literal 0 for "Unaligned Avx" when AVX is off, for
    the two "Aligned Sse" columns when 16 does not divide the offset, and for
    the two "Aligned Avx" columns when 32 does not divide the offset or AVX
    is off. *)
Theorem SimdMult_prints_a_full_table avx fuel o clock source_data dest_data w :
  opt_num_floats o <= opt_total_floats o ->
  match SimdMult.main avx fuel (Some o) clock source_data dest_data w with
  | Ok code w' =>
      code = 0 /\
      stdout (w_trace w')
      = stdout (w_trace w)
        ++ [OutHtmlProlog; OutHeader SimdMult.columns]
        ++ flat_map (mult_row_cells avx (set_globals o) clock) sweep_offsets
        ++ [OutEnd; OutHtmlEpilog]
  | _ => True
  end /\
  (forall k, List.length (mult_row_cells avx (set_globals o) clock k)
             = List.length SimdMult.columns).
Proof.
  intros Hle. split; [|reflexivity].
  rewrite SimdMult_main_sweeps by exact Hle.
  pose proof (prints_for_each _ _
                (SimdMult_sweep_row_prints avx fuel (set_globals o) clock
                   source_data dest_data) sweep_offsets
                (startup 4096 SimdMult.columns o source_data dest_data w)) as H.
  destruct (for_each _ _ _) as [[] w2|code w2| |]; cbn [finish]; try exact I.
  split; [reflexivity|]. cbn [w_trace].
  rewrite !stdout_app, H, stdout_startup. cbn [stdout flat_map app].
  rewrite <- !app_assoc. reflexivity.
Qed.

Lemma SimdMult_prints_a_full_table_witness :
  match SimdMult.main true 300 (Some (command_line 8 8 f32_one true))
                      (marking_clock "for-loop") 4096 65536 (boot zeroed) with
  | Ok code w' =>
      code = 0 /\
      stdout (w_trace w')
      = stdout (w_trace (boot zeroed))
        ++ [OutHtmlProlog; OutHeader SimdMult.columns]
        ++ flat_map (mult_row_cells true (set_globals (command_line 8 8 f32_one true))
                       (marking_clock "for-loop")) sweep_offsets
        ++ [OutEnd; OutHtmlEpilog]
  | _ => True
  end.
Proof.
  destruct (SimdMult_prints_a_full_table true 300 (command_line 8 8 f32_one true)
              (marking_clock "for-loop") 4096 65536 (boot zeroed)) as [H _].
  - cbn. lia.
  - exact H.
Defined.

(* ------------------------------------------------------------------------- *)
(** ** What the programs write to *)

Lemma keeps_bind {A B : Type} (R : Z -> Prop) (c1 : M A) (c2 : A -> M B) :
  keeps R c1 -> (forall a, keeps R (c2 a)) -> keeps R (bind c1 c2).
Proof.
  intros H1 H2 w. unfold bind. specialize (H1 w).
  destruct (c1 w) as [a w1|code w1| |]; try exact I; [|exact H1].
  specialize (H2 a w1).
  destruct (c2 a w1) as [b w2|code w2| |]; try exact I;
    intros x Hx; rewrite H2, H1 by exact Hx; reflexivity.
Qed.

Lemma keeps_emit R e : keeps R (emit e).
Proof. intros w. cbn. reflexivity. Qed.

Lemma keeps_get_mem R : keeps R get_mem.
Proof. intros w. cbn. reflexivity. Qed.

Lemma keeps_std_exit {A : Type} R code : keeps R (@std_exit A code).
Proof. intros w. cbn. reflexivity. Qed.

Lemma keeps_update_mem (R : Z -> Prop) f :
  (forall m x, R x -> f m x = m x) -> keeps R (update_mem f).
Proof. intros H w. cbn. intros x Hx. apply H. exact Hx. Qed.

Lemma keeps_after_align {A : Type} (R : Z -> Prop) fuel p k (c : Z -> M A) :
  addressable p -> 0 <= k <= 255 -> (256 <= fuel)%nat ->
  keeps R (c (aligned_at p k)) -> keeps R (bind (align_ptr fuel p k) c).
Proof.
  intros Hp Hk Hf H w. unfold bind. rewrite align_ptr_value by assumption. apply H.
Qed.

Lemma keeps_timed_loop (R : Z -> Prop) g name f :
  (forall m m', f m = Some m' -> forall x, R x -> m' x = m x) ->
  forall fuel i, keeps R (timed_loop fuel g name f i).
Proof.
  intros Hf. induction fuel as [|fuel IH]; intros i; cbn [timed_loop].
  - intros w. exact I.
  - destruct (i <? gTotalFloats g).
    + apply keeps_bind; [apply keeps_emit|]. intros _.
      apply keeps_bind; [|intros _; apply IH].
      intros w. unfold try_mem. destruct (f (w_mem w)) as [m'|] eqn:E; [|exact I].
      cbn [w_mem]. apply (Hf _ _ E).
    + intros w. cbn. reflexivity.
Qed.

Lemma keeps_for_each {A : Type} (R : Z -> Prop) (body : A -> M unit) (l : list A) :
  (forall x, In x l -> keeps R (body x)) -> keeps R (for_each l body).
Proof.
  induction l as [|x l IH]; intros H; cbn [for_each].
  - intros w. cbn. reflexivity.
  - apply keeps_bind; [apply H; left; reflexivity|]. intros _.
    apply IH. intros y Hy. apply H. right. exact Hy.
Qed.

Lemma keeps_verdict R name k time (v : option (Z * float * float)) :
  keeps R (match v with
           | Some (_, actual, expected) =>
               emit (Cerr (ErrMismatch name actual expected)) ;; std_exit 1
           | None =>
               emit (Cerr (ErrTook name k time)) ;; emit (Cout (OutTime time))
           end).
Proof.
  destruct v as [[[i x] y]|]; apply keeps_bind;
    try apply keeps_emit; intros _; try apply keeps_emit; apply keeps_std_exit.
Qed.

(** A run of the copy program writes only where its fill and its operation
    write. *)
Lemma SimdCopy_Run_keeps (R : Z -> Prop) fuel g time f name k d s :
  (256 <= fuel)%nat -> 0 <= k <= 255 -> addressable d -> addressable s ->
  0 <= gNumFloats g ->
  (forall x, R x -> forall i, 0 <= i < gNumFloats g -> x <> elem (aligned_at d k) i) ->
  (forall m m', f g (aligned_at d k) (aligned_at s k) m = Some m' ->
                forall x, R x -> m' x = m x) ->
  keeps R (SimdCopy.Run fuel g time f name k d s).
Proof.
  intros Hfuel Hk Hd Hs Hn Hfill Hf. unfold SimdCopy.Run.
  apply keeps_after_align; try assumption.
  apply keeps_after_align; try assumption.
  apply keeps_bind.
  { apply keeps_update_mem. intros m x Hx.
    apply (fill_writes (gNumFloats g) (aligned_at d k) fzero m Hn).
    apply Hfill. exact Hx. }
  intros _. apply keeps_bind; [apply keeps_timed_loop; exact Hf|].
  intros _. apply keeps_bind; [apply keeps_emit|].
  intros _. apply keeps_bind; [apply keeps_get_mem|].
  intros m. apply keeps_verdict.
Qed.

Lemma SimdMult_Run_template_keeps (R : Z -> Prop) fuel g time f name k d a b :
  (256 <= fuel)%nat -> 0 <= k <= 255 ->
  addressable d -> addressable a -> addressable b ->
  0 <= gNumFloats g ->
  (forall x, R x -> forall i, 0 <= i < gNumFloats g -> x <> elem (aligned_at d k) i) ->
  (forall m m', f g (aligned_at d k) (aligned_at a k) (aligned_at b k) m = Some m' ->
                forall x, R x -> m' x = m x) ->
  keeps R (SimdMult.Run_template fuel g time f name k d a b).
Proof.
  intros Hfuel Hk Hd Ha Hb Hn Hfill Hf. unfold SimdMult.Run_template.
  apply keeps_after_align; try assumption.
  apply keeps_after_align; try assumption.
  apply keeps_after_align; try assumption.
  apply keeps_bind.
  { apply keeps_update_mem. intros m x Hx.
    apply (fill_writes (gNumFloats g) (aligned_at d k) fzero m Hn).
    apply Hfill. exact Hx. }
  intros _. apply keeps_bind; [apply keeps_timed_loop; exact Hf|].
  intros _. apply keeps_bind; [apply keeps_emit|].
  intros _. apply keeps_bind; [apply keeps_get_mem|].
  intros m. apply keeps_verdict.
Qed.

Lemma aligned_at_range p k : p <= aligned_at p k <= p + 255.
Proof. unfold aligned_at. pose proof (gap_range p k). lia. Qed.

Lemma multiple_of_8 n w : n mod 8 = 0 -> w = 1 \/ w = 4 \/ w = 8 -> n mod w = 0.
Proof.
  intros H8 Hw. apply Z.mod_divide in H8; [|lia]. destruct H8 as [c ->].
  destruct Hw as [->|[->| ->]].
  - apply Z.mod_1_r.
  - replace (c * 8) with ((2 * c) * 4) by lia. apply Z.mod_mul. lia.
  - apply Z.mod_mul. lia.
Qed.

Lemma copy_width_cases (f : SimdCopy.kernel) :
  SimdCopy.width f = 1 \/ SimdCopy.width f = 4 \/ SimdCopy.width f = 8.
Proof. destruct f; cbn; auto. Qed.

Lemma mult_width_cases (f : SimdMult.kernel) :
  SimdMult.width f = 1 \/ SimdMult.width f = 4 \/ SimdMult.width f = 8.
Proof. destruct f; cbn; auto. Qed.

(** A kernel of the copy program, placeholder included, changes nothing
    outside the working set of its destination. *)
Lemma copy_kernel_frame (f : SimdCopy.kernel) g d s m m' :
  0 <= gNumFloats g <= INT_MAX -> gNumFloats g mod 8 = 0 ->
  d mod SimdCopy.granularity f = 0 -> s mod SimdCopy.granularity f = 0 ->
  apart (gNumFloats g) d s ->
  SimdCopy.call f g d s m = Some m' ->
  forall x, (forall i, 0 <= i < gNumFloats g -> x <> elem d i) -> m' x = m x.
Proof.
  intros Hn H8 Hd Hs Hapart Hcall x Hx.
  assert (f = SimdCopy.fnNullCopy \/ f <> SimdCopy.fnNullCopy) as [->|Hf]
    by (destruct f; ((left; reflexivity) || (right; discriminate))).
  - cbn in Hcall. injection Hcall as <-. reflexivity.
  - destruct (copy_kernels_write f g d s m Hf Hn
                (multiple_of_8 _ _ H8 (copy_width_cases f)) Hd Hs Hapart)
      as [m1 [Hrun [_ Hout]]].
    rewrite Hrun in Hcall. injection Hcall as <-. apply Hout. exact Hx.
Qed.

Lemma mult_kernel_frame (f : SimdMult.kernel) g d a b m m' :
  0 <= gNumFloats g <= INT_MAX -> gNumFloats g mod 8 = 0 ->
  d mod SimdMult.granularity f = 0 ->
  a mod SimdMult.granularity f = 0 -> b mod SimdMult.granularity f = 0 ->
  apart (gNumFloats g) d a -> apart (gNumFloats g) d b ->
  SimdMult.call f g d a b m = Some m' ->
  forall x, (forall i, 0 <= i < gNumFloats g -> x <> elem d i) -> m' x = m x.
Proof.
  intros Hn H8 Hd Ha Hb Hda Hdb Hcall x Hx.
  assert (f = SimdMult.fnNullMult \/ f <> SimdMult.fnNullMult) as [->|Hf]
    by (destruct f; ((left; reflexivity) || (right; discriminate))).
  - cbn in Hcall. injection Hcall as <-. reflexivity.
  - destruct (mult_kernels_write f g d a b m Hf Hn
                (multiple_of_8 _ _ H8 (mult_width_cases f)) Hd Ha Hb Hda Hdb)
      as [m1 [Hrun [_ Hout]]].
    rewrite Hrun in Hcall. injection Hcall as <-. apply Hout. exact Hx.
Qed.

(** A run of a copy kernel from the source vector into the destination
    vector writes inside the destination vector. *)
Lemma copy_run_stays_in_dest (f : SimdCopy.kernel) fuel g time name k source dest :
  layout 256 0 g source dest -> (256 <= fuel)%nat ->
  0 <= k <= 255 -> k mod SimdCopy.granularity f = 0 ->
  keeps (outside dest (gNumFloats g + 256))
        (SimdCopy.Run fuel g time (SimdCopy.call f) name k dest source).
Proof.
  intros (Hn & H8 & Hd & Hs & _ & Hbuf) Hfuel Hk Hgran.
  pose proof (aligned_at_range dest k) as Hdr.
  pose proof (aligned_at_range source k) as Hsr.
  destruct (copy_granularity_divides f) as [Hg0 Hg256].
  assert (forall x, outside dest (gNumFloats g + 256) x ->
            forall i, 0 <= i < gNumFloats g -> x <> elem (aligned_at dest k) i) as Hout.
  { intros x Hx i Hi. unfold outside, elem in *. lia. }
  apply SimdCopy_Run_keeps; try assumption; try lia.
  intros m m' Hcall x Hx.
  apply (copy_kernel_frame f g (aligned_at dest k) (aligned_at source k) m m' Hn H8);
    try assumption.
  - rewrite aligned_at_mod by assumption. exact Hgran.
  - rewrite aligned_at_mod by assumption. exact Hgran.
  - unfold apart. lia.
  - apply Hout. exact Hx.
Qed.

(** A run of the placeholder of the copy program, handed the source vector
    twice, writes inside the source vector. *)
Lemma copy_placeholder_run_stays_in_source fuel g time name k source dest :
  layout 256 0 g source dest -> (256 <= fuel)%nat -> 0 <= k <= 255 ->
  keeps (outside source (gNumFloats g + 256))
        (SimdCopy.Run fuel g time SimdCopy.NullCopy name k source source).
Proof.
  intros (Hn & H8 & Hd & Hs & _ & Hbuf) Hfuel Hk.
  pose proof (aligned_at_range source k) as Hsr.
  apply SimdCopy_Run_keeps; try assumption; try lia.
  - intros x Hx i Hi. unfold outside, elem in *. lia.
  - intros m m' Hcall x Hx. cbn in Hcall. injection Hcall as <-. reflexivity.
Qed.

Lemma keeps_weaken {A : Type} (R R' : Z -> Prop) (c : M A) :
  (forall x, R' x -> R x) -> keeps R c -> keeps R' c.
Proof.
  intros Himp H w. specialize (H w).
  destruct (c w) as [a w'|code w'| |]; try exact I;
    intros x Hx; apply H, Himp, Hx.
Qed.

Lemma in_sweep_offsets k : In k sweep_offsets -> 4 <= k <= 64.
Proof.
  unfold sweep_offsets. intros H. apply in_map_iff in H as [j [<- Hj]].
  apply in_seq in Hj. lia.
Qed.

Lemma SimdCopy_sweep_row_keeps fuel g clock source dest k :
  layout 256 0 g source dest -> (256 <= fuel)%nat -> 0 <= k <= 255 ->
  keeps (fun x => outside dest (gNumFloats g + 256) x /\
                  outside source (gNumFloats g + 256) x)
        (SimdCopy.sweep_row fuel g clock source dest k).
Proof.
  intros Hlay Hfuel Hk. unfold SimdCopy.sweep_row. cbv zeta.
  assert (forall f name, k mod SimdCopy.granularity f = 0 ->
            keeps (fun x => outside dest (gNumFloats g + 256) x /\
                            outside source (gNumFloats g + 256) x)
                  (SimdCopy.Run fuel g (clock name k) (SimdCopy.call f) name k
                                dest source)) as Hreal.
  { intros f name Hgran.
    apply (keeps_weaken (outside dest (gNumFloats g + 256))); [intros x [H _]; exact H|].
    apply copy_run_stays_in_dest; assumption. }
  assert (forall name,
            keeps (fun x => outside dest (gNumFloats g + 256) x /\
                            outside source (gNumFloats g + 256) x)
                  (SimdCopy.Run fuel g (clock name k) SimdCopy.NullCopy name k
                                source source)) as Hnull.
  { intros name.
    apply (keeps_weaken (outside source (gNumFloats g + 256))); [intros x [_ H]; exact H|].
    apply (copy_placeholder_run_stays_in_source fuel g _ name k source dest); assumption. }
  apply keeps_bind; [apply keeps_emit|]. intros _.
  apply keeps_bind; [apply (Hreal SimdCopy.fnMemCopy); apply Z.mod_1_r|]. intros _.
  apply keeps_bind; [apply (Hreal SimdCopy.fnStdCopy); apply Z.mod_1_r|]. intros _.
  apply keeps_bind; [apply (Hreal SimdCopy.fnSimpleCopy); apply Z.mod_1_r|]. intros _.
  apply keeps_bind; [apply (Hreal SimdCopy.fnUnalignedSseCopy); apply Z.mod_1_r|].
  intros _.
  apply keeps_bind.
  { destruct (gHasAvx g);
      [apply (Hreal SimdCopy.fnUnalignedAvxCopy); apply Z.mod_1_r | apply Hnull]. }
  intros _. apply keeps_bind.
  { destruct (k mod 16 =? 0) eqn:E16.
    - apply Z.eqb_eq in E16.
      apply keeps_bind; [apply (Hreal SimdCopy.fnAlignedSseCopy); exact E16|].
      intros _. apply (Hreal SimdCopy.fnAlignedSseNonTemporalCopy). exact E16.
    - apply keeps_bind; [apply Hnull|]. intros _. apply Hnull. }
  intros _.
  destruct ((k mod 32 =? 0) && gHasAvx g) eqn:E32.
  - apply andb_true_iff in E32 as [E32 _]. apply Z.eqb_eq in E32.
    apply keeps_bind; [apply (Hreal SimdCopy.fnAlignedAvxCopy); exact E32|].
    intros _. apply (Hreal SimdCopy.fnAlignedAvxNonTemporalCopy). exact E32.
  - apply keeps_bind; [apply Hnull|]. intros _. apply Hnull.
Qed.

Lemma SimdMult_sweep_row_keeps avx fuel g clock source dest k :
  layout 4096 256 g source dest -> (256 <= fuel)%nat -> 0 <= k <= 255 ->
  keeps (outside dest (gNumFloats g + 256))
        (SimdMult.sweep_row avx fuel g clock source dest k).
Proof.
  intros Hlay Hfuel Hk. unfold SimdMult.sweep_row. cbv zeta.
  pose proof Hlay as (Hn & H8 & Hd & Hs & Hs2 & Hbuf).
  pose proof (aligned_at_range dest k) as Hdr.
  pose proof (aligned_at_range source k) as Hsr.
  pose proof (aligned_at_range (elem source 256) k) as Hbr.
  assert (forall f name d, f <> SimdMult.fnNullMult -> d = dest ->
            k mod SimdMult.granularity f = 0 ->
            keeps (outside dest (gNumFloats g + 256))
                  (SimdMult.Run fuel g (clock name k) f name k d source
                                (elem source 256))) as Hreal.
  { intros f name d Hf -> Hgran.
    assert (SimdMult.Run fuel g (clock name k) f name k dest source (elem source 256)
            = SimdMult.Run_template fuel g (clock name k) (SimdMult.call f) name k
                dest source (elem source 256)) as ->
      by (destruct f; try reflexivity; contradiction).
    destruct (mult_granularity_divides f) as [Hg0 Hg256].
    assert (forall x, outside dest (gNumFloats g + 256) x ->
              forall i, 0 <= i < gNumFloats g -> x <> elem (aligned_at dest k) i) as Hout.
    { intros x Hx i Hi. unfold outside, elem in *. lia. }
    apply SimdMult_Run_template_keeps; try assumption; try lia.
    intros m m' Hcall x Hx.
    apply (mult_kernel_frame f g (aligned_at dest k) (aligned_at source k)
             (aligned_at (elem source 256) k) m m' Hn H8); try assumption.
    - rewrite aligned_at_mod by assumption. exact Hgran.
    - rewrite aligned_at_mod by assumption. exact Hgran.
    - rewrite aligned_at_mod by assumption. exact Hgran.
    - unfold apart, elem in *. lia.
    - unfold apart, elem in *. lia.
    - apply Hout. exact Hx. }
  assert (forall name d,
            keeps (outside dest (gNumFloats g + 256))
                  (SimdMult.Run fuel g (clock name k) SimdMult.fnNullMult name k d
                                source (elem source 256))) as Hnull.
  { intros name d. cbn [SimdMult.Run]. unfold SimdMult.Run_NullMult. apply keeps_emit. }
  apply keeps_bind; [apply keeps_emit|]. intros _.
  apply keeps_bind;
    [apply Hreal; [discriminate | reflexivity | apply Z.mod_1_r]|]. intros _.
  apply keeps_bind;
    [apply Hreal; [discriminate | reflexivity | apply Z.mod_1_r]|]. intros _.
  apply keeps_bind.
  { destruct (avx && gHasAvx g);
      [apply Hreal; [discriminate | reflexivity | apply Z.mod_1_r] | apply Hnull]. }
  intros _. apply keeps_bind.
  { destruct (k mod 16 =? 0) eqn:E16.
    - apply Z.eqb_eq in E16.
      apply keeps_bind; [apply Hreal; [discriminate | reflexivity | exact E16]|].
      intros _. apply Hreal; [discriminate | reflexivity | exact E16].
    - apply keeps_bind; [apply Hnull|]. intros _. apply Hnull. }
  intros _.
  destruct (avx && ((k mod 32 =? 0) && gHasAvx g)) eqn:E32.
  - apply andb_true_iff in E32 as [_ E32].
    apply andb_true_iff in E32 as [E32 _]. apply Z.eqb_eq in E32.
    apply keeps_bind; [apply Hreal; [discriminate | reflexivity | exact E32]|].
    intros _. apply Hreal; [discriminate | reflexivity | exact E32].
  - apply keeps_bind; [apply Hnull|]. intros _. apply Hnull.
Qed.

Lemma size_wrap_buffer n slack :
  0 <= n <= INT_MAX -> 0 <= slack <= 4096 -> size_wrap (n + slack) = n + slack.
Proof.
  intros Hn Hs. unfold size_wrap. apply Z.mod_small.
  rewrite INT_MAX_value in Hn. rewrite size_modulus_value. lia.
Qed.

(** The memory [main] starts its sweep with: the source holds the check
    value, and nothing outside the two vectors has changed. *)
Lemma startup_memory slack header o source dest w :
  0 <= opt_num_floats o <= INT_MAX -> 0 <= slack <= 4096 ->
  (dest + 4 * (opt_num_floats o + 256) <= source \/
   source + 4 * (opt_num_floats o + slack) <= dest) ->
  (forall i, 0 <= i < opt_num_floats o + slack ->
     w_mem (startup slack header o source dest w) (elem source i) = opt_check_value o) /\
  (forall x, outside dest (opt_num_floats o + 256) x ->
             outside source (opt_num_floats o + slack) x ->
     w_mem (startup slack header o source dest w) x = w_mem w x).
Proof.
  intros Hn Hslack Hbuf. unfold startup. cbn [w_mem].
  rewrite !size_wrap_buffer by lia.
  set (m1 := fill (opt_num_floats o + slack) source (opt_check_value o) (w_mem w)).
  destruct (fill_writes (opt_num_floats o + 256) dest fzero m1 ltac:(lia)) as [_ Hd].
  destruct (fill_writes (opt_num_floats o + slack) source (opt_check_value o) (w_mem w)
              ltac:(lia)) as [Hs Hs'].
  fold m1 in Hs, Hs'. split.
  - intros i Hi. rewrite Hd by (intros j Hj; unfold elem; lia). apply Hs. exact Hi.
  - intros x Hx Hx'.
    rewrite Hd by (intros j Hj; unfold outside, elem in *; lia).
    apply Hs'. intros j Hj. unfold outside, elem in *. lia.
Qed.

(** X15. The multiply program never writes outside its destination vector:
    for a working set that is a multiple of 8 and fits an [int], and two
    vectors lying apart, when [main] returns or is ended by a failed
    verification every element of the source vector still holds the check
    value it was allocated with, and no cell outside the two vectors has
    changed. *)
Theorem SimdMult_writes_only_the_destination
    avx fuel o clock source_data dest_data w :
  (256 <= fuel)%nat ->
  0 <= opt_num_floats o <= INT_MAX -> opt_num_floats o mod 8 = 0 ->
  opt_num_floats o <= opt_total_floats o ->
  addressable dest_data -> addressable source_data ->
  addressable (elem source_data 256) ->
  (dest_data + 4 * (opt_num_floats o + 256) <= source_data \/
   source_data + 4 * (opt_num_floats o + 4096) <= dest_data) ->
  let untouched (w' : world) :=
    (forall i, 0 <= i < opt_num_floats o + 4096 ->
       w_mem w' (elem source_data i) = opt_check_value o) /\
    (forall x, outside dest_data (opt_num_floats o + 256) x ->
               outside source_data (opt_num_floats o + 4096) x ->
       w_mem w' x = w_mem w x) in
  match SimdMult.main avx fuel (Some o) clock source_data dest_data w with
  | Ok _ w' => untouched w'
  | Exit _ w' => untouched w'
  | _ => True
  end.
Proof.
  intros Hfuel Hn H8 Hle Hd Hs Hs2 Hbuf untouched.
  rewrite SimdMult_main_sweeps by exact Hle.
  assert (layout 4096 256 (set_globals o) source_data dest_data) as Hlay
    by (unfold layout; cbn [set_globals gNumFloats]; tauto).
  destruct (startup_memory 4096 SimdMult.columns o source_data dest_data w Hn
              ltac:(lia) Hbuf) as [Hsrc0 Hout0].
  pose proof (keeps_for_each (outside dest_data (opt_num_floats o + 256))
                (SimdMult.sweep_row avx fuel (set_globals o) clock source_data dest_data)
                sweep_offsets) as Hsweep.
  specialize (Hsweep ltac:(intros k Hk; apply in_sweep_offsets in Hk;
                            apply (SimdMult_sweep_row_keeps avx fuel (set_globals o));
                            [exact Hlay | exact Hfuel | lia])).
  specialize (Hsweep (startup 4096 SimdMult.columns o source_data dest_data w)).
  assert (forall w2,
            (forall x, outside dest_data (opt_num_floats o + 256) x ->
               w_mem w2 x
               = w_mem (startup 4096 SimdMult.columns o source_data dest_data w) x) ->
            (forall i, 0 <= i < opt_num_floats o + 4096 ->
               w_mem w2 (elem source_data i) = opt_check_value o) /\
            (forall x, outside dest_data (opt_num_floats o + 256) x ->
                       outside source_data (opt_num_floats o + 4096) x ->
               w_mem w2 x = w_mem w x)) as Hfinal.
  { intros w2 H2. split.
    - intros i Hi. rewrite H2 by (unfold outside, elem; lia). apply Hsrc0. exact Hi.
    - intros x Hx Hx'. rewrite H2 by exact Hx. apply Hout0; assumption. }
  destruct (for_each _ _ _) as [[] w2|code w2| |]; cbn [finish]; try exact I;
    unfold untouched; cbn [w_mem]; apply Hfinal; exact Hsweep.
Qed.

Lemma SimdMult_writes_only_the_destination_witness :
  match SimdMult.main true 300 (Some (command_line 8 8 f32_one true))
                      (marking_clock "for-loop") 4096 65536 (boot zeroed) with
  | Ok _ w' =>
      (forall i, 0 <= i < 8 + 4096 -> w_mem w' (elem 4096 i) = f32_one) /\
      (forall x, outside 65536 (8 + 256) x -> outside 4096 (8 + 4096) x ->
         w_mem w' x = zeroed x)
  | Exit _ w' =>
      (forall i, 0 <= i < 8 + 4096 -> w_mem w' (elem 4096 i) = f32_one) /\
      (forall x, outside 65536 (8 + 256) x -> outside 4096 (8 + 4096) x ->
         w_mem w' x = zeroed x)
  | _ => True
  end.
Proof.
  exact (SimdMult_writes_only_the_destination true 300 (command_line 8 8 f32_one true)
           (marking_clock "for-loop") 4096 65536 (boot zeroed)
           ltac:(lia)
           ltac:(split; [discriminate | vm_compute; discriminate])
           ltac:(reflexivity)
           ltac:(discriminate)
           ltac:(split; [discriminate | reflexivity])
           ltac:(split; [discriminate | reflexivity])
           ltac:(split; [discriminate | reflexivity])
           ltac:(right; vm_compute; discriminate)).
Defined.

(** X16. The copy program never writes outside its two vectors: for a
    working set that is a multiple of 8 and fits an [int], and two vectors
    lying apart, when [main] returns or is ended by a failed verification no
    cell outside the destination vector and the source vector has changed
    (the slack of 256 floats absorbs every alignment shift of the sweep). *)
Theorem SimdCopy_writes_stay_inside_the_vectors
    fuel o clock source_data dest_data w :
  (256 <= fuel)%nat ->
  0 <= opt_num_floats o <= INT_MAX -> opt_num_floats o mod 8 = 0 ->
  opt_num_floats o <= opt_total_floats o ->
  addressable dest_data -> addressable source_data ->
  (dest_data + 4 * (opt_num_floats o + 256) <= source_data \/
   source_data + 4 * (opt_num_floats o + 256) <= dest_data) ->
  let untouched (w' : world) :=
    forall x, outside dest_data (opt_num_floats o + 256) x ->
              outside source_data (opt_num_floats o + 256) x ->
      w_mem w' x = w_mem w x in
  match SimdCopy.main fuel (Some o) clock source_data dest_data w with
  | Ok _ w' => untouched w'
  | Exit _ w' => untouched w'
  | _ => True
  end.
Proof.
  intros Hfuel Hn H8 Hle Hd Hs Hbuf untouched.
  rewrite SimdCopy_main_sweeps by exact Hle.
  assert (addressable (elem source_data 0)) as Hs2.
  { unfold elem. rewrite Z.mul_0_r, Z.add_0_r. exact Hs. }
  assert (layout 256 0 (set_globals o) source_data dest_data) as Hlay
    by (unfold layout; cbn [set_globals gNumFloats]; tauto).
  destruct (startup_memory 256 SimdCopy.columns o source_data dest_data w Hn
              ltac:(lia) Hbuf) as [_ Hout0].
  pose proof (keeps_for_each
                (fun x => outside dest_data (opt_num_floats o + 256) x /\
                          outside source_data (opt_num_floats o + 256) x)
                (SimdCopy.sweep_row fuel (set_globals o) clock source_data dest_data)
                sweep_offsets) as Hsweep.
  specialize (Hsweep ltac:(intros k Hk; apply in_sweep_offsets in Hk;
                            apply (SimdCopy_sweep_row_keeps fuel (set_globals o));
                            [exact Hlay | exact Hfuel | lia])).
  specialize (Hsweep (startup 256 SimdCopy.columns o source_data dest_data w)).
  destruct (for_each _ _ _) as [[] w2|code w2| |]; cbn [finish]; try exact I;
    unfold untouched; cbn [w_mem]; intros x Hx Hx';
    rewrite Hsweep by (split; assumption); apply Hout0; assumption.
Qed.

Lemma SimdCopy_writes_stay_inside_the_vectors_witness :
  match SimdCopy.main 300 (Some (command_line 8 8 f32_one true))
                      (marking_clock "for-loop") 4096 65536 (boot zeroed) with
  | Ok _ w' =>
      forall x, outside 65536 (8 + 256) x -> outside 4096 (8 + 256) x ->
        w_mem w' x = zeroed x
  | Exit _ w' =>
      forall x, outside 65536 (8 + 256) x -> outside 4096 (8 + 256) x ->
        w_mem w' x = zeroed x
  | _ => True
  end.
Proof.
  exact (SimdCopy_writes_stay_inside_the_vectors 300 (command_line 8 8 f32_one true)
           (marking_clock "for-loop") 4096 65536 (boot zeroed)
           ltac:(lia)
           ltac:(split; [discriminate | vm_compute; discriminate])
           ltac:(reflexivity)
           ltac:(discriminate)
           ltac:(split; [discriminate | reflexivity])
           ltac:(split; [discriminate | reflexivity])
           ltac:(right; vm_compute; discriminate)).
Defined.

(* ------------------------------------------------------------------------- *)
(** ** The command line *)

Local Open Scope string_scope.

Lemma begins_append t post : CommandLine.begins t (t ++ post) = true.
Proof.
  induction t as [|a t IH]; cbn; [reflexivity|].
  rewrite Ascii.eqb_refl. exact IH.
Qed.

Lemma begins_inv t : forall s,
  CommandLine.begins t s = true -> exists post, s = t ++ post.
Proof.
  induction t as [|a t IH]; intros s H.
  - exists s. reflexivity.
  - destruct s as [|b s]; cbn in H; [discriminate|].
    apply andb_true_iff in H as [Hab H]. apply Ascii.eqb_eq in Hab. subst b.
    destruct (IH s H) as [post ->]. exists post. reflexivity.
Qed.

(** [strstr] finds [t] exactly when [t] occurs in [s]. *)
Lemma strstr_finds s t :
  CommandLine.strstr s t <> None <-> substring_of t s.
Proof.
  split.
  - induction s as [|c s IH]; cbn [CommandLine.strstr].
    + destruct (CommandLine.begins t "") eqn:E; [|intros H; contradiction].
      intros _. destruct (begins_inv _ _ E) as [post Hpost].
      exists "", post. exact Hpost.
    + destruct (CommandLine.begins t (String c s)) eqn:E.
      * intros _. destruct (begins_inv _ _ E) as [post Hpost].
        exists "", post. exact Hpost.
      * intros H. destruct (IH H) as [pre [post ->]].
        exists (String c pre), post. reflexivity.
  - intros [pre [post ->]]. induction pre as [|c pre IH].
    + cbn [append]. destruct t as [|a t]; [destruct post; cbn; discriminate|].
      cbn [CommandLine.strstr append].
      change (String a (t ++ post)) with (String a t ++ post).
      rewrite begins_append. discriminate.
    + cbn [append CommandLine.strstr].
      destruct (CommandLine.begins t (String c (pre ++ t ++ post)));
        [discriminate | exact IH].
Qed.

Lemma strpbrk_none s accept :
  (forall c pre post, s = pre ++ String c post -> CommandLine.occurs c accept = false) ->
  CommandLine.strpbrk s accept = None.
Proof.
  induction s as [|c s IH]; intros H; cbn; [reflexivity|].
  rewrite (H c "" s eq_refl). apply IH.
  intros c' pre post ->. apply (H c' (String c pre) post). reflexivity.
Qed.

(** [strpbrk] stops at the first ['='] of the argument. *)
Lemma strpbrk_first_equals a b :
  CommandLine.strpbrk a "=" = None ->
  CommandLine.strpbrk (a ++ String "=" b) "=" = Some (String "=" b).
Proof.
  induction a as [|c a IH]; cbn [append CommandLine.strpbrk]; [intros _; reflexivity|].
  destruct (CommandLine.occurs c "="); [discriminate|]. exact IH.
Qed.

Lemma get_option_is_read_option {T : Type} (extract : string -> option T) name :
  forall argv opt w,
    CommandLine.get_option extract name argv opt w
    = match read_option extract name argv opt with
      | Some v => Ok v w
      | None => Exit 1 {| w_mem := w_mem w; w_trace := w_trace w ++ [Cerr ErrUsage] |}
      end.
Proof.
  induction argv as [|arg argv IH]; intros opt w;
    cbn [CommandLine.get_option read_option]; [reflexivity|].
  destruct (CommandLine.strstr arg name); [|apply IH].
  destruct (CommandLine.strpbrk arg "="); [|apply IH].
  destruct (extract (CommandLine.next s0)); [apply IH | reflexivity].
Qed.

Lemma read_option_app {T : Type} (extract : string -> option T) name :
  forall l1 l2 opt,
    read_option extract name (l1 ++ l2)%list opt
    = match read_option extract name l1 opt with
      | Some v => read_option extract name l2 v
      | None => None
      end.
Proof.
  induction l1 as [|arg l1 IH]; intros l2 opt; cbn [read_option app]; [reflexivity|].
  destruct (CommandLine.strstr arg name); [|apply IH].
  destruct (CommandLine.strpbrk arg "="); [|apply IH].
  destruct (extract (CommandLine.next s0)); [apply IH | reflexivity].
Qed.

(** X17. An option that the command line does not mention keeps its value:
    when every argument either does not contain the option's name or has no
    ['='], [get_option] returns the value it was given and writes nothing. *)
Theorem get_option_keeps_an_unmentioned_option
    {T : Type} (extract : string -> option T) name argv (opt : T) w :
  (forall arg, In arg argv ->
     ~ substring_of name arg \/ CommandLine.strpbrk arg "=" = None) ->
  CommandLine.get_option extract name argv opt w = Ok opt w.
Proof.
  intros H. rewrite get_option_is_read_option.
  assert (read_option extract name argv opt = Some opt) as ->; [|reflexivity].
  induction argv as [|arg argv IH]; cbn [read_option]; [reflexivity|].
  destruct (H arg (or_introl eq_refl)) as [Hno|Hno].
  - destruct (CommandLine.strstr arg name) eqn:E.
    + exfalso. apply Hno. apply strstr_finds. rewrite E. discriminate.
    + apply IH. intros a Ha. apply H. right. exact Ha.
  - rewrite Hno. destruct (CommandLine.strstr arg name);
      apply IH; intros a Ha; apply H; right; exact Ha.
Qed.

Lemma get_option_keeps_an_unmentioned_option_witness :
  CommandLine.get_option (fun _ : string => @None Z) "num-floats"
    ["./copy"; "total-floats=8"; "num-floats"]%list 16384 (boot zeroed)
  = Ok 16384 (boot zeroed).
Proof.
  apply (get_option_keeps_an_unmentioned_option (fun _ : string => @None Z)).
  intros arg [<-|[<-|[<-|[]]]].
  - left. intros H. apply strstr_finds in H. apply H. reflexivity.
  - left. intros H. apply strstr_finds in H. apply H. reflexivity.
  - right. reflexivity.
Defined.

(** X18. [get_option] matches the name anywhere in an argument and reads
    the value that follows the argument's first ['=']; the last argument that
    mentions the option wins.  When the final argument contains the name, is
    [a ++ "=" ++ b] with no ['='] in [a], and [b] is extracted as [v], the
    result is [v] whatever the earlier arguments set, provided they did not
    end the process. *)
Theorem get_option_reads_what_follows_the_first_equals
    {T : Type} (extract : string -> option T) name before a b (v opt : T) w :
  substring_of name (a ++ String "=" b) ->
  CommandLine.strpbrk a "=" = None ->
  extract b = Some v ->
  CommandLine.get_option extract name (before ++ [(a ++ String "=" b)%string])%list opt w
  = (CommandLine.get_option extract name before opt ;; ret v) w.
Proof.
  intros Hname Ha Hb. unfold bind. rewrite !get_option_is_read_option.
  rewrite read_option_app.
  destruct (read_option extract name before opt) as [v0|]; [|reflexivity].
  cbn [read_option].
  apply strstr_finds in Hname.
  destruct (CommandLine.strstr (a ++ String "=" b) name); [|contradiction].
  rewrite strpbrk_first_equals by exact Ha. cbn [CommandLine.next].
  rewrite Hb. reflexivity.
Qed.

Lemma get_option_reads_what_follows_the_first_equals_witness :
  CommandLine.get_option (fun s => if String.eqb s "8" then Some 8%Z else None)
    "num-floats" (["./copy"; "num-floats=4"] ++ [("--my-num-floats" ++ String "=" "8")%string])%list
    16384%Z (boot zeroed)
  = (CommandLine.get_option (fun s => if String.eqb s "8" then Some 8%Z else None)
       "num-floats" ["./copy"; "num-floats=4"]%list 16384%Z ;; ret 8%Z) (boot zeroed).
Proof.
  apply (get_option_reads_what_follows_the_first_equals
           (fun s => if String.eqb s "8" then Some 8%Z else None)
           "num-floats" ["./copy"; "num-floats=4"]%list "--my-num-floats" "8").
  - exists "--my-", "=8". reflexivity.
  - reflexivity.
  - reflexivity.
Defined.

(** X19. A value that cannot be extracted ends the process: at the first
    argument that contains the name and an ['='] followed by text the
    extraction rejects, [get_option] prints the usage text and exits with
    code 1, without looking at the arguments that follow. *)
Theorem get_option_rejects_an_unreadable_value
    {T : Type} (extract : string -> option T) name before a b after (opt : T) w :
  substring_of name (a ++ String "=" b) ->
  CommandLine.strpbrk a "=" = None ->
  extract b = None ->
  CommandLine.get_option extract name
    (before ++ (a ++ String "=" b)%string :: after)%list opt w
  = (CommandLine.get_option extract name before opt ;; print_usage ;; std_exit 1) w.
Proof.
  intros Hname Ha Hb. unfold bind. rewrite !get_option_is_read_option.
  rewrite read_option_app.
  destruct (read_option extract name before opt) as [v0|]; [|reflexivity].
  cbn [read_option].
  apply strstr_finds in Hname.
  destruct (CommandLine.strstr (a ++ String "=" b) name); [|contradiction].
  rewrite strpbrk_first_equals by exact Ha. cbn [CommandLine.next].
  rewrite Hb. reflexivity.
Qed.

Lemma get_option_rejects_an_unreadable_value_witness :
  CommandLine.get_option (fun s => if String.eqb s "8" then Some 8%Z else None)
    "num-floats" (["./copy"] ++ ("num-floats" ++ String "=" "many")%string :: ["num-floats=8"])%list
    16384%Z (boot zeroed)
  = (CommandLine.get_option (fun s => if String.eqb s "8" then Some 8%Z else None)
       "num-floats" ["./copy"]%list 16384%Z ;; print_usage ;; std_exit 1) (boot zeroed).
Proof.
  apply (get_option_rejects_an_unreadable_value
           (fun s => if String.eqb s "8" then Some 8%Z else None)
           "num-floats" ["./copy"]%list "num-floats" "many" ["num-floats=8"]%list).
  - exists "", "=many". reflexivity.
  - reflexivity.
  - reflexivity.
Defined.

(** X20. The four [get_option] calls at the head of [main] amount to
    reading the options off the command line: the program behaves as the
    rest of [main] run on the options read, and as the print-usage-and-exit-1
    path when one of them cannot be read, nothing else being written in
    between.  A command line without any ['='] runs the sweep on the initial
    values of the globals. *)
Theorem program_runs_main_on_the_parsed_options
    fuel read_size read_float read_bool argv clock source_data dest_data w :
  CommandLine.program fuel read_size read_float read_bool argv clock
    source_data dest_data w
  = SimdCopy.main fuel (parse_argv read_size read_float read_bool argv) clock
      source_data dest_data w /\
  ((forall arg, In arg argv -> CommandLine.strpbrk arg "=" = None) ->
   CommandLine.program fuel read_size read_float read_bool argv clock
     source_data dest_data w
   = SimdCopy.main fuel (Some CommandLine.defaults) clock source_data dest_data w).
Proof.
  assert (CommandLine.program fuel read_size read_float read_bool argv clock
            source_data dest_data w
          = SimdCopy.main fuel (parse_argv read_size read_float read_bool argv) clock
              source_data dest_data w) as Hprogram; [|split; [exact Hprogram|]].
  - unfold CommandLine.program, parse_argv.
    unfold bind at 1. rewrite get_option_is_read_option.
    destruct (read_option read_size "num-floats" argv _) as [num|]; [|reflexivity].
    unfold bind at 1. rewrite get_option_is_read_option.
    destruct (read_option read_size "total-floats" argv _) as [total|]; [|reflexivity].
    unfold bind at 1. rewrite get_option_is_read_option.
    destruct (read_option read_float "check-value" argv _) as [check|]; [|reflexivity].
    unfold bind at 1. rewrite get_option_is_read_option.
    destruct (read_option read_bool "enable-avx" argv _) as [avx|]; reflexivity.
  - intros Hno.
    assert (forall (T : Type) (extract : string -> option T) name (opt : T),
              read_option extract name argv opt = Some opt) as Hkeep.
    { intros T extract name opt. clear - Hno.
      induction argv as [|arg argv IH]; cbn [read_option]; [reflexivity|].
      rewrite (Hno arg (or_introl eq_refl)).
      destruct (CommandLine.strstr arg name);
        apply IH; intros a Ha; apply Hno; right; exact Ha. }
    rewrite Hprogram. unfold parse_argv. rewrite !Hkeep. reflexivity.
Qed.

Lemma program_runs_main_on_the_parsed_options_witness :
  CommandLine.program 0 (fun _ => None) (fun _ => None) (fun _ => None)
    ["./copy"; "report-html"]%list (marking_clock "for-loop") 4096 65536 (boot zeroed)
  = SimdCopy.main 0 (Some CommandLine.defaults) (marking_clock "for-loop")
      4096 65536 (boot zeroed).
Proof.
  destruct (program_runs_main_on_the_parsed_options 0
              (fun _ => None) (fun _ => None) (fun _ => None)
              ["./copy"; "report-html"]%list
              (marking_clock "for-loop") 4096 65536 (boot zeroed)) as [_ H].
  apply H. intros arg [<-|[<-|[]]]; reflexivity.
Defined.

Local Close Scope string_scope.
